(** * lensy: geometric ray tracing through quadric optical surfaces

    A shallow embedding of [lensy.c] (library v1.4) and the properties its
    specification states about it.

    Numbers.  The C code computes on [double].  The embedding computes on the
    real numbers [R]: every property below is a statement of exact real
    arithmetic.  A run of the C code leaves the reals when it divides by
    zero, takes the square root of a negative number or calls [asin] outside
    [-1, 1] (IEEE arithmetic continues with an infinity or a NaN).  Such a run
    is the result [Undef] here, and no theorem says anything about it.

    State.  The intersection and redirection routines receive the ray by
    pointer and the arrays [q] and [n] by reference.  They are embedded as
    computations over a [frame] that holds the ray, [q] and [n]; the ray
    generators are computations over the ray list and the allocator. *)

From Stdlib Require Import Reals Lra Lia ZArith List Zfloor.
Import ListNotations.
Local Open Scope R_scope.

(** ** The state and error monad *)

Inductive result (A : Type) : Type :=
| Undef : result A            (* the run left the real numbers *)
| OutOfFuel : result A        (* a [for] loop on a [double] did not finish *)
| Ret : A -> result A.
Arguments Undef {A}.
Arguments OutOfFuel {A}.
Arguments Ret {A} _.

Definition M (S A : Type) : Type := S -> result (A * S).

Definition ret {S A : Type} (a : A) : M S A := fun s => Ret (a, s).

Definition undef {S A : Type} : M S A := fun _ => Undef.

Definition out_of_fuel {S A : Type} : M S A := fun _ => OutOfFuel.

Definition bind {S A B : Type} (c : M S A) (k : A -> M S B) : M S B :=
  fun s => match c s with
           | Undef => Undef
           | OutOfFuel => OutOfFuel
           | Ret (a, s') => k a s'
           end.

Notation "x <- c ;; k" := (bind c (fun x => k))
  (at level 61, c at next level, right associativity).
Notation "c ;; k" := (bind c (fun _ => k))
  (at level 61, right associativity).

(** [for (j = lo; j < lo + count; j++)] on an [int32_t] counter the body
    does not assign. *)
Definition range (lo : Z) (count : nat) : list Z :=
  map (fun i => (lo + Z.of_nat i)%Z) (seq 0 count).

Fixpoint for_each {S A E : Type} (js : list E) (body : E -> A -> M S A)
    (acc : A) : M S A :=
  match js with
  | [] => ret acc
  | j :: js' => acc' <- body j acc ;; for_each js' body acc'
  end.

(** ** Arithmetic of [double], read in the reals *)

(** [x / y]; a zero divisor leaves the reals. *)
Definition fdiv {S : Type} (x y : R) : M S R :=
  if Req_dec_T y 0 then undef else ret (x / y).

(** [sqrt(x)]; a negative argument leaves the reals. *)
Definition fsqrt {S : Type} (x : R) : M S R :=
  if Rlt_dec x 0 then undef else ret (sqrt x).

(** [asin(x)]; an argument outside [-1, 1] leaves the reals. *)
Definition fasin {S : Type} (x : R) : M S R :=
  if Rlt_dec 1 (Rabs x) then undef else ret (asin x).

(** [atan2(y, x)] of the C library. *)
Definition atan2 (y x : R) : R :=
  if Rlt_dec 0 x then atan (y / x)
  else if Rlt_dec x 0 then
         if Rlt_dec y 0 then atan (y / x) - PI else atan (y / x) + PI
  else if Rlt_dec 0 y then PI / 2
  else if Rlt_dec y 0 then - (PI / 2)
  else 0.

(** [floor(x)], a [double] again. *)
Definition ffloor (x : R) : R := IZR (Zfloor x).

(** [for (x = lo; x < hi; x += step)] on a [double]: the loop need not end
    (a step that is zero or negative), so it runs on fuel. *)
Fixpoint for_real {S A : Type} (fuel : nat) (x hi step : R)
    (body : R -> A -> M S A) (acc : A) : M S A :=
  if Rlt_dec x hi then
    match fuel with
    | O => out_of_fuel
    | Datatypes.S fuel' =>
        acc' <- body x acc ;; for_real fuel' (x + step) hi step body acc'
    end
  else ret acc.

(** The conversion of a [double] to [int32_t] (truncation toward zero); it is
    undefined behaviour when the value does not fit. *)
Definition to_int32 {S : Type} (x : R) : M S Z :=
  let z := if Rlt_dec x 0 then (- Zfloor (- x))%Z else Zfloor x in
  if Z_le_dec (- 2147483648) z then
    if Z_le_dec z 2147483647 then ret z else undef
  else undef.

(** ** Vectors: [double a[3]] *)

Record vec3 : Type := V3 { e0 : R; e1 : R; e2 : R }.

(** The three statements that treat the three components alike are written
    once, with these combinators. *)
Definition vadd (a b : vec3) : vec3 := V3 (e0 a + e0 b) (e1 a + e1 b) (e2 a + e2 b).
Definition vsub (a b : vec3) : vec3 := V3 (e0 a - e0 b) (e1 a - e1 b) (e2 a - e2 b).
Definition vscale (k : R) (a : vec3) : vec3 := V3 (k * e0 a) (k * e1 a) (k * e2 a).
Definition vneg (a : vec3) : vec3 := V3 (- e0 a) (- e1 a) (- e2 a).
Definition vzero : vec3 := V3 0 0 0.

Definition vdiv {S : Type} (a : vec3) (k : R) : M S vec3 :=
  x <- fdiv (e0 a) k ;; y <- fdiv (e1 a) k ;; z <- fdiv (e2 a) k ;;
  ret (V3 x y z).

Declare Scope vec_scope.
Delimit Scope vec_scope with vec.
Infix "+v" := vadd (at level 50, left associativity) : vec_scope.
Infix "-v" := vsub (at level 50, left associativity) : vec_scope.
Infix "*v" := vscale (at level 40, left associativity) : vec_scope.
Local Open Scope vec_scope.

Definition lensy_inner3 (a b : vec3) : R :=
  e0 a * e0 b + e1 a * e1 b + e2 a * e2 b.

(** The argument of the square root is a sum of squares: it is never negative. *)
Definition lensy_mag3 (a : vec3) : R := sqrt (lensy_inner3 a a).

Definition lensy_cross3 (a b : vec3) : vec3 :=
  V3 (e1 a * e2 b - e1 b * e2 a)
     (- (e0 a * e2 b - e0 b * e2 a))
     (e0 a * e1 b - e0 b * e1 a).

(** ** Surfaces and rays ([lensy.h]) *)

Record lensy_paraboloid_struct : Type := {
  paraboloid_v : vec3;
  paraboloid_f : vec3;
  paraboloid_aperture : R
}.

Record lensy_sphere_struct : Type := {
  sphere_v : vec3;
  sphere_vr : vec3;
  sphere_aperture : R
}.

Record lensy_plane_struct : Type := {
  plane_v : vec3;
  plane_n : vec3;
  plane_aperture : R
}.

Record lensy_cylinder_struct : Type := {
  cylinder_v : vec3;
  cylinder_va : vec3;
  cylinder_a : vec3;
  cylinder_aperture : R
}.

Record lensy_hyperboloid_struct : Type := {
  hyperboloid_v : vec3;
  hyperboloid_a : vec3;
  hyperboloid_e : R;
  hyperboloid_aperture : R
}.

(** [pathkey] is the text [snprintf] formats from four numbers; the embedding
    keeps the four numbers. *)
Record lensy_ray_struct : Type := {
  ray_p : vec3;
  ray_d : vec3;
  ray_wavelength : R;
  ray_red : Z;
  ray_green : Z;
  ray_blue : Z;
  ray_pathkey : list R
}.

(** ** The frame of an intersection or redirection call

    [f_r] is the ray behind the pointer [r]; [f_q] and [f_n] are the arrays
    [q] and [n] of the caller. *)

Record frame : Type := Frame { f_r : lensy_ray_struct; f_q : vec3; f_n : vec3 }.

Definition get_r : M frame lensy_ray_struct := fun s => Ret (f_r s, s).
Definition get_q : M frame vec3 := fun s => Ret (f_q s, s).
Definition get_n : M frame vec3 := fun s => Ret (f_n s, s).
Definition set_q (v : vec3) : M frame unit :=
  fun s => Ret (tt, Frame (f_r s) v (f_n s)).
Definition set_n (v : vec3) : M frame unit :=
  fun s => Ret (tt, Frame (f_r s) (f_q s) v).
Definition set_r (r : lensy_ray_struct) : M frame unit :=
  fun s => Ret (tt, Frame r (f_q s) (f_n s)).

(** The ray [r] after an assignment to [r->p], and to [r->d]. *)
Definition with_p (r : lensy_ray_struct) (v : vec3) : lensy_ray_struct :=
  {| ray_p := v; ray_d := ray_d r; ray_wavelength := ray_wavelength r;
     ray_red := ray_red r; ray_green := ray_green r;
     ray_blue := ray_blue r; ray_pathkey := ray_pathkey r |}.

Definition with_d (r : lensy_ray_struct) (v : vec3) : lensy_ray_struct :=
  {| ray_p := ray_p r; ray_d := v; ray_wavelength := ray_wavelength r;
     ray_red := ray_red r; ray_green := ray_green r;
     ray_blue := ray_blue r; ray_pathkey := ray_pathkey r |}.

Definition set_ray_p (v : vec3) : M frame unit :=
  r <- get_r ;; set_r (with_p r v).

Definition set_ray_d (v : vec3) : M frame unit :=
  r <- get_r ;; set_r (with_d r v).

(** ** The intersection routines

    Each returns 0 (a hit: [q] and [n] hold the point and the normal), -1
    (outside the aperture) or -2 (no intersection). *)

Definition lensy_intersect_plane (p : lensy_plane_struct) : M frame Z :=
  r <- get_r ;;
  set_q (ray_p r) ;;
  let d0 := lensy_inner3 (ray_d r) (plane_n p) in
  if Req_dec_T d0 0 then ret (-2)%Z else
  d1 <- fdiv (lensy_inner3 (plane_v p) (plane_n p)
              - lensy_inner3 (ray_p r) (plane_n p)) d0 ;;
  if Rlt_dec d1 0 then ret (-2)%Z else
  set_q (ray_p r +v d1 *v ray_d r) ;;
  let d3 := lensy_mag3 (plane_n p) in
  if Req_dec_T d3 0 then ret (-2)%Z else
  n <- vdiv (plane_n p) d3 ;;
  set_n n ;;
  q <- get_q ;;
  let w := q -v plane_v p in
  let d2 := lensy_mag3 w in
  if Rlt_dec (plane_aperture p / 2) d2 then ret (-1)%Z else
  ret 0%Z.

Definition lensy_intersect_sphere (s : lensy_sphere_struct) : M frame Z :=
  r <- get_r ;;
  set_q (ray_p r) ;;
  let w1 := sphere_v s +v sphere_vr s in
  let w0 := ray_p r -v w1 in
  let d1 := lensy_inner3 (ray_d r) (ray_d r) in
  let d2 := 2 * lensy_inner3 (ray_d r) w0 in
  let d3 := lensy_inner3 w0 w0 - lensy_inner3 (sphere_vr s) (sphere_vr s) in
  (* the code after the root [d4] is chosen *)
  let finish (d4 : R) : M frame Z :=
    let q1 := ray_p r +v d4 *v ray_d r in
    let w4 := q1 -v w1 in
    if Rle_dec 0 (lensy_inner3 w4 (sphere_vr s)) then ret (-2)%Z else
    set_q q1 ;;
    q <- get_q ;;
    set_n (q -v w1) ;;
    n <- get_n ;;
    let d0 := lensy_mag3 n in
    (if Rlt_dec 0 d0 then n' <- vdiv n d0 ;; set_n n' else ret tt) ;;
    let w2 := q -v sphere_v s in
    let d7 := lensy_mag3 (sphere_vr s) in
    w3 <- vdiv (sphere_vr s) d7 ;;
    let d8 := lensy_inner3 w2 w3 in
    let w2 := w2 +v (- d8) *v w3 in
    let d9 := lensy_mag3 w2 in
    if Rlt_dec (sphere_aperture s / 2) d9 then ret (-1)%Z else
    ret 0%Z in
  if Req_dec_T d1 0 then
    d4 <- fdiv (- d3) d2 ;;
    finish d4
  else
    let d5 := d2 * d2 - 4 * d1 * d3 in
    if Rlt_dec d5 0 then ret (-2)%Z else
    sq <- fsqrt d5 ;;
    d4 <- fdiv (- d2 + sq) (2 * d1) ;;
    let q1 := ray_p r +v d4 *v ray_d r in
    let w4 := q1 -v w1 in
    if Rle_dec 0 (lensy_inner3 w4 (sphere_vr s)) then
      d4 <- fdiv (- d2 - sq) (2 * d1) ;;
      finish d4
    else finish d4.

Definition lensy_intersect_paraboloid (p : lensy_paraboloid_struct) : M frame Z :=
  r <- get_r ;;
  set_q (ray_p r) ;;
  let d0 := lensy_mag3 (paraboloid_f p) in
  w0 <- vdiv (paraboloid_f p) d0 ;;
  let w1 := ray_p r -v paraboloid_v p -v paraboloid_f p in
  let d1 := lensy_inner3 (ray_d r) (ray_d r) - (lensy_inner3 (ray_d r) w0) ^ 2 in
  let d4 := 2 * lensy_mag3 (paraboloid_f p) + lensy_inner3 w1 w0 in
  let d2 := 2 * lensy_inner3 (ray_d r) w1 - 2 * lensy_inner3 (ray_d r) w0 * d4 in
  let d3 := lensy_inner3 w1 w1 - d4 * d4 in
  (* the code after the root [d5] is chosen *)
  let finish (d5 : R) : M frame Z :=
    set_q (ray_p r +v d5 *v ray_d r) ;;
    q <- get_q ;;
    let w2 := q -v paraboloid_v p in
    let d6 := lensy_inner3 w2 w0 in
    let w2 := w2 +v (- d6) *v w0 in
    let d7 := lensy_mag3 w2 in
    (if Req_dec_T d7 0 then set_n w0
     else
       w2 <- vdiv w2 d7 ;;
       k <- fdiv (- d7) (2 * d0) ;;
       set_n (k *v w2 +v w0) ;;
       n <- get_n ;;
       let d8 := lensy_mag3 n in
       n' <- vdiv n d8 ;;
       set_n n') ;;
    if Rlt_dec (paraboloid_aperture p / 2) d7 then ret (-1)%Z else
    ret 0%Z in
  if Req_dec_T d1 0 then
    d5 <- fdiv (- d3) d2 ;;
    finish d5
  else
    let d10 := d2 * d2 - 4 * d1 * d3 in
    if Rlt_dec d10 0 then ret (-2)%Z else
    sq <- fsqrt d10 ;;
    d5 <- fdiv (- d2 + sq) (2 * d1) ;;
    d9 <- fdiv (- d2 - sq) (2 * d1) ;;
    (* if ((d5 < 0.0) || ((d9 > 0.0) && (d9 < d5))) d5 = d9; *)
    let d5 := if Rlt_dec d5 0 then d9
              else if Rlt_dec 0 d9 then (if Rlt_dec d9 d5 then d9 else d5)
              else d5 in
    if Rlt_dec d5 0 then ret (-2)%Z else
    finish d5.

Definition lensy_intersect_cylinder (c : lensy_cylinder_struct) : M frame Z :=
  r <- get_r ;;
  set_q (ray_p r) ;;
  let d0 := lensy_mag3 (cylinder_va c) in
  if Req_dec_T d0 0 then ret (-2)%Z else
  w0 <- vdiv (cylinder_va c) d0 ;;
  let d1 := lensy_inner3 (cylinder_a c) w0 in
  let a := cylinder_a c -v d1 *v w0 in
  let d2 := lensy_mag3 a in
  if Req_dec_T d2 0 then ret (-2)%Z else
  a <- vdiv a d2 ;;
  let w1 := cylinder_v c +v cylinder_va c in
  let w2 := ray_p r -v w1 in
  let d3 := lensy_inner3 w2 a in
  let d4 := lensy_inner3 (ray_d r) a in
  let w3 := ray_d r -v d4 *v a in
  let w4 := w2 -v d3 *v a in
  let da := lensy_inner3 w3 w3 in
  let db := 2 * lensy_inner3 w3 w4 in
  let dc := lensy_inner3 w4 w4 - lensy_inner3 (cylinder_va c) (cylinder_va c) in
  (* the code after the root [d5] is chosen *)
  let finish (d5 : R) : M frame Z :=
    let q1 := ray_p r +v d5 *v ray_d r in
    let w5 := q1 -v w1 in
    if Rle_dec 0 (lensy_inner3 w5 (cylinder_va c)) then ret (-2)%Z else
    set_q q1 ;;
    let d7 := lensy_inner3 w5 a in
    set_n (w5 -v d7 *v a) ;;
    n <- get_n ;;
    let d8 := lensy_mag3 n in
    if Req_dec_T d8 0 then ret (-2)%Z else
    n' <- vdiv n d8 ;;
    set_n n' ;;
    let d9 := lensy_inner3 w5 w0 in
    let w6 := w5 -v d9 *v w0 in
    let d10 := lensy_mag3 w6 in
    if Rlt_dec (cylinder_aperture c / 2) d10 then ret (-1)%Z else
    ret 0%Z in
  if Req_dec_T da 0 then
    d5 <- fdiv (- dc) db ;;
    finish d5
  else
    let d6 := db * db - 4 * da * dc in
    if Rlt_dec d6 0 then ret (-2)%Z else
    sq <- fsqrt d6 ;;
    d5 <- fdiv (- db + sq) (2 * da) ;;
    let q1 := ray_p r +v d5 *v ray_d r in
    let w5 := q1 -v w1 in
    if Rle_dec 0 (lensy_inner3 w5 (cylinder_va c)) then
      d5 <- fdiv (- db - sq) (2 * da) ;;
      finish d5
    else finish d5.

Definition lensy_intersect_hyperboloid (h : lensy_hyperboloid_struct) : M frame Z :=
  r <- get_r ;;
  set_q (ray_p r) ;;
  let w1 := hyperboloid_v h +v hyperboloid_a h in
  let f := w1 +v hyperboloid_e h *v vneg (hyperboloid_a h) in
  let d8 := lensy_mag3 (hyperboloid_a h) in
  w2 <- vdiv (vneg (hyperboloid_a h)) d8 ;;
  ae <- vdiv (hyperboloid_a h) (hyperboloid_e h) ;;
  let w3 := ray_p r -v w1 +v ae in
  let w4 := ray_p r -v f in
  let d0 := hyperboloid_e h * hyperboloid_e h in
  let d4 := lensy_inner3 w2 (ray_d r) in
  let d5 := lensy_inner3 w2 w3 in
  let d1 := lensy_inner3 (ray_d r) (ray_d r) - d0 * d4 * d4 in
  let d2 := 2 * (lensy_inner3 (ray_d r) w4 - d0 * d4 * d5) in
  let d3 := lensy_inner3 w4 w4 - d0 * d5 * d5 in
  (* the code after the root [d4] is chosen *)
  let finish (d4 : R) : M frame Z :=
    let q1 := ray_p r +v d4 *v ray_d r in
    let w4 := q1 -v w1 in
    if Rle_dec 0 (lensy_inner3 w4 (hyperboloid_a h)) then ret (-2)%Z else
    set_q q1 ;;
    q <- get_q ;;
    let w0 := q -v hyperboloid_v h in
    let d0 := lensy_inner3 w0 w2 in
    let w0 := w0 +v (- d0) *v w2 in
    let d9 := lensy_mag3 w0 in
    (if Req_dec_T d0 0 then set_n w2
     else
       w0 <- vdiv w0 d9 ;;
       d0 <- fsqrt ((d8 * d8) * (hyperboloid_e h * hyperboloid_e h - 1)) ;;
       k1 <- fdiv d8 d0 ;;
       sq <- fsqrt (d0 * d0 + d9 * d9) ;;
       k2 <- fdiv d9 sq ;;
       let d1 := k1 * k2 in
       set_n (w2 -v d1 *v w0)) ;;
    n <- get_n ;;
    let d7 := lensy_mag3 n in
    if Rlt_dec 0 d7 then
      n' <- vdiv n d7 ;;
      set_n n' ;;
      if Rlt_dec (hyperboloid_aperture h / 2) d9 then ret (-1)%Z else
      ret 0%Z
    else ret (-2)%Z in
  if Req_dec_T d1 0 then
    d4 <- fdiv (- d3) d2 ;;
    finish d4
  else
    let d5 := d2 * d2 - 4 * d1 * d3 in
    if Rlt_dec d5 0 then ret (-2)%Z else
    sq <- fsqrt d5 ;;
    d4 <- fdiv (- d2 + sq) (2 * d1) ;;
    let q1 := ray_p r +v d4 *v ray_d r in
    let w4 := q1 -v w1 in
    if Rle_dec 0 (lensy_inner3 w4 (hyperboloid_a h)) then
      d4 <- fdiv (- d2 - sq) (2 * d1) ;;
      finish d4
    else finish d4.

(** ** The redirection routines

    They read the caller's [q] and [n] and update the ray. *)

Definition lensy_redirect_reflect : M frame unit :=
  q <- get_q ;;
  n <- get_n ;;
  set_ray_p q ;;
  r <- get_r ;;
  let d0 := lensy_inner3 (ray_d r) n in
  set_ray_d (ray_d r +v (-2 * d0) *v n).

(** Returns 0, -1 (total internal reflection) or -2 (null direction). *)
Definition lensy_redirect_refract (m : R) : M frame Z :=
  q <- get_q ;;
  n <- get_n ;;
  set_ray_p q ;;
  r <- get_r ;;
  let d0 := lensy_mag3 (ray_d r) in
  if Req_dec_T d0 0 then ret (-2)%Z else
  u <- vdiv (vneg (ray_d r)) d0 ;;
  let n1 := n in
  let n1 := if Rlt_dec (lensy_inner3 u n1) 0 then vneg n1 else n1 in
  let w := lensy_cross3 u n1 in
  let d1 := lensy_mag3 w in
  let d2 := m * d1 in
  if Rle_dec 1 (Rabs d2) then ret (-1)%Z else
  d3 <- fasin d2 ;;
  if Rlt_dec 0 d1 then
    w1 <- vdiv w d1 ;;
    let v := lensy_cross3 w1 n1 in
    set_ray_d (d0 *v (cos d3 *v vneg n1 +v sin d3 *v v)) ;;
    ret 0%Z
  else
    set_ray_d (d0 *v vneg n1) ;;
    ret 0%Z.

(** Returns 0 or -2 (invalid). *)
Definition lensy_redirect_diffract (a : vec3) (wli wlt : R) (m : Z)
  : M frame Z :=
  q <- get_q ;;
  n <- get_n ;;
  set_ray_p q ;;
  r <- get_r ;;
  let d3 := lensy_mag3 n in
  if Req_dec_T d3 0 then ret (-2)%Z else
  n1 <- vdiv n d3 ;;
  let d0 := lensy_mag3 (ray_d r) in
  if Req_dec_T d0 0 then ret (-2)%Z else
  w0 <- vdiv (ray_d r) d0 ;;
  let d1 := lensy_mag3 a in            (* the ruling spacing *)
  let d2 := lensy_inner3 a n1 in
  let a1 := a -v d2 *v n1 in           (* ensure a1 is perpendicular to n *)
  let d2 := lensy_mag3 a1 in
  if Req_dec_T d2 0 then ret (-2)%Z else
  a1 <- vdiv a1 d2 ;;
  let t1 := lensy_cross3 a1 n1 in
  let d4 := lensy_inner3 w0 n1 in
  let d5 := lensy_inner3 w0 a1 in
  let d6 := lensy_inner3 w0 t1 in
  if Req_dec_T d4 0 then ret (-2)%Z else
  if Req_dec_T d6 1 then ret (-2)%Z else
  sq <- fsqrt (1 - d6 * d6) ;;
  d10 <- fdiv 1 sq ;;
  let wli1 := wli * d10 in
  let wlt1 := wlt * d10 in
  let d7 := atan2 d5 (- d4) in
  s1 <- fdiv (sin d7) wli1 ;;
  s2 <- fdiv (IZR m) d1 ;;
  let d8 := (s1 + s2) * wlt1 in
  if Rle_dec 1 (Rabs d8) then ret (-2)%Z else
  d9 <- fasin d8 ;;
  kn <- fdiv (cos d9) d10 ;;
  ka <- fdiv (sin d9) d10 ;;
  let w1 := d6 *v t1 +v kn *v n1 +v ka *v a1 in
  set_ray_d (d0 *v w1) ;;
  ret 0%Z.

Definition lensy_redirect_impact : M frame unit :=
  q <- get_q ;;
  set_ray_p q.

(** ** The index of refraction

    The coefficient tables and the two formulas of [lensy.c]; the wavelength
    is in metres. *)

(** [double a[6]]: the coefficients of the dispersion formula. *)
Record index_coefficients : Type := Coefficients {
  a_0 : R; a_1 : R; a_2 : R; a_3 : R; a_4 : R; a_5 : R
}.

Definition CaF2 : index_coefficients :=
  Coefficients 2.0388472e0 (-3.2320997e-3) 6.1568960e-3
               5.6612714e-5 (-4.0951444e-9) 2.2406560e-8.

Definition tsu2 : index_coefficients :=
  Coefficients 2.5310795e0 (-1.0750804e-2) 1.4091541e-2
               2.4479041e-4 (-4.3396907e-6) 4.2269287e-7.

Definition tsu4 : index_coefficients :=
  Coefficients 2.5310397e0 (-1.0751078e-2) 1.4089396e-2
               2.4455705e-4 (-4.3189009e-6) 4.2184152e-7.

Definition tsu5 : index_coefficients :=
  Coefficients 2.2182723e0 (-5.2937745e-3) 8.4751835e-3
               9.0035648e-5 (-2.1638749e-7) 8.8532657e-8.

Definition tsu6 : index_coefficients :=
  Coefficients 2.3863743e0 (-9.2750923e-3) 1.2963764e-2
               2.6012532e-4 (-7.1806739e-6) 6.4902518e-7.

Definition tsu7 : index_coefficients :=
  Coefficients 2.5309288e0 (-1.0751176e-2) 1.4087125e-2
               2.4433615e-4 (-4.2994607e-6) 4.2104219e-7.

Definition fsilica : index_coefficients :=
  Coefficients 2.1045254e0 9.5251763e-3 8.5795589e-3
               1.2770234e-4 (-2.2841020e-6) 1.2397250e-7.

(** The outcome of [lensy_index_of_refraction]: the process ended by
    [exit(-1)], or the run of the formula (on no state). *)
Inductive index_outcome : Type :=
| Index_exited : index_outcome
| Index_returned : result (R * unit) -> index_outcome.

Definition lensy_index_of_refraction (wl : R) (a : index_coefficients)
    : index_outcome :=
  if Rlt_dec wl 0.3e-6 then Index_exited
  else if Rlt_dec 2.0e-6 wl then Index_exited
  else
    let wl := wl * 1.0e6 in
    Index_returned
      ((t2 <- fdiv (a_2 a) (wl ^ 2) ;;
        t3 <- fdiv (a_3 a) (wl ^ 4) ;;
        t4 <- fdiv (a_4 a) (wl ^ 6) ;;
        t5 <- fdiv (a_5 a) (wl ^ 8) ;;
        fsqrt (a_0 a + a_1 a * wl ^ 2 + t2 + t3 + t4 + t5)) tt).

(** [struct lensy_sellmeier_struct] of [lensy.h]: the fields [b1] to [c3]. *)
Record lensy_sellmeier_struct : Type := {
  sellmeier_b1 : R; sellmeier_b2 : R; sellmeier_b3 : R;
  sellmeier_c1 : R; sellmeier_c2 : R; sellmeier_c3 : R
}.

Definition N_BAF10 : lensy_sellmeier_struct :=
  {| sellmeier_b1 := 1.58514950e+00; sellmeier_b2 := 1.43559385e-01;
     sellmeier_b3 := 1.08521269e+00; sellmeier_c1 := 9.26681282e-03;
     sellmeier_c2 := 4.24489805e-02; sellmeier_c3 := 1.05613573e+02 |}.

Definition N_SF6 : lensy_sellmeier_struct :=
  {| sellmeier_b1 := 1.77931763e+00; sellmeier_b2 := 3.38149866e-01;
     sellmeier_b3 := 2.08734474e+00; sellmeier_c1 := 1.33714182e-02;
     sellmeier_c2 := 6.17533621e-02; sellmeier_c3 := 1.74017590e+02 |}.

Definition N_BK7 : lensy_sellmeier_struct :=
  {| sellmeier_b1 := 1.03961212E+00; sellmeier_b2 := 2.31792344E-01;
     sellmeier_b3 := 1.01046945E+00; sellmeier_c1 := 6.00069867E-03;
     sellmeier_c2 := 2.00179144E-02; sellmeier_c3 := 1.03560653E+02 |}.

Definition SF2 : lensy_sellmeier_struct :=
  {| sellmeier_b1 := 1.40301821E+00; sellmeier_b2 := 2.31767504E-01;
     sellmeier_b3 := 9.39056586E-01; sellmeier_c1 := 1.05795466E-02;
     sellmeier_c2 := 4.93226978E-02; sellmeier_c3 := 1.12405955E+02 |}.

(** The Sellmeier formula.  The routine does not check the wavelength and
    touches no state. *)
Definition lensy_index_sellmeier {S : Type} (wl : R)
    (a : lensy_sellmeier_struct) : M S R :=
  let wl := wl * 1.0e6 in
  let d0 := wl * wl in
  t1 <- fdiv (sellmeier_b1 a * d0) (d0 - sellmeier_c1 a) ;;
  t2 <- fdiv (sellmeier_b2 a * d0) (d0 - sellmeier_c2 a) ;;
  t3 <- fdiv (sellmeier_b3 a * d0) (d0 - sellmeier_c3 a) ;;
  let d1 := t1 + t2 + t3 in
  fsqrt (d1 + 1.0).

(** ** The ray generators

    [PI] and [DEG2RAD] are the decimal constants of [lensy.h]. *)

Definition lensy_PI : R := 3.14159265.
Definition DEG2RAD : R := 0.01745329252.

(** The ray list behind [pl] (head first) and the allocator.  [malloc]
    answers NULL ([None]) or a fresh block whose contents are indeterminate
    ([Some junk]); what it answers to its [i]-th call is a parameter of the
    run. *)
Record heap : Type := Heap { h_pl : list lensy_ray_struct; h_calls : nat }.

Section Generators.

Variable malloc_ray : nat -> option lensy_ray_struct.

Definition malloc : M heap (option lensy_ray_struct) :=
  fun s => Ret (malloc_ray (h_calls s), Heap (h_pl s) (Datatypes.S (h_calls s))).

Definition list_add (r : lensy_ray_struct) : M heap unit :=
  fun s => Ret (tt, Heap (r :: h_pl s) (h_calls s)).

Definition lensy_cone (pr : lensy_ray_struct) (cone_dia cone_step : R)
  : M heap Z :=
  let rc := 0%Z in
  let d10 := lensy_mag3 (ray_d pr) in
  if Req_dec_T d10 0 then ret rc else
  (* the centre ray: its colour is not assigned *)
  pray <- malloc ;;
  rc <- match pray with
        | Some junk =>
            list_add {| ray_p := ray_p pr; ray_d := ray_d pr;
                        ray_wavelength := ray_wavelength pr;
                        ray_red := ray_red junk; ray_green := ray_green junk;
                        ray_blue := ray_blue junk;
                        ray_pathkey := [e0 (ray_p pr); e1 (ray_p pr);
                                        e2 (ray_p pr); ray_wavelength pr] |} ;;
            ret (rc + 1)%Z
        | None => ret rc
        end ;;
  let d0 := DEG2RAD * cone_step in
  x <- fdiv (DEG2RAD * cone_dia / 2) d0 ;;
  n <- to_int32 (ffloor x) ;;
  for_each (range 1 (Z.to_nat n)) (fun j rc =>
    let d1 := IZR j * d0 in
    y <- fdiv (sin d1 * 2 * lensy_PI) d0 ;;
    m <- to_int32 (ffloor y) ;;
    for_each (range 0 (Z.to_nat m)) (fun k rc =>
      s <- fdiv (2 * lensy_PI) (IZR m) ;;
      let d2 := IZR k * s in
      let d3 := lensy_PI / 2 - d1 in
      let w0 := V3 0 0 1 in
      let w1 := V3 (cos d3 * cos d2) (cos d3 * sin d2) (sin d3) in
      let w2 := w1 -v w0 in
      let d4 := atan2 (e1 (ray_d pr)) (e0 (ray_d pr)) in
      d5 <- fasin (e2 (ray_d pr)) ;;
      let u0 := V3 (cos (lensy_PI / 2 - d4))
                   (cos d4 * cos (lensy_PI / 2 - d5))
                   (cos d4 * sin (lensy_PI / 2 - d5)) in
      let u1 := V3 (sin (- (lensy_PI / 2 - d4)))
                   (cos (- (lensy_PI / 2 - d4)) * cos (lensy_PI / 2 - d5))
                   (cos (- (lensy_PI / 2 - d4)) * sin (lensy_PI / 2 - d5)) in
      let u2 := V3 0
                   (sin (- (lensy_PI / 2 - d5)))
                   (cos (- (lensy_PI / 2 - d5))) in
      let w3 := V3 (e0 (ray_d pr) + d10 * lensy_inner3 w2 u0)
                   (e1 (ray_d pr) + d10 * lensy_inner3 w2 u1)
                   (e2 (ray_d pr) + d10 * lensy_inner3 w2 u2) in
      pray <- malloc ;;
      match pray with
      | Some _ =>
          list_add {| ray_p := ray_p pr; ray_d := w3;
                      ray_wavelength := ray_wavelength pr;
                      ray_red := ray_red pr; ray_green := ray_green pr;
                      ray_blue := ray_blue pr;
                      ray_pathkey := [e0 (ray_p pr); e1 (ray_p pr);
                                      e2 (ray_p pr); ray_wavelength pr] |} ;;
          ret (rc + 1)%Z
      | None => ret rc
      end) rc) rc.

Definition lensy_beam (fuel : nat) (pr : lensy_ray_struct)
    (beam_dia beam_step : R) : M heap Z :=
  let rc := 0%Z in
  let d10 := lensy_mag3 (ray_d pr) in
  if Req_dec_T d10 0 then ret rc else
  w0 <- vdiv (ray_d pr) d10 ;;
  sq <- fsqrt (e0 w0 * e0 w0 + e1 w0 * e1 w0) ;;
  u00 <- fdiv (e1 w0) sq ;;
  u01 <- fsqrt (1 - u00 * u00) ;;
  let u0 := V3 u00 u01 0 in
  let u1 := lensy_cross3 w0 u0 in
  for_real fuel (- beam_dia / 2) (beam_dia / 2) beam_step (fun d0 rc =>
    for_real fuel (- beam_dia / 2) (beam_dia / 2) beam_step (fun d1 rc =>
      d2 <- fsqrt (d0 * d0 + d1 * d1) ;;
      if Rlt_dec (beam_dia / 2) d2 then ret rc else
      pray <- malloc ;;
      match pray with
      | Some _ =>
          list_add {| ray_p := ray_p pr +v d0 *v u0 +v d1 *v u1;
                      ray_d := ray_d pr;
                      ray_wavelength := ray_wavelength pr;
                      ray_red := ray_red pr; ray_green := ray_green pr;
                      ray_blue := ray_blue pr;
                      ray_pathkey := [e0 (ray_d pr); e1 (ray_d pr);
                                      e2 (ray_d pr); ray_wavelength pr] |} ;;
          ret (rc + 1)%Z
      | None => ret rc
      end) rc) rc.

End Generators.

(** ** The detector *)

(** [ccd_b] is the image buffer behind the pointer [b]: [None] while the
    pointer is not set. *)
Record lensy_ccd_struct : Type := {
  ccd_v : vec3;
  ccd_vx : vec3;
  ccd_vy : vec3;
  ccd_x_nmax : Z;
  ccd_y_nmax : Z;
  ccd_b : option (list Z);
  ccd_b_size : Z;
  ccd_p : lensy_plane_struct
}.

(** The outcome of [lensy_init_ccd]: the structure filled in, or the process
    ended by [exit(-1)]. *)
Inductive init_outcome : Type :=
| Exited : init_outcome
| Initialized : lensy_ccd_struct -> init_outcome.

(** [malloc_buf] is what [malloc] answers: NULL ([None]) or a block, given by
    the sample each of its 16-bit cells happens to hold.  [malloc] does not
    clear the block. *)
Definition lensy_init_ccd (malloc_buf : option (nat -> Z))
    (ccd : lensy_ccd_struct) : init_outcome :=
  let p_v := ccd_v ccd in
  let w0 := lensy_cross3 (ccd_vx ccd) (ccd_vy ccd) in
  let d0 := lensy_mag3 w0 in
  if Req_dec_T d0 0 then Exited else
  let p_n := V3 (e0 w0 / d0) (e1 w0 / d0) (e2 w0 / d0) in
  let b_size := (2 * ccd_x_nmax ccd * ccd_y_nmax ccd)%Z in
  match malloc_buf with
  | None => Exited
  | Some cells =>
      let b := map cells (seq 0 (Z.to_nat (b_size / 2))) in
      let aperture := 2 * (IZR (ccd_x_nmax ccd) * lensy_mag3 (ccd_vx ccd)
                           + IZR (ccd_y_nmax ccd) * lensy_mag3 (ccd_vy ccd)) in
      Initialized {| ccd_v := ccd_v ccd; ccd_vx := ccd_vx ccd;
                     ccd_vy := ccd_vy ccd;
                     ccd_x_nmax := ccd_x_nmax ccd; ccd_y_nmax := ccd_y_nmax ccd;
                     ccd_b := Some b; ccd_b_size := b_size;
                     ccd_p := {| plane_v := p_v; plane_n := p_n;
                                 plane_aperture := aperture |} |}
  end.

(** The claims speak of "any of the five intersection routines": a call of
    one of them, with its surface. *)
Inductive intersection_call : Type :=
| On_plane (p : lensy_plane_struct)
| On_sphere (s : lensy_sphere_struct)
| On_paraboloid (p : lensy_paraboloid_struct)
| On_cylinder (c : lensy_cylinder_struct)
| On_hyperboloid (h : lensy_hyperboloid_struct).

Definition lensy_intersect (c : intersection_call) : M frame Z :=
  match c with
  | On_plane p => lensy_intersect_plane p
  | On_sphere s => lensy_intersect_sphere s
  | On_paraboloid p => lensy_intersect_paraboloid p
  | On_cylinder c => lensy_intersect_cylinder c
  | On_hyperboloid h => lensy_intersect_hyperboloid h
  end.

(** ** The drivers: a ray enters a lens *)

(** [telescope.c]: the index of refraction of air. *)
Definition in_air : R := 1.000293.

(** [telescope.c], at the first surface of a lens:
    [d0 = in_air / lensy_index_sellmeier(pray->wavelength, &N_BK7);
     i = lensy_redirect_refract(pray, w0, w1, d0);]
    where [w0] and [w1] are the arrays [q] and [n] that the intersection
    routine has filled in. *)
Definition refract_into_lens : M frame Z :=
  pray <- get_r ;;
  ni <- lensy_index_sellmeier (ray_wavelength pray) N_BK7 ;;
  d0 <- fdiv in_air ni ;;
  lensy_redirect_refract d0.

(** * The vocabulary of the claims *)

(** A ray given by its position and direction. *)
Definition ray_of (p d : vec3) : lensy_ray_struct :=
  {| ray_p := p; ray_d := d; ray_wavelength := 0;
     ray_red := 0; ray_green := 0; ray_blue := 0; ray_pathkey := [] |}.

(** ** Intersections *)





(** Scenario 1 of the specification: a ray along x onto the plane x = 1. *)
Definition scenario_plane : lensy_plane_struct :=
  {| plane_v := V3 1 0 0; plane_n := V3 1 0 0; plane_aperture := 1 |}.

Definition scenario_plane_frame : frame :=
  Frame (ray_of (V3 0 0 0) (V3 1 0 0)) vzero vzero.




(** ** Refraction: the sine of the angle of incidence, in the claim's words:
    [u = - d / |d|], [n] turned so that [<u, n> >= 0], [sigma = |u x n|]. *)
Definition incidence_sine (d n : vec3) : R :=
  let u := (- 1 / lensy_mag3 d) *v d in
  let n' := if Rlt_dec (lensy_inner3 u n) 0 then vneg n else n in
  lensy_mag3 (lensy_cross3 u n').

(** A ray with no direction; a ray meeting a mirror; a ray that grazes the
    surface (it runs along y, the normal is x). *)
Definition null_ray_frame : frame :=
  Frame (ray_of (V3 0 0 0) vzero) (V3 1 0 0) (V3 1 0 0).
Definition mirror_frame : frame :=
  Frame (ray_of (V3 0 0 0) (V3 1 1 0)) (V3 1 1 0) (V3 1 0 0).
Definition grazing_frame : frame :=
  Frame (ray_of (V3 0 0 0) (V3 0 1 0)) (V3 0 1 0) (V3 1 0 0).

(** ** Diffraction: the quantities of the grating equation, in the
    specification's words. *)
Section Grating.

Variables (d n a : vec3) (wli wlt : R) (m : Z).

Definition grating_n : vec3 := (1 / lensy_mag3 n) *v n.
Definition grating_w0 : vec3 := (1 / lensy_mag3 d) *v d.
(** [a] projected into the surface plane, and its direction. *)
Definition grating_a_perp : vec3 :=
  a -v lensy_inner3 a grating_n *v grating_n.
Definition grating_a_hat : vec3 :=
  (1 / lensy_mag3 grating_a_perp) *v grating_a_perp.
Definition grating_t_hat : vec3 := lensy_cross3 grating_a_hat grating_n.
Definition grating_alpha : R := lensy_inner3 grating_w0 grating_n.
Definition grating_beta : R := lensy_inner3 grating_w0 grating_a_hat.
Definition grating_gamma : R := lensy_inner3 grating_w0 grating_t_hat.
Definition grating_k : R := 1 / sqrt (1 - grating_gamma * grating_gamma).
Definition grating_phi_i : R := atan2 grating_beta (- grating_alpha).

(** The in-plane sine of the grating equation for a ruling spacing [L]. *)
Definition grating_sine (L : R) : R :=
  (sin grating_phi_i / (wli * grating_k) + IZR m / L) * (wlt * grating_k).

(** The in-plane sine of an outgoing direction [d']: the new unit direction
    is [gamma t + (cos phi / k) n + (sin phi / k) a_hat]. *)
Definition outgoing_sine (d' : vec3) : R :=
  grating_k * lensy_inner3 ((1 / lensy_mag3 d) *v d') grating_a_hat.

End Grating.

(** The claim on the ruling spacing: the in-plane sine of the outgoing ray
    is the grating equation's with the spacing [|a_perp|]. *)
Definition grating_claim (a : vec3) (wli wlt : R) (m : Z) (st : frame) : Prop :=
  forall st', lensy_redirect_diffract a wli wlt m st = Ret (0%Z, st') ->
  outgoing_sine (ray_d (f_r st)) (f_n st) a (ray_d (f_r st'))
  = grating_sine (ray_d (f_r st)) (f_n st) a wli wlt m
      (lensy_mag3 (grating_a_perp (f_n st) a)).

(** A grating vector that is not in the surface plane, of length 5 with a
    projection of length 3, met at normal incidence. *)
Definition tilted_grating : vec3 := V3 3 0 4.
Definition normal_incidence_frame : frame :=
  Frame (ray_of (V3 0 0 1) (V3 0 0 (-1))) (V3 0 0 0) (V3 0 0 1).

(** ** The detector *)



(** A detector of one pixel, and a block that was used before. *)
Definition one_pixel_ccd : lensy_ccd_struct :=
  {| ccd_v := V3 0 0 0; ccd_vx := V3 1 0 0; ccd_vy := V3 0 1 0;
     ccd_x_nmax := 1; ccd_y_nmax := 1; ccd_b := None; ccd_b_size := 0;
     ccd_p := {| plane_v := vzero; plane_n := vzero; plane_aperture := 0 |} |}.

Definition stale_block : option (nat -> Z) := Some (fun _ => 65535%Z).

(** ** The cone *)

(** The rays of shell [j], as Section 4.4 counts them, with the angular step
    in radians. *)
Definition shell_rays (cone_step : R) (j : Z) : Z :=
  Zfloor (sin (IZR j * (DEG2RAD * cone_step)) * 2 * lensy_PI
          / (DEG2RAD * cone_step)).

(** The count of scenario 5 as the specification writes it:
    [1 + sum (j = 1..5) floor (sin (j 2 deg) 180 deg / 2 deg)]. *)
Definition degrees (x : R) : R := x * PI / 180.

Definition scenario_cone_count : Z :=
  (1 + fold_right Z.add 0
         (map (fun j => Zfloor (sin (degrees (IZR j * 2)) * (180 / 2)))
              (range 1 5)))%Z.

(** The claim on the count of scenario 5. *)
Definition cone_count_claim (malloc_ray : nat -> option lensy_ray_struct)
    (pr : lensy_ray_struct) (h : heap) : Prop :=
  forall rc h', lensy_cone malloc_ray pr 10 2 h = Ret (rc, h') ->
  rc = scenario_cone_count.

(** An allocator that never fails, an empty ray list, a ray along x. *)
Definition always_allocates : nat -> option lensy_ray_struct :=
  fun _ => Some (ray_of vzero vzero).
Definition empty_heap : heap := Heap [] 0.
Definition ray_along_x : lensy_ray_struct := ray_of (V3 0 0 0) (V3 1 0 0).

(** One round of a loop adds one ray and counts it. *)
Definition adds_one (rc : Z) (h : heap) (rc' : Z) (h' : heap) : Prop :=
  rc' = (rc + 1)%Z /\ length (h_pl h') = Datatypes.S (length (h_pl h)).

(** ** The beam *)

(** The values a [double] loop variable takes in [n] rounds. *)
Fixpoint axis_from (n : nat) (x step : R) : list R :=
  match n with
  | O => []
  | Datatypes.S n' => x :: axis_from n' (x + step) step
  end.

(** The basis the beam routine builds from the direction [d]. *)
Definition beam_u0 (d : vec3) : vec3 :=
  let w0 := (1 / lensy_mag3 d) *v d in
  let u00 := e1 w0 / sqrt (e0 w0 * e0 w0 + e1 w0 * e1 w0) in
  V3 u00 (sqrt (1 - u00 * u00)) 0.

Definition beam_u1 (d : vec3) : vec3 :=
  lensy_cross3 ((1 / lensy_mag3 d) *v d) (beam_u0 d).

(** The ray the beam routine adds for the offsets [(x, y)]. *)
Definition beam_ray (pr : lensy_ray_struct) (xy : R * R) : lensy_ray_struct :=
  {| ray_p := ray_p pr +v fst xy *v beam_u0 (ray_d pr)
                       +v snd xy *v beam_u1 (ray_d pr);
     ray_d := ray_d pr;
     ray_wavelength := ray_wavelength pr;
     ray_red := ray_red pr; ray_green := ray_green pr;
     ray_blue := ray_blue pr;
     ray_pathkey := [e0 (ray_d pr); e1 (ray_d pr); e2 (ray_d pr);
                     ray_wavelength pr] |}.

(** The offsets of one axis: [- D / 2 + i s] for [i = 0, 1, ...] while it is
    below [D / 2]; there are [ceil (D / s)] of them. *)
Definition beam_steps (D s : R) : nat := Z.to_nat (- Zfloor (- (D / s))).

Definition beam_axis (D s : R) : list R :=
  map (fun i => - D / 2 + INR i * s) (seq 0 (beam_steps D s)).

Definition in_beam (D : R) (xy : R * R) : bool :=
  if Rlt_dec (D / 2) (sqrt (fst xy * fst xy + snd xy * snd xy))
  then false else true.

(** The offsets of the rays of a beam, in the order the routine meets them. *)
Definition beam_grid (D s : R) : list (R * R) :=
  filter (in_beam D) (list_prod (beam_axis D s) (beam_axis D s)).


(** * The vocabulary of the further properties *)

(** ** Refraction and diffraction: rays that meet a surface obliquely *)

(** A ray of magnitude 5 that meets the plane x = 0 at 3 : 4, and a ray along
    the normal. *)
Definition oblique_frame : frame :=
  Frame (ray_of (V3 0 0 0) (V3 (-4) 3 0)) (V3 0 0 0) (V3 1 0 0).

Definition head_on_frame : frame :=
  Frame (ray_of (V3 0 0 0) (V3 (-2) 0 0)) (V3 0 0 0) (V3 1 0 0).

(** A grating ruled across x with spacing 2, normal z, and a ray that falls
    on it at 3 : 4. *)
Definition grating_along_x : vec3 := V3 2 0 0.
Definition oblique_grating_frame : frame :=
  Frame (ray_of (V3 0 0 1) (V3 3 0 (-4))) (V3 0 0 0) (V3 0 0 1).

(** ** Intersections *)




(** A ray that falls on the one-pixel detector from above. *)
Definition falling_ray_frame : frame :=
  Frame (ray_of (V3 0 0 1) (V3 0 0 (-1))) vzero vzero.

(** ** The ray generators *)

(** The centre ray of a cone: the colour is what the allocated block held. *)
Definition cone_centre_ray (pr junk : lensy_ray_struct) : lensy_ray_struct :=
  {| ray_p := ray_p pr; ray_d := ray_d pr;
     ray_wavelength := ray_wavelength pr;
     ray_red := ray_red junk; ray_green := ray_green junk;
     ray_blue := ray_blue junk;
     ray_pathkey := [e0 (ray_p pr); e1 (ray_p pr); e2 (ray_p pr);
                     ray_wavelength pr] |}.

(** A ray that starts where [pr] starts, with its wavelength and colour. *)
Definition same_source (pr r : lensy_ray_struct) : Prop :=
  ray_p r = ray_p pr /\ ray_wavelength r = ray_wavelength pr
  /\ ray_red r = ray_red pr /\ ray_green r = ray_green pr
  /\ ray_blue r = ray_blue pr.

(** A parallel copy of [pr]: its direction, wavelength and colour. *)
Definition parallel_copy (pr r : lensy_ray_struct) : Prop :=
  ray_d r = ray_d pr /\ ray_wavelength r = ray_wavelength pr
  /\ ray_red r = ray_red pr /\ ray_green r = ray_green pr
  /\ ray_blue r = ray_blue pr.

(** From the list and count [(h0, rc0)] a run has reached [(h, rc)] by
    adding rays that satisfy [P] at the head of the list, counting each, with
    one call of the allocator or more for each. *)
Definition emitted (P : lensy_ray_struct -> Prop) (h0 : heap) (rc0 : Z)
    (rc : Z) (h : heap) : Prop :=
  exists new,
    h_pl h = new ++ h_pl h0
    /\ rc = (rc0 + Z.of_nat (length new))%Z
    /\ Forall P new
    /\ (h_calls h0 + length new <= h_calls h)%nat.

(** ** The drivers *)

(** A ray of the telescope driver (600 nm) in front of the plane x = 1. *)
Definition orange_ray_frame : frame :=
  Frame {| ray_p := V3 0 0 0; ray_d := V3 1 0 0; ray_wavelength := 600e-9;
           ray_red := 255; ray_green := 128; ray_blue := 0;
           ray_pathkey := [] |} vzero vzero.

(** * Reasoning about runs

    [runs bad c s Q]: the run of [c] from the state [s] ends in a value and a
    state that satisfy [Q]; [bad] is what is claimed of a run that has no
    value ([True]: nothing is said of it; [False]: there is no such run). *)

Definition runs {S A : Type} (bad : Prop) (c : M S A) (s : S)
    (Q : A -> S -> Prop) : Prop :=
  match c s with
  | Ret (a, s') => Q a s'
  | _ => bad
  end.

Section Runs.

Context {S : Type} (bad : Prop).

Lemma runs_ret {A} (a : A) (s : S) Q : Q a s -> runs bad (ret a) s Q.
Proof. exact (fun H => H). Qed.

Lemma runs_bind {A B} (c : M S A) (k : A -> M S B) s Q :
  runs bad c s (fun a s' => runs bad (k a) s' Q) -> runs bad (bind c k) s Q.
Proof.
  unfold runs, bind. destruct (c s) as [| |[a s']]; auto.
Qed.

Lemma runs_fdiv (x y : R) (s : S) Q :
  (y = 0 -> bad) -> (y <> 0 -> Q (x / y) s) -> runs bad (fdiv x y) s Q.
Proof.
  unfold runs, fdiv, undef, ret. destruct (Req_dec_T y 0); auto.
Qed.

Lemma runs_fsqrt (x : R) (s : S) Q :
  (x < 0 -> bad) -> (0 <= x -> Q (sqrt x) s) -> runs bad (fsqrt x) s Q.
Proof.
  unfold runs, fsqrt, undef, ret. destruct (Rlt_dec x 0); auto.
  intros _ H. apply H. lra.
Qed.

Lemma runs_fasin (x : R) (s : S) Q :
  (1 < Rabs x -> bad) -> (Rabs x <= 1 -> Q (asin x) s) ->
  runs bad (fasin x) s Q.
Proof.
  unfold runs, fasin, undef, ret. destruct (Rlt_dec 1 (Rabs x)); auto.
  intros _ H. apply H. lra.
Qed.

Lemma runs_vdiv (a : vec3) (k : R) (s : S) Q :
  (k = 0 -> bad) ->
  (k <> 0 -> Q (V3 (e0 a / k) (e1 a / k) (e2 a / k)) s) ->
  runs bad (vdiv a k) s Q.
Proof.
  unfold runs, vdiv, bind, fdiv, undef, ret.
  destruct (Req_dec_T k 0); auto.
Qed.

Lemma runs_to_int32 (z : Z) (s : S) Q :
  (- 2147483648 <= z <= 2147483647)%Z -> Q z s ->
  runs bad (to_int32 (IZR z)) s Q.
Proof.
  intros Hz HQ. unfold runs, to_int32.
  assert (E : (if Rlt_dec (IZR z) 0 then (- Zfloor (- IZR z))%Z
               else Zfloor (IZR z)) = z).
  { destruct (Rlt_dec (IZR z) 0).
    - rewrite ZfloorNZ. lia.
    - apply ZfloorZ. }
  rewrite E.
  destruct (Z_le_dec (-2147483648) z); [|lia].
  destruct (Z_le_dec z 2147483647); [|lia].
  exact HQ.
Qed.

Lemma runs_weaken {A} (c : M S A) s (Q Q' : A -> S -> Prop) :
  (forall a s', Q a s' -> Q' a s') -> runs bad c s Q -> runs bad c s Q'.
Proof.
  unfold runs. intros H. destruct (c s) as [| |[a s']]; auto.
Qed.

End Runs.

Lemma runs_elim {S A} bad (c : M S A) s Q a s' :
  runs bad c s Q -> c s = Ret (a, s') -> Q a s'.
Proof. unfold runs. intros H E. rewrite E in H. exact H. Qed.

Lemma runs_total {S A} (c : M S A) s a s' :
  runs False c s (fun x y => x = a /\ y = s') -> c s = Ret (a, s').
Proof.
  unfold runs. destruct (c s) as [| |[x y]]; try tauto.
  intros [-> ->]. reflexivity.
Qed.

(** The frame's primitives. *)
Section FrameRuns.

Context (bad : Prop).

Lemma runs_get_r s Q : Q (f_r s) s -> runs bad get_r s Q.
Proof. exact (fun H => H). Qed.
Lemma runs_get_q s Q : Q (f_q s) s -> runs bad get_q s Q.
Proof. exact (fun H => H). Qed.
Lemma runs_get_n s Q : Q (f_n s) s -> runs bad get_n s Q.
Proof. exact (fun H => H). Qed.
Lemma runs_set_q v s Q :
  Q tt (Frame (f_r s) v (f_n s)) -> runs bad (set_q v) s Q.
Proof. exact (fun H => H). Qed.
Lemma runs_set_n v s Q :
  Q tt (Frame (f_r s) (f_q s) v) -> runs bad (set_n v) s Q.
Proof. exact (fun H => H). Qed.
Lemma runs_set_ray_p v s Q :
  Q tt (Frame (with_p (f_r s) v) (f_q s) (f_n s)) -> runs bad (set_ray_p v) s Q.
Proof. exact (fun H => H). Qed.
Lemma runs_set_ray_d v s Q :
  Q tt (Frame (with_d (f_r s) v) (f_q s) (f_n s)) -> runs bad (set_ray_d v) s Q.
Proof. exact (fun H => H). Qed.

End FrameRuns.

(** One step of a run: the head statement of the program is consumed.  A
    [let] becomes a local definition, a test becomes two goals. *)
Ltac run_let :=
  lazymatch goal with
  | |- runs ?b (let x := ?e in @?body x) ?s ?Q =>
      let y := fresh x in
      pose (y := e); change (runs b (body y) s Q); cbv beta
  end.

Ltac run_step :=
  lazymatch goal with
  | |- runs _ ?c _ _ =>
      lazymatch c with
      | bind _ _ => apply runs_bind
      | ret _ => apply runs_ret
      | get_r => apply runs_get_r
      | get_q => apply runs_get_q
      | get_n => apply runs_get_n
      | set_q _ => apply runs_set_q
      | set_n _ => apply runs_set_n
      | set_ray_p _ => apply runs_set_ray_p
      | set_ray_d _ => apply runs_set_ray_d
      | fdiv _ _ => apply runs_fdiv; [try tauto | intro]
      | vdiv _ _ => apply runs_vdiv; [try tauto | intro]
      | fsqrt _ => apply runs_fsqrt; [try tauto | intro]
      | fasin _ => apply runs_fasin; [try tauto | intro]
      | if ?b then _ else _ => destruct b
      | let x := _ in _ => run_let
      | ?f _ => is_var f; unfold f
      end
  end; cbv beta; cbn beta iota delta [f_r f_q f_n].

Ltac run_all := repeat run_step.

(** Unfolding a routine keeps its [let]s: they become local definitions as
    the run reaches them. *)
Ltac unfold_routines :=
  cbv beta iota delta
    [lensy_intersect lensy_intersect_plane lensy_intersect_sphere
     lensy_intersect_paraboloid lensy_intersect_cylinder
     lensy_intersect_hyperboloid].

(** ** Runs on concrete inputs

    The tests are decided by [lra]; a square root is first replaced by its
    value. *)

Lemma sqrt_is x y : 0 <= y -> y * y = x -> sqrt x = y.
Proof. intros Hy <-. now apply sqrt_square. Qed.

Ltac vec_cbn :=
  cbv beta iota zeta delta
    [lensy_inner3 lensy_mag3 lensy_cross3 vadd vsub vscale vneg vzero
     e0 e1 e2 ray_p ray_d ray_of f_r f_q f_n with_p with_d
     plane_v plane_n plane_aperture sphere_v sphere_vr sphere_aperture] in *.

Ltac sqrt_val v :=
  match goal with
  | |- context [sqrt ?x] => rewrite (sqrt_is x v) by lra
  end.

Ltac decide_test :=
  lazymatch goal with
  | |- runs _ (if ?c then _ else _) _ _ =>
      let P := lazymatch type of c with {?P} + {_} => P end in
      first
        [ let H := fresh in
          assert (H : P) by (clear; lra);
          destruct c as [_|?]; [clear H | contradiction]
        | let H := fresh in
          assert (H : ~ P) by (clear; lra);
          destruct c as [?|_]; [contradiction | clear H] ]
  end.

Ltac run_straight :=
  lazymatch goal with
  | |- runs _ ?c _ _ =>
      lazymatch c with
      | if _ then _ else _ => fail
      | _ => run_step
      end
  end.

Ltac clear_all := repeat match goal with H : _ |- _ => clear H end.

Ltac run_conc :=
  repeat first
    [ decide_test
    | run_straight; vec_cbn; clear_all; try (intros; lra) ].

Ltac run_conc_sqrt :=
  run_conc;
  repeat (progress (repeat first [ sqrt_val 0 | sqrt_val 1 | sqrt_val 2
                                 | sqrt_val 3 | sqrt_val 5 ]);
          try (intros; lra); run_conc).

(** * Vectors *)

Lemma inner3_self_nonneg a : 0 <= lensy_inner3 a a.
Proof. unfold lensy_inner3. nra. Qed.

Lemma mag3_sqr a : lensy_mag3 a * lensy_mag3 a = lensy_inner3 a a.
Proof. apply sqrt_sqrt, inner3_self_nonneg. Qed.

Lemma mag3_nonneg a : 0 <= lensy_mag3 a.
Proof. apply sqrt_pos. Qed.

Lemma mag3_vzero : lensy_mag3 vzero = 0.
Proof.
  unfold lensy_mag3, lensy_inner3, vzero. cbn [e0 e1 e2].
  replace (0 * 0 + 0 * 0 + 0 * 0) with 0 by ring. apply sqrt_0.
Qed.

Lemma mag3_pos_inner a : lensy_mag3 a <> 0 -> 0 < lensy_inner3 a a.
Proof.
  intros H. destruct (inner3_self_nonneg a) as [Hlt | Heq]; [exact Hlt|].
  exfalso. apply H. unfold lensy_mag3. rewrite <- Heq. apply sqrt_0.
Qed.

Lemma inner3_self_zero a : lensy_inner3 a a = 0 -> a = vzero.
Proof.
  destruct a as [x y z]. unfold lensy_inner3, vzero. cbn [e0 e1 e2].
  intros H. f_equal; nra.
Qed.

(** A vector divided by its magnitude is a unit vector. *)
Lemma mag3_normalized a k :
  k = lensy_mag3 a -> k <> 0 ->
  lensy_mag3 (V3 (e0 a / k) (e1 a / k) (e2 a / k)) = 1.
Proof.
  intros Hk Hz. unfold lensy_mag3 at 1.
  assert (E : k * k = lensy_inner3 a a) by (subst k; apply mag3_sqr).
  replace (lensy_inner3 _ _) with 1; [apply sqrt_1|].
  unfold lensy_inner3 in *. cbn [e0 e1 e2].
  field_simplify_eq; [|exact Hz]. lra.
Qed.


(** * The roots of the quadratic *)

Lemma quadratic_root a b c D sq t :
  a <> 0 -> D = b * b - 4 * a * c -> 0 <= D -> sq = sqrt D ->
  t = (- b + sq) / (2 * a) \/ t = (- b - sq) / (2 * a) ->
  a * t * t + b * t + c = 0.
Proof.
  intros Ha HD Hpos Hsq Ht.
  assert (E : sq * sq = D) by (subst sq; now apply sqrt_sqrt).
  destruct Ht as [-> | ->]; field_simplify_eq; try exact Ha; nra.
Qed.

Lemma linear_root a b c t :
  a = 0 -> b <> 0 -> t = - c / b -> a * t * t + b * t + c = 0.
Proof. intros -> Hb ->. field. exact Hb. Qed.

(** A root of the sphere's quadratic is a point at distance [|vr|] from the
    centre. *)
Lemma root_on_sphere p d c vr t :
  lensy_inner3 d d * t * t + 2 * lensy_inner3 d (p -v c) * t
    + (lensy_inner3 (p -v c) (p -v c) - lensy_inner3 vr vr) = 0 ->
  lensy_inner3 (p +v t *v d -v c) (p +v t *v d -v c) = lensy_inner3 vr vr.
Proof.
  intros H. rewrite <- (Rplus_0_r (lensy_inner3 vr vr)), <- H.
  unfold lensy_inner3, vadd, vsub, vscale. cbn [e0 e1 e2]. ring.
Qed.

(** * The intersection routines *)

(** ** The ray is not written *)

Lemma intersect_keeps_ray c st :
  runs True (lensy_intersect c) st (fun _ st' => f_r st' = f_r st).
Proof.
  destruct c; unfold_routines; run_all; reflexivity.
Qed.

(** ** The normal of a hit *)

Lemma plane_normal_unit p st :
  runs True (lensy_intersect_plane p) st
       (fun rc st' => rc = 0%Z -> lensy_mag3 (f_n st') = 1).
Proof.
  unfold_routines. run_all; try discriminate.
  intros _. now apply mag3_normalized.
Qed.

(** The sphere divides the normal by its length only when the length is
    positive; on a hit it is, being the radius. *)
Lemma sphere_normal_unit s st :
  runs True (lensy_intersect_sphere s) st
       (fun rc st' => rc = 0%Z -> lensy_mag3 (f_n st') = 1).
Proof.
  unfold_routines. run_all; try discriminate.
  all: intros _.
  all: try (apply mag3_normalized; [reflexivity | assumption]).
  all: exfalso.
  all: match goal with
       | Hn : ~ 0 < lensy_mag3 _, Hvr : lensy_mag3 (sphere_vr ?s0) <> 0 |- _ =>
           apply Hn; unfold lensy_mag3; apply sqrt_lt_R0;
           rewrite (root_on_sphere _ _ _ (sphere_vr s0));
           [ exact (mag3_pos_inner _ Hvr) | ]
       end.
  - eapply linear_root; [eassumption | eassumption | reflexivity].
  - eapply quadratic_root;
      [eassumption | reflexivity | | reflexivity | right; reflexivity].
    assumption.
  - eapply quadratic_root;
      [eassumption | reflexivity | | reflexivity | left; reflexivity].
    assumption.
Qed.

Lemma paraboloid_normal_unit p st :
  runs True (lensy_intersect_paraboloid p) st
       (fun rc st' => rc = 0%Z -> lensy_mag3 (f_n st') = 1).
Proof.
  unfold_routines. run_all; try discriminate.
  all: intros _.
  all: apply mag3_normalized; [reflexivity | assumption].
Qed.

Lemma cylinder_normal_unit c st :
  runs True (lensy_intersect_cylinder c) st
       (fun rc st' => rc = 0%Z -> lensy_mag3 (f_n st') = 1).
Proof.
  unfold_routines. run_all; try discriminate.
  all: intros _.
  all: apply mag3_normalized; [reflexivity | assumption].
Qed.

Lemma hyperboloid_normal_unit h st :
  runs True (lensy_intersect_hyperboloid h) st
       (fun rc st' => rc = 0%Z -> lensy_mag3 (f_n st') = 1).
Proof.
  unfold_routines. run_all; try discriminate.
  all: intros _.
  all: apply mag3_normalized; [reflexivity | assumption].
Qed.

(** ** The point of a hit *)


(** ** Three concrete runs *)

Lemma plane_impact :
  lensy_intersect (On_plane scenario_plane) scenario_plane_frame
  = Ret (0%Z, Frame (ray_of (V3 0 0 0) (V3 1 0 0)) (V3 1 0 0) (V3 1 0 0)).
Proof.
  apply runs_total.
  unfold lensy_intersect, lensy_intersect_plane, scenario_plane,
    scenario_plane_frame.
  vec_cbn. run_conc_sqrt.
  split; [reflexivity|]. repeat f_equal; field.
Qed.



(** ** The claims on the intersection routines *)






(** C9: an intersection routine leaves the ray as it was, on a hit and on
    every other answer. *)
Theorem intersect_leaves_ray c st rc st' :
  lensy_intersect c st = Ret (rc, st') ->
  ray_p (f_r st') = ray_p (f_r st) /\ ray_d (f_r st') = ray_d (f_r st).
Proof.
  intros Hrun.
  pose proof (runs_elim True _ _ _ _ _ (intersect_keeps_ray c st) Hrun) as E.
  cbv beta in E. rewrite E. split; reflexivity.
Qed.

Lemma intersect_leaves_ray_witness :
  ray_p (ray_of (V3 0 0 0) (V3 1 0 0)) = ray_p (f_r scenario_plane_frame)
  /\ ray_d (ray_of (V3 0 0 0) (V3 1 0 0)) = ray_d (f_r scenario_plane_frame).
Proof.
  exact (intersect_leaves_ray (On_plane scenario_plane) scenario_plane_frame
           _ _ plane_impact).
Defined.

(** * The redirection routines *)

(** ** Reflection *)

Lemma reflection_keeps_inner d n :
  lensy_inner3 n n = 1 ->
  let d' := d -v (2 * lensy_inner3 d n) *v n in
  lensy_inner3 d' d' = lensy_inner3 d d.
Proof.
  intros Hn d'. subst d'. unfold lensy_inner3, vsub, vscale in *.
  cbn [e0 e1 e2] in *.
  set (k := e0 d * e0 n + e1 d * e1 n + e2 d * e2 n).
  transitivity (e0 d * e0 d + e1 d * e1 d + e2 d * e2 d - 4 * k * k
                + 4 * k * k * (e0 n * e0 n + e1 n * e1 n + e2 n * e2 n)).
  - unfold k. ring.
  - rewrite Hn. ring.
Qed.

(** C5: reflection puts the ray at [q], turns the direction into
    [d - 2 <d, n> n], and keeps its magnitude, for a unit normal. *)
Theorem reflect_preserves_magnitude (st : frame) :
  lensy_mag3 (f_n st) = 1 ->
  let d := ray_d (f_r st) in
  let d' := d -v (2 * lensy_inner3 d (f_n st)) *v f_n st in
  lensy_redirect_reflect st
  = Ret (tt, Frame (with_d (with_p (f_r st) (f_q st)) d') (f_q st) (f_n st))
  /\ lensy_mag3 d' = lensy_mag3 d.
Proof.
  intros Hn d d'. split.
  - apply runs_total. unfold lensy_redirect_reflect. run_all.
    cbn [with_p ray_d]. split; [reflexivity|].
    replace (ray_d (f_r st) +v
             (-2 * lensy_inner3 (ray_d (f_r st)) (f_n st)) *v f_n st) with d';
      [reflexivity|].
    subst d' d. unfold vadd, vsub, vscale. cbn [e0 e1 e2]. f_equal; ring.
  - unfold lensy_mag3. f_equal. apply reflection_keeps_inner.
    rewrite <- mag3_sqr, Hn. ring.
Qed.

Lemma unit_x : lensy_mag3 (V3 1 0 0) = 1.
Proof. vec_cbn. apply sqrt_is; lra. Qed.

Lemma reflect_preserves_magnitude_witness :
  lensy_mag3 (V3 1 1 0 -v (2 * lensy_inner3 (V3 1 1 0) (V3 1 0 0)) *v V3 1 0 0)
  = lensy_mag3 (V3 1 1 0).
Proof.
  exact (proj2 (reflect_preserves_magnitude mirror_frame unit_x)).
Defined.

(** ** Refraction *)

Lemma Rabs_nonneg_id x : 0 <= x -> Rabs x = x.
Proof. intros H. apply Rabs_right. lra. Qed.

Lemma refract_runs (m : R) (st : frame) :
  0 < lensy_mag3 (ray_d (f_r st)) ->
  0 <= m ->
  let sigma := incidence_sine (ray_d (f_r st)) (f_n st) in
  runs False (lensy_redirect_refract m) st
    (fun rc st' =>
       (1 <= m * sigma ->
        rc = (-1)%Z
        /\ st' = Frame (with_p (f_r st) (f_q st)) (f_q st) (f_n st))
       /\ (m * sigma < 1 -> rc = 0%Z)).
Proof.
  intros Hd Hm sigma.
  assert (Hs : 0 <= m * sigma).
  { apply Rmult_le_pos; [exact Hm | apply mag3_nonneg]. }
  assert (Hu : V3 (e0 (vneg (ray_d (f_r st))) / lensy_mag3 (ray_d (f_r st)))
                  (e1 (vneg (ray_d (f_r st))) / lensy_mag3 (ray_d (f_r st)))
                  (e2 (vneg (ray_d (f_r st))) / lensy_mag3 (ray_d (f_r st)))
               = (- 1 / lensy_mag3 (ray_d (f_r st))) *v ray_d (f_r st)).
  { unfold vscale, vneg. cbn [e0 e1 e2]. f_equal; field; lra. }
  unfold sigma, incidence_sine in *. cbv zeta in *.
  unfold lensy_redirect_refract.
  do 8 run_step. cbn [with_p ray_d].
  run_all; rewrite ?Hu in *.
  all: try match goal with |- _ -> False => intro end.
  all: repeat match goal with
       | H : context [Rabs ?x] |- _ =>
           rewrite (Rabs_nonneg_id x) in H by exact Hs
       end.
  all: try lra.
  all: split; intros Hcmp; try lra; try reflexivity.
  all: split; reflexivity.
Qed.

(** C4: with a direction that is not null and a ratio [m >= 0], refraction
    answers -1 (total internal reflection) exactly when [m sigma >= 1], and
    then only the position of the ray has changed; otherwise it answers 0. *)
Theorem refract_total_internal_reflection (m : R) (st : frame) :
  0 < lensy_mag3 (ray_d (f_r st)) ->
  lensy_mag3 (f_n st) = 1 ->
  0 <= m ->
  let sigma := incidence_sine (ray_d (f_r st)) (f_n st) in
  (1 <= m * sigma ->
   lensy_redirect_refract m st
   = Ret ((-1)%Z, Frame (with_p (f_r st) (f_q st)) (f_q st) (f_n st)))
  /\ (m * sigma < 1 ->
      exists st', lensy_redirect_refract m st = Ret (0%Z, st')).
Proof.
  intros Hd _ Hm sigma.
  pose proof (refract_runs m st Hd Hm) as H. cbv zeta in H. fold sigma in H.
  unfold runs in H.
  destruct (lensy_redirect_refract m st) as [| |[rc st']]; try contradiction.
  destruct H as [Htir Hok]. split; intros Hcmp.
  - destruct (Htir Hcmp) as [-> ->]. reflexivity.
  - rewrite (Hok Hcmp). now exists st'.
Qed.

Lemma grazing_sine : incidence_sine (V3 0 1 0) (V3 1 0 0) = 1.
Proof.
  unfold incidence_sine. vec_cbn. rewrite (sqrt_is (0 * 0 + 1 * 1 + 0 * 0) 1) by lra.
  destruct (Rlt_dec _ 0) as [Hlt | _]; [exfalso; lra|].
  apply sqrt_is; lra.
Qed.

Lemma refract_total_internal_reflection_witness :
  lensy_redirect_refract 2 grazing_frame
  = Ret ((-1)%Z, Frame (with_p (f_r grazing_frame) (f_q grazing_frame))
                       (f_q grazing_frame) (f_n grazing_frame)).
Proof.
  refine (proj1 (refract_total_internal_reflection 2 grazing_frame _ unit_x _) _).
  - cbn [grazing_frame f_r ray_d ray_of]. vec_cbn.
    rewrite (sqrt_is (0 * 0 + 1 * 1 + 0 * 0) 1) by lra. lra.
  - lra.
  - cbn [grazing_frame f_r f_n ray_d ray_of]. rewrite grazing_sine. lra.
Defined.

(** C10: for a ray whose direction is the null vector, refraction answers
    -2; the position is already [q], the direction is as it was. *)
Theorem refract_null_direction (m : R) (st : frame) :
  ray_d (f_r st) = vzero ->
  lensy_redirect_refract m st
  = Ret ((-2)%Z, Frame (with_p (f_r st) (f_q st)) (f_q st) (f_n st))
  /\ ray_d (with_p (f_r st) (f_q st)) = ray_d (f_r st)
  /\ ray_p (with_p (f_r st) (f_q st)) = f_q st.
Proof.
  intros Hd. split; [|split; reflexivity].
  apply runs_total. unfold lensy_redirect_refract.
  do 8 run_step. cbn [with_p ray_d]. rewrite Hd.
  destruct (Req_dec_T (lensy_mag3 vzero) 0) as [_|Hn].
  - apply runs_ret. split; reflexivity.
  - exfalso. apply Hn, mag3_vzero.
Qed.

Lemma refract_null_direction_witness :
  lensy_redirect_refract 1 null_ray_frame
  = Ret ((-2)%Z, Frame (with_p (f_r null_ray_frame) (f_q null_ray_frame))
                       (f_q null_ray_frame) (f_n null_ray_frame)).
Proof.
  exact (proj1 (refract_null_direction 1 null_ray_frame eq_refl)).
Defined.

(** ** Diffraction *)

Lemma vdiv_is_scale a k :
  k <> 0 -> V3 (e0 a / k) (e1 a / k) (e2 a / k) = (1 / k) *v a.
Proof. intros Hk. unfold vscale. f_equal; field; exact Hk. Qed.

Lemma inner3_cross_left a n : lensy_inner3 (lensy_cross3 a n) a = 0.
Proof. unfold lensy_inner3, lensy_cross3. cbn [e0 e1 e2]. ring. Qed.

Lemma inner3_comm a b : lensy_inner3 a b = lensy_inner3 b a.
Proof. unfold lensy_inner3. ring. Qed.

Lemma inner3_unit_scaled a :
  lensy_mag3 a <> 0 ->
  lensy_inner3 ((1 / lensy_mag3 a) *v a) ((1 / lensy_mag3 a) *v a) = 1.
Proof.
  intros Hz. pose proof (mag3_sqr a) as E.
  unfold lensy_inner3, vscale in *. cbn [e0 e1 e2] in *.
  field_simplify_eq; [|exact Hz]. lra.
Qed.

(** The projection of [a] into the plane of the unit normal [N]. *)
Lemma inner3_projected a N :
  lensy_inner3 N N = 1 ->
  lensy_inner3 N (a -v lensy_inner3 a N *v N) = 0.
Proof.
  intros HN. unfold lensy_inner3, vsub, vscale in *. cbn [e0 e1 e2] in *.
  set (k := e0 a * e0 N + e1 a * e1 N + e2 a * e2 N).
  transitivity (k - k * (e0 N * e0 N + e1 N * e1 N + e2 N * e2 N)).
  - unfold k. ring.
  - rewrite HN. ring.
Qed.

Lemma inner3_scale_r k a b : lensy_inner3 a (k *v b) = k * lensy_inner3 a b.
Proof. unfold lensy_inner3, vscale. cbn [e0 e1 e2]. ring. Qed.

Lemma outgoing_inner T N A g c s D :
  D <> 0 -> lensy_inner3 A A = 1 -> lensy_inner3 N A = 0 ->
  lensy_inner3 T A = 0 ->
  lensy_inner3 ((1 / D) *v (D *v (g *v T +v c *v N +v s *v A))) A = s.
Proof.
  intros HD HA HN HT.
  transitivity (g * lensy_inner3 T A + c * lensy_inner3 N A
                + s * lensy_inner3 A A).
  - unfold lensy_inner3, vadd, vscale. cbn [e0 e1 e2]. field. exact HD.
  - rewrite HA, HN, HT. ring.
Qed.

Lemma Rabs_le_bounds x b : Rabs x <= b -> - b <= x <= b.
Proof. unfold Rabs. destruct (Rcase_abs x); lra. Qed.

Lemma diffract_sine_run a wli wlt m st :
  runs True (lensy_redirect_diffract a wli wlt m) st
    (fun rc st' =>
       rc = 0%Z ->
       outgoing_sine (ray_d (f_r st)) (f_n st) a (ray_d (f_r st'))
       = grating_sine (ray_d (f_r st)) (f_n st) a wli wlt m (lensy_mag3 a)).
Proof.
  unfold lensy_redirect_diffract.
  do 8 run_step. cbn [with_p ray_d].
  set (d := ray_d (f_r st)). set (n := f_n st).
  (* n1 *)
  run_step; [run_step; discriminate|]. do 2 run_step.
  rewrite vdiv_is_scale by assumption.
  change ((1 / lensy_mag3 n) *v n) with (grating_n n).
  (* w0 *)
  run_step; [run_step; discriminate|]. do 2 run_step.
  rewrite vdiv_is_scale by assumption.
  change ((1 / lensy_mag3 d) *v d) with (grating_w0 d).
  (* a1 *)
  run_step; [run_step; discriminate|]. do 2 run_step.
  rewrite vdiv_is_scale by assumption.
  change (a -v lensy_inner3 a (grating_n n) *v grating_n n)
    with (grating_a_perp n a) in *.
  change ((1 / lensy_mag3 (grating_a_perp n a)) *v grating_a_perp n a)
    with (grating_a_hat n a).
  change (lensy_cross3 (grating_a_hat n a) (grating_n n))
    with (grating_t_hat n a).
  change (lensy_inner3 (grating_w0 d) (grating_n n))
    with (grating_alpha d n).
  change (lensy_inner3 (grating_w0 d) (grating_a_hat n a))
    with (grating_beta d n a).
  change (lensy_inner3 (grating_w0 d) (grating_t_hat n a))
    with (grating_gamma d n a).
  run_all; try discriminate. intros _. cbn [with_d ray_d].
  unfold outgoing_sine. fold d n.
  rewrite outgoing_inner.
  - rewrite sin_asin by (apply Rabs_le_bounds; assumption).
    unfold grating_sine, grating_k, grating_phi_i.
    field. repeat split; try assumption.
    intros E. apply H4. rewrite E. field. assumption.
  - assumption.
  - apply inner3_unit_scaled. assumption.
  - unfold grating_a_hat. rewrite inner3_scale_r.
    unfold grating_a_perp. rewrite inner3_projected; [ring|].
    apply inner3_unit_scaled. assumption.
  - apply inner3_cross_left.
Qed.

Lemma runs_code {S A} (c : M S A) s a :
  runs False c s (fun x _ => x = a) -> exists s', c s = Ret (a, s').
Proof.
  unfold runs. destruct (c s) as [| |[x y]]; try tauto.
  intros ->. now exists y.
Qed.

Lemma atan2_0_pos x : 0 < x -> atan2 0 x = 0.
Proof.
  intros Hx. unfold atan2. destruct (Rlt_dec 0 x); [|contradiction].
  replace (0 / x) with 0 by (field; lra). apply atan_0.
Qed.

Lemma tilted_grating_run :
  exists st', lensy_redirect_diffract tilted_grating 4 4 1 normal_incidence_frame
              = Ret (0%Z, st').
Proof.
  apply runs_code.
  unfold lensy_redirect_diffract, tilted_grating, normal_incidence_frame.
  vec_cbn. run_conc_sqrt.
  match goal with
  | |- context [atan2 ?x ?y] =>
      replace (atan2 x y) with 0
        by (replace x with 0 by lra; symmetry; apply atan2_0_pos; lra)
  end.
  rewrite sin_0.
  match goal with
  | |- context [Rabs ?x] => replace x with (4 / 5) by lra
  end.
  rewrite (Rabs_right (4 / 5)) by lra.
  run_conc.
  - rewrite (Rabs_right (4 / 5)) by lra. lra.
  - reflexivity.
Qed.

Lemma tilted_grating_values :
  lensy_mag3 tilted_grating = 5
  /\ lensy_mag3 (grating_a_perp (V3 0 0 1) tilted_grating) = 3
  /\ grating_gamma (V3 0 0 (-1)) (V3 0 0 1) tilted_grating = 0.
Proof.
  unfold grating_gamma, grating_t_hat, grating_a_hat, grating_a_perp,
    grating_w0, grating_n, tilted_grating.
  vec_cbn.
  repeat first [sqrt_val 1 | sqrt_val 3 | sqrt_val 5].
  repeat split; lra.
Qed.

(** C2, as stated, fails: the routine divides the order by [|a|], the
    length of the grating vector it is given.  With [a = (3, 0, 4)] on the
    surface [z = 0], order 1 and wavelength 4, at normal incidence, the
    outgoing in-plane sine is 4/5, not 4/3. *)
Lemma grating_claim_fails :
  ~ grating_claim tilted_grating 4 4 1 normal_incidence_frame.
Proof.
  intros Hc. destruct tilted_grating_run as [st' Hrun].
  specialize (Hc st' Hrun).
  pose proof (runs_elim True _ _ _ _ _
                (diffract_sine_run tilted_grating 4 4 1 normal_incidence_frame)
                Hrun eq_refl) as Hs.
  cbv beta in Hs. rewrite Hs in Hc. clear Hs Hrun.
  cbn [normal_incidence_frame f_r f_n ray_d ray_of] in Hc.
  destruct tilted_grating_values as [Ha [Hp Hg]].
  unfold grating_sine, grating_k in Hc. rewrite Ha, Hp, Hg in Hc.
  replace (1 - 0 * 0) with 1 in Hc by ring. rewrite sqrt_1 in Hc. lra.
Qed.

(** C2, amended: the spacing of the grating equation is [|a|]; it is the
    length of the projection when [a] is perpendicular to the normal. *)
Theorem diffract_uses_given_spacing a wli wlt m st st' :
  lensy_redirect_diffract a wli wlt m st = Ret (0%Z, st') ->
  outgoing_sine (ray_d (f_r st)) (f_n st) a (ray_d (f_r st'))
  = grating_sine (ray_d (f_r st)) (f_n st) a wli wlt m (lensy_mag3 a)
  /\ (lensy_inner3 a (f_n st) = 0 ->
      lensy_mag3 (grating_a_perp (f_n st) a) = lensy_mag3 a).
Proof.
  intros Hrun. split.
  - exact (runs_elim True _ _ _ _ _ (diffract_sine_run a wli wlt m st)
             Hrun eq_refl).
  - intros Hperp. f_equal. unfold grating_a_perp.
    replace (lensy_inner3 a (grating_n (f_n st))) with 0.
    + destruct a as [x y z]. unfold vsub, vscale. cbn [e0 e1 e2].
      f_equal; ring.
    + unfold grating_n. rewrite inner3_scale_r, Hperp. ring.
Qed.

Lemma diffract_uses_given_spacing_witness :
  exists st',
    lensy_redirect_diffract tilted_grating 4 4 1 normal_incidence_frame
    = Ret (0%Z, st')
    /\ outgoing_sine (V3 0 0 (-1)) (V3 0 0 1) tilted_grating (ray_d (f_r st'))
       = grating_sine (V3 0 0 (-1)) (V3 0 0 1) tilted_grating 4 4 1
           (lensy_mag3 tilted_grating).
Proof.
  destruct tilted_grating_run as [st' Hrun].
  exists st'. split; [exact Hrun|].
  exact (proj1 (diffract_uses_given_spacing tilted_grating 4 4 1
                  normal_incidence_frame st' Hrun)).
Defined.

(** * The detector *)






(** * The ray generators *)

Lemma runs_for_each {S A} bad (Inv : nat -> A -> S -> Prop) js
    (body : Z -> A -> M S A) acc s :
  Inv 0%nat acc s ->
  (forall i j acc s, nth_error js i = Some j -> Inv i acc s ->
                     runs bad (body j acc) s (Inv (Datatypes.S i))) ->
  runs bad (for_each js body acc) s (Inv (length js)).
Proof.
  revert Inv acc s. induction js as [|j js IH]; intros Inv acc s H0 Hstep.
  - exact H0.
  - cbn [for_each length]. apply runs_bind.
    apply (runs_weaken bad _ _ (Inv 1%nat)).
    + intros acc' s' H1.
      apply (IH (fun i => Inv (Datatypes.S i))); [exact H1|].
      intros i j' acc0 s0 Hn Hi. apply (Hstep (Datatypes.S i)); assumption.
    + apply (Hstep 0%nat); [reflexivity | exact H0].
Qed.

Lemma length_range lo n : length (range lo n) = n.
Proof. unfold range. now rewrite length_map, length_seq. Qed.

Lemma sin_lower x : 0 <= x -> x <= 3 -> x - x ^ 3 / 6 <= sin x.
Proof.
  intros H0 H3.
  assert (Hpi : x <= PI) by (pose proof PI2_3_2; lra).
  destruct (sin_bound x 0 H0 Hpi) as [Hl _].
  unfold sin_approx, sin_term in Hl. simpl in Hl. lra.
Qed.

Lemma sin_upper x : 0 <= x -> sin x <= x.
Proof.
  intros [Hlt | <-].
  - left. now apply sin_lt_x.
  - rewrite sin_0. lra.
Qed.

Lemma shell_rays_1 : shell_rays 2 1 = 6%Z.
Proof.
  unfold shell_rays, DEG2RAD, lensy_PI. apply Zfloor_eq.
  set (x := 1 * (0.01745329252 * 2)).
  assert (Hx : x = 0.03490658504) by (unfold x; lra).
  pose proof (sin_lower x) as Hl. pose proof (sin_upper x) as Hu.
  rewrite Hx in *.
  assert (L : 0.03490658504 - 0.03490658504 ^ 3 / 6 <= sin 0.03490658504) by (apply Hl; lra).
  assert (U : sin 0.03490658504 <= 0.03490658504) by (apply Hu; lra).
  clear Hl Hu.
  split.
  - apply Rmult_le_reg_r with (0.01745329252 * 2); [lra|].
    unfold Rdiv. rewrite Rmult_assoc, Rinv_l by lra. lra.
  - apply Rmult_lt_reg_r with (0.01745329252 * 2); [lra|].
    unfold Rdiv. rewrite Rmult_assoc, Rinv_l by lra. lra.
Qed.

Lemma shell_rays_2 : shell_rays 2 2 = 12%Z.
Proof.
  unfold shell_rays, DEG2RAD, lensy_PI. apply Zfloor_eq.
  set (x := 2 * (0.01745329252 * 2)).
  assert (Hx : x = 0.06981317008) by (unfold x; lra).
  pose proof (sin_lower x) as Hl. pose proof (sin_upper x) as Hu.
  rewrite Hx in *.
  assert (L : 0.06981317008 - 0.06981317008 ^ 3 / 6 <= sin 0.06981317008)
    by (apply Hl; lra).
  assert (U : sin 0.06981317008 <= 0.06981317008) by (apply Hu; lra).
  clear Hl Hu.
  split.
  - apply Rmult_le_reg_r with (0.01745329252 * 2); [lra|].
    unfold Rdiv. rewrite Rmult_assoc, Rinv_l by lra. lra.
  - apply Rmult_lt_reg_r with (0.01745329252 * 2); [lra|].
    unfold Rdiv. rewrite Rmult_assoc, Rinv_l by lra. lra.
Qed.

Lemma runs_malloc bad mr s Q :
  Q (mr (h_calls s)) (Heap (h_pl s) (Datatypes.S (h_calls s))) ->
  runs bad (malloc mr) s Q.
Proof. exact (fun H => H). Qed.

Lemma runs_list_add bad r s Q :
  Q tt (Heap (r :: h_pl s) (h_calls s)) -> runs bad (list_add r) s Q.
Proof. exact (fun H => H). Qed.

Lemma counting_loop bad (body : Z -> Z -> M heap Z) lo n rc h :
  (forall k rc h, runs bad (body k rc) h (adds_one rc h)) ->
  runs bad (for_each (range lo n) body rc) h
    (fun rc' h' => rc' = (rc + Z.of_nat n)%Z
                   /\ length (h_pl h') = (n + length (h_pl h))%nat).
Proof.
  intros Hbody.
  pose proof (runs_for_each bad
                (fun i rc' h' => rc' = (rc + Z.of_nat i)%Z
                   /\ length (h_pl h') = (i + length (h_pl h))%nat)
                (range lo n) body rc h) as H.
  rewrite length_range in H. apply H.
  - split; [cbn; lia | reflexivity].
  - intros i j acc s _ [-> Hlen].
    eapply runs_weaken; [|apply Hbody].
    intros rc' h' [-> Hlen']. split; [lia|]. rewrite Hlen', Hlen. reflexivity.
Qed.

Ltac cone_ray Hm :=
  apply runs_bind, runs_fdiv; [intros E; apply eq_IZR_R0 in E; discriminate | intros _];
  apply runs_bind, runs_fasin;
    [cbn [e2]; rewrite Rabs_R0; lra | intros _];
  apply runs_bind, runs_malloc;
  match goal with
  | |- context [match ?mr ?i with _ => _ end] =>
      let E := fresh "E" in
      destruct (mr i) eqn:E; [|exfalso; exact (Hm _ E)]
  end;
  apply runs_bind, runs_list_add; apply runs_ret;
  split; reflexivity.

Lemma cone_runs malloc_ray pr h :
  ray_d pr = V3 1 0 0 ->
  (forall i, malloc_ray i <> None) ->
  runs False (lensy_cone malloc_ray pr 10 2) h
    (fun rc h' => rc = 19%Z /\ length (h_pl h') = (19 + length (h_pl h))%nat).
Proof.
  intros Hd Hm. unfold lensy_cone. rewrite Hd.
  assert (E1 : lensy_mag3 (V3 1 0 0) = 1) by (vec_cbn; apply sqrt_is; lra).
  rewrite E1.
  destruct (Req_dec_T 1 0) as [E | _]; [exfalso; lra|].
  apply runs_bind, runs_malloc.
  destruct (malloc_ray (h_calls h)) as [junk|] eqn:Ej; [|exfalso; exact (Hm _ Ej)].
  apply runs_bind. apply runs_bind, runs_list_add. apply runs_ret.
  apply runs_bind, runs_fdiv; [unfold DEG2RAD; lra | intros _].
  assert (En : ffloor (DEG2RAD * 10 / 2 / (DEG2RAD * 2)) = IZR 2).
  { unfold ffloor. f_equal. apply Zfloor_eq. unfold DEG2RAD. split; lra. }
  rewrite En. apply runs_bind, runs_to_int32; [lia|].
  change (range 1 (Z.to_nat 2)) with [1%Z; 2%Z]. cbn [for_each].
  (* shell 1 *)
  apply runs_bind.
  apply runs_bind, runs_fdiv; [unfold DEG2RAD; lra | intros _].
  change (ffloor (sin (IZR 1 * (DEG2RAD * 2)) * 2 * lensy_PI / (DEG2RAD * 2)))
    with (IZR (shell_rays 2 1)).
  rewrite shell_rays_1. apply runs_bind, runs_to_int32; [lia|].
  eapply runs_weaken; [|apply counting_loop; intros k rc0 h0; cone_ray Hm].
  cbv beta. intros rc1 h1 [-> Hlen1].
  (* shell 2 *)
  apply runs_bind.
  apply runs_bind, runs_fdiv; [unfold DEG2RAD; lra | intros _].
  change (ffloor (sin (IZR 2 * (DEG2RAD * 2)) * 2 * lensy_PI / (DEG2RAD * 2)))
    with (IZR (shell_rays 2 2)).
  rewrite shell_rays_2. apply runs_bind, runs_to_int32; [lia|].
  eapply runs_weaken; [|apply counting_loop; intros k rc0 h0; cone_ray Hm].
  cbv beta. intros rc2 h2 [-> Hlen2].
  apply runs_ret. split; [reflexivity|].
  rewrite Hlen2, Hlen1. cbn [h_pl length]. lia.
Qed.

(** C6, amended: for the apex direction (1, 0, 0), a cone of 10 degrees
    and a step of 2 degrees the routine emits 19 rays: the axial ray and the
    rays of the shells j = 1, 2 = floor ((10 / 2) / 2), shell j having
    [floor (sin (j Delta) 2 pi / Delta)] rays, Delta in radians: 6 and 12. *)
Theorem cone_emits_19 malloc_ray pr h :
  ray_d pr = V3 1 0 0 ->
  (forall i, malloc_ray i <> None) ->
  exists h',
    lensy_cone malloc_ray pr 10 2 h = Ret (19%Z, h')
    /\ length (h_pl h') = (19 + length (h_pl h))%nat
    /\ (19 = 1 + shell_rays 2 1 + shell_rays 2 2)%Z
    /\ Zfloor (10 / 2 / 2) = 2%Z.
Proof.
  intros Hd Hm. pose proof (cone_runs malloc_ray pr h Hd Hm) as H.
  unfold runs in H.
  destruct (lensy_cone malloc_ray pr 10 2 h) as [| |[rc h']]; try contradiction.
  destruct H as [-> Hlen]. exists h'. repeat split.
  - exact Hlen.
  - rewrite shell_rays_1, shell_rays_2. reflexivity.
  - apply Zfloor_eq. split; lra.
Qed.

Lemma cone_emits_19_witness :
  exists h',
    lensy_cone always_allocates ray_along_x 10 2 empty_heap = Ret (19%Z, h')
    /\ length (h_pl h') = (19 + length (h_pl empty_heap))%nat
    /\ (19 = 1 + shell_rays 2 1 + shell_rays 2 2)%Z
    /\ Zfloor (10 / 2 / 2) = 2%Z.
Proof.
  refine (cone_emits_19 always_allocates ray_along_x empty_heap eq_refl _).
  intros i. discriminate.
Defined.

Lemma PI_bounds : 3 < PI <= 4.
Proof. pose proof PI2_3_2. pose proof PI_4. lra. Qed.

(** A lower bound of the sine of an angle in degrees, from a rational
    [x] below the angle in radians. *)
Lemma sin_degrees_lower a x :
  0 <= x -> x <= degrees a -> a <= 90 -> x - x ^ 3 / 6 <= sin (degrees a).
Proof.
  intros H0 Hx Ha. destruct PI_bounds as [Hlo Hhi].
  assert (Hd : degrees a <= PI / 2) by (unfold degrees; nra).
  apply Rle_trans with (sin x).
  - apply sin_lower; lra.
  - apply sin_incr_1; lra.
Qed.

Lemma floor_sin_nonneg a k :
  0 <= a -> a <= 180 -> 0 <= k -> (0 <= Zfloor (sin (degrees a) * k))%Z.
Proof.
  intros H0 H1 Hk. apply Zfloor_lub. cbn [IZR].
  destruct PI_bounds as [Hlo Hhi].
  apply Rmult_le_pos; [|exact Hk].
  apply sin_ge_0; unfold degrees; nra.
Qed.

Lemma scenario_cone_count_lower : (26 <= scenario_cone_count)%Z.
Proof.
  unfold scenario_cone_count.
  change (range 1 5) with [1%Z; 2%Z; 3%Z; 4%Z; 5%Z].
  cbn [map fold_right].
  pose proof (floor_sin_nonneg (1 * 2) (180 / 2)) as H1.
  pose proof (floor_sin_nonneg (2 * 2) (180 / 2)) as H2.
  pose proof (floor_sin_nonneg (3 * 2) (180 / 2)) as H3.
  assert (H4 : (11 <= Zfloor (sin (degrees (4 * 2)) * (180 / 2)))%Z).
  { apply Zfloor_lub. destruct PI_bounds as [Hlo _].
    pose proof (sin_degrees_lower (4 * 2) (2 / 15)) as L.
    assert (2 / 15 - (2 / 15) ^ 3 / 6 <= sin (degrees (4 * 2)))
      by (apply L; unfold degrees; lra).
    lra. }
  assert (H5 : (14 <= Zfloor (sin (degrees (5 * 2)) * (180 / 2)))%Z).
  { apply Zfloor_lub. destruct PI_bounds as [Hlo _].
    pose proof (sin_degrees_lower (5 * 2) (1 / 6)) as L.
    assert (1 / 6 - (1 / 6) ^ 3 / 6 <= sin (degrees (5 * 2)))
      by (apply L; unfold degrees; lra).
    lra. }
  specialize (H1 ltac:(lra) ltac:(lra) ltac:(lra)).
  specialize (H2 ltac:(lra) ltac:(lra) ltac:(lra)).
  specialize (H3 ltac:(lra) ltac:(lra) ltac:(lra)).
  lia.
Qed.

(** C6, as stated, fails: the routine makes 2 shells, not 5, and counts
    [floor (sin (theta) 2 pi / Delta)] rays in a shell, 180 sin (theta) and not
    90 sin (theta): it emits 19 rays, the scenario's formula gives 26 or more. *)
Lemma cone_count_claim_fails :
  ~ cone_count_claim always_allocates ray_along_x empty_heap.
Proof.
  intros H.
  pose proof (cone_runs always_allocates ray_along_x empty_heap eq_refl
                ltac:(discriminate)) as Hrun.
  unfold runs in Hrun.
  destruct (lensy_cone always_allocates ray_along_x 10 2 empty_heap)
    as [| |[rc h']] eqn:E; try contradiction.
  destruct Hrun as [-> _].
  pose proof (H _ _ E) as Hc.
  pose proof scenario_cone_count_lower. lia.
Qed.

(** ** The beam *)

Lemma for_real_unroll {S A} (body : R -> A -> M S A) hi step n :
  forall fuel x acc s,
    (n <= fuel)%nat ->
    (forall i, (i < n)%nat -> x + INR i * step < hi) ->
    ~ x + INR n * step < hi ->
    for_real fuel x hi step body acc s
    = for_each (axis_from n x step) body acc s.
Proof.
  induction n as [|n IH]; intros fuel x acc s Hf Hin Hout.
  - cbn [axis_from for_each]. destruct fuel; cbn [for_real];
      destruct (Rlt_dec x hi) as [Hlt|_]; try reflexivity;
      exfalso; apply Hout; cbn [INR]; lra.
  - destruct fuel as [|fuel]; [lia|].
    cbn [for_real axis_from for_each].
    destruct (Rlt_dec x hi) as [_|Hge].
    + unfold bind. destruct (body x acc s) as [| |[acc' s']]; try reflexivity.
      apply IH; [lia | |].
      * intros i Hi. specialize (Hin (Datatypes.S i) ltac:(lia)).
        rewrite S_INR in Hin. lra.
      * rewrite S_INR in Hout. lra.
    + exfalso. apply Hge. specialize (Hin 0%nat ltac:(lia)). cbn [INR] in Hin. lra.
Qed.

Lemma axis_from_closed n x step :
  axis_from n x step = map (fun i => x + INR i * step) (seq 0 n).
Proof.
  revert x. induction n as [|n IH]; intros x; [reflexivity|].
  cbn [axis_from seq map]. f_equal; [cbn [INR]; ring|].
  rewrite IH, <- seq_shift, map_map. apply map_ext.
  intros i. rewrite S_INR. ring.
Qed.

(** [beam_steps] is the number of rounds of the loop on one axis. *)
Lemma beam_steps_inside D s i :
  0 < s -> (i < beam_steps D s)%nat -> - D / 2 + INR i * s < D / 2.
Proof.
  intros Hs Hi. unfold beam_steps in Hi.
  destruct (Zfloor_bound (- (D / s))) as [Hlo Hhi].
  set (c := Zfloor (- (D / s))) in *.
  assert (Hc : (Z.of_nat i <= - c - 1)%Z) by lia.
  apply IZR_le in Hc. rewrite <- INR_IZR_INZ, minus_IZR, opp_IZR in Hc.
  assert (Hd : INR i < D / s) by lra.
  assert (Hm : INR i * s < D).
  { apply Rmult_lt_compat_r with (r := s) in Hd; [|exact Hs].
    unfold Rdiv in Hd. rewrite Rmult_assoc, Rinv_l, Rmult_1_r in Hd; lra. }
  lra.
Qed.

Lemma beam_steps_outside D s :
  0 < s -> ~ - D / 2 + INR (beam_steps D s) * s < D / 2.
Proof.
  intros Hs Hlt. unfold beam_steps in Hlt.
  destruct (Zfloor_bound (- (D / s))) as [Hlo Hhi].
  set (c := Zfloor (- (D / s))) in *.
  assert (Hn : IZR (- c) <= INR (Z.to_nat (- c))).
  { rewrite INR_IZR_INZ. apply IZR_le. lia. }
  rewrite opp_IZR in Hn.
  assert (Hd : D / s <= INR (Z.to_nat (- c))) by lra.
  assert (Hm : D <= INR (Z.to_nat (- c)) * s).
  { apply Rmult_le_compat_r with (r := s) in Hd; [|lra].
    unfold Rdiv in Hd. rewrite Rmult_assoc, Rinv_l, Rmult_1_r in Hd; lra. }
  lra.
Qed.

Lemma for_real_beam_axis {S A} (body : R -> A -> M S A) D s fuel acc st :
  0 < s -> (beam_steps D s <= fuel)%nat ->
  for_real fuel (- D / 2) (D / 2) s body acc st
  = for_each (beam_axis D s) body acc st.
Proof.
  intros Hs Hf. unfold beam_axis. rewrite <- axis_from_closed.
  apply for_real_unroll; [exact Hf | | ].
  - intros i Hi. now apply beam_steps_inside.
  - now apply beam_steps_outside.
Qed.

(** A loop whose body adds the ray [mk e] when [keep e], and counts it. *)
Lemma emitting_loop {E} (mk : E -> lensy_ray_struct) (keep : E -> bool)
    (body : E -> Z -> M heap Z) :
  (forall e rc h,
      body e rc h
      = if keep e
        then Ret ((rc + 1)%Z, Heap (mk e :: h_pl h) (Datatypes.S (h_calls h)))
        else Ret (rc, h)) ->
  forall es rc h,
    for_each es body rc h
    = Ret ((rc + Z.of_nat (length (filter keep es)))%Z,
           Heap (rev (map mk (filter keep es)) ++ h_pl h)
                (h_calls h + length (filter keep es))).
Proof.
  intros Hbody es. induction es as [|e es IH]; intros rc h.
  - cbn. destruct h as [pl calls]. unfold ret. cbn.
    f_equal. f_equal; [lia|]. f_equal. lia.
  - cbn [for_each filter]. unfold bind. rewrite Hbody.
    destruct (keep e).
    + rewrite IH. cbn [h_pl h_calls length map rev].
      rewrite <- app_assoc. cbn [app].
      f_equal. f_equal; [lia|]. f_equal. lia.
    + apply IH.
Qed.

(** A loop whose body adds the rays [blk e], last one first. *)
Lemma block_loop {E} (blk : E -> list lensy_ray_struct)
    (body : E -> Z -> M heap Z) :
  (forall e rc h,
      body e rc h
      = Ret ((rc + Z.of_nat (length (blk e)))%Z,
             Heap (rev (blk e) ++ h_pl h) (h_calls h + length (blk e)))) ->
  forall es rc h,
    for_each es body rc h
    = Ret ((rc + Z.of_nat (length (flat_map blk es)))%Z,
           Heap (rev (flat_map blk es) ++ h_pl h)
                (h_calls h + length (flat_map blk es))).
Proof.
  intros Hbody es. induction es as [|e es IH]; intros rc h.
  - cbn. destruct h as [pl calls]. unfold ret. cbn.
    f_equal. f_equal; [lia|]. f_equal. lia.
  - cbn [for_each flat_map]. unfold bind. rewrite Hbody, IH.
    cbn [h_pl h_calls]. rewrite rev_app_distr, length_app, <- app_assoc.
    f_equal. f_equal; [lia|]. f_equal. lia.
Qed.

Lemma filter_map_swap {A B} (g : A -> B) (P : B -> bool) l :
  filter P (map g l) = map g (filter (fun a => P (g a)) l).
Proof.
  induction l as [|a l IH]; [reflexivity|].
  cbn [map filter]. destruct (P (g a)); cbn [map]; now rewrite IH.
Qed.

Lemma grid_as_blocks {B} (mk : R * R -> B) (keep : R * R -> bool) xs ys :
  flat_map (fun x => map (fun y => mk (x, y))
                         (filter (fun y => keep (x, y)) ys)) xs
  = map mk (filter keep (list_prod xs ys)).
Proof.
  induction xs as [|x xs IH]; [reflexivity|].
  cbn [flat_map list_prod]. rewrite filter_app, map_app, IH. f_equal.
  rewrite filter_map_swap, map_map. reflexivity.
Qed.

Lemma beam_runs malloc_ray fuel pr D s h :
  (forall i, malloc_ray i <> None) ->
  0 < s ->
  e0 (ray_d pr) <> 0 \/ e1 (ray_d pr) <> 0 ->
  (beam_steps D s <= fuel)%nat ->
  lensy_beam malloc_ray fuel pr D s h
  = Ret (Z.of_nat (length (beam_grid D s)),
         Heap (rev (map (beam_ray pr) (beam_grid D s)) ++ h_pl h)
              (h_calls h + length (beam_grid D s))).
Proof.
  intros Hm Hs Hxy Hf.
  assert (Hd : lensy_mag3 (ray_d pr) <> 0).
  { intros E. pose proof (mag3_sqr (ray_d pr)) as Q. rewrite E in Q.
    unfold lensy_inner3 in Q. destruct Hxy as [H|H]; apply H; nra. }
  apply runs_total. unfold lensy_beam.
  destruct (Req_dec_T (lensy_mag3 (ray_d pr)) 0) as [E|_]; [contradiction|].
  apply runs_bind, runs_vdiv; [tauto | intros _].
  rewrite vdiv_is_scale by exact Hd.
  set (w0 := (1 / lensy_mag3 (ray_d pr)) *v ray_d pr).
  assert (Hw : 0 < e0 w0 * e0 w0 + e1 w0 * e1 w0).
  { unfold w0, vscale. cbn [e0 e1].
    assert (0 < (1 / lensy_mag3 (ray_d pr)) * (1 / lensy_mag3 (ray_d pr))).
    { apply Rsqr_pos_lt. unfold Rdiv. rewrite Rmult_1_l.
      now apply Rinv_neq_0_compat. }
    set (k := 1 / lensy_mag3 (ray_d pr)) in *.
    assert (Hp : 0 < e0 (ray_d pr) * e0 (ray_d pr)
                     + e1 (ray_d pr) * e1 (ray_d pr)).
    { destruct Hxy as [H0|H0]; apply Rsqr_pos_lt in H0; unfold Rsqr in H0; nra. }
    replace (k * e0 (ray_d pr) * (k * e0 (ray_d pr))
             + k * e1 (ray_d pr) * (k * e1 (ray_d pr)))
      with (k * k * (e0 (ray_d pr) * e0 (ray_d pr)
                     + e1 (ray_d pr) * e1 (ray_d pr))) by ring.
    now apply Rmult_lt_0_compat. }
  apply runs_bind, runs_fsqrt; [lra | intros _].
  assert (Hsq : 0 < sqrt (e0 w0 * e0 w0 + e1 w0 * e1 w0)) by now apply sqrt_lt_R0.
  apply runs_bind, runs_fdiv; [lra | intros _].
  apply runs_bind, runs_fsqrt.
  { intros Hneg. apply (Rlt_not_le _ _ Hneg).
    set (q := sqrt (e0 w0 * e0 w0 + e1 w0 * e1 w0)) in *.
    assert (Hq : q * q = e0 w0 * e0 w0 + e1 w0 * e1 w0)
      by (apply sqrt_sqrt; lra).
    assert (Hu : e1 w0 / q * (e1 w0 / q) <= 1).
    { apply Rmult_le_reg_r with (q * q); [nra|].
      replace (e1 w0 / q * (e1 w0 / q) * (q * q)) with (e1 w0 * e1 w0)
        by (field; lra).
      nra. }
    lra. }
  intros _.
  change (V3 (e1 w0 / sqrt (e0 w0 * e0 w0 + e1 w0 * e1 w0))
             (sqrt (1 - e1 w0 / sqrt (e0 w0 * e0 w0 + e1 w0 * e1 w0)
                        * (e1 w0 / sqrt (e0 w0 * e0 w0 + e1 w0 * e1 w0)))) 0)
    with (beam_u0 (ray_d pr)).
  change (lensy_cross3 w0 (beam_u0 (ray_d pr))) with (beam_u1 (ray_d pr)).
  unfold runs.
  rewrite for_real_beam_axis by assumption.
  rewrite (block_loop
             (fun x => map (fun y => beam_ray pr (x, y))
                           (filter (fun y => in_beam D (x, y)) (beam_axis D s)))).
  - rewrite grid_as_blocks. fold (beam_grid D s). rewrite length_map.
    split; reflexivity.
  - intros x rc0 h0. rewrite for_real_beam_axis by assumption.
    rewrite (emitting_loop (fun y => beam_ray pr (x, y))
                           (fun y => in_beam D (x, y))).
    + rewrite length_map. reflexivity.
    + intros y rc1 h1. unfold bind, fsqrt, in_beam. cbn [fst snd].
      destruct (Rlt_dec (x * x + y * y) 0) as [Hneg|_]; [exfalso; nra|].
      unfold ret at 1.
      destruct (Rlt_dec (D / 2) (sqrt (x * x + y * y))); [reflexivity|].
      unfold malloc. destruct (malloc_ray (h_calls h1)) eqn:Ea;
        [|exfalso; exact (Hm _ Ea)].
      reflexivity.
Qed.










(** * Refraction: Snell's law *)

Lemma lagrange_identity a b :
  lensy_inner3 (lensy_cross3 a b) (lensy_cross3 a b)
  = lensy_inner3 a a * lensy_inner3 b b - lensy_inner3 a b * lensy_inner3 a b.
Proof. unfold lensy_inner3, lensy_cross3. cbn [e0 e1 e2]. ring. Qed.

Lemma cross3_twice a b :
  lensy_cross3 (lensy_cross3 a b) b
  = lensy_inner3 a b *v b -v lensy_inner3 b b *v a.
Proof.
  unfold lensy_inner3, lensy_cross3, vsub, vscale. cbn [e0 e1 e2].
  f_equal; ring.
Qed.

Lemma mag3_one_inner a : lensy_mag3 a = 1 -> lensy_inner3 a a = 1.
Proof. intros H. rewrite <- mag3_sqr, H. ring. Qed.

Lemma inner3_vneg_r a b : lensy_inner3 a (vneg b) = - lensy_inner3 a b.
Proof. unfold lensy_inner3, vneg. cbn [e0 e1 e2]. ring. Qed.

Lemma inner3_vneg_vneg a : lensy_inner3 (vneg a) (vneg a) = lensy_inner3 a a.
Proof. unfold lensy_inner3, vneg. cbn [e0 e1 e2]. ring. Qed.

(** The unit vector against the ray and the normal turned toward it. *)
Lemma refract_snell_run (m : R) (st : frame) :
  lensy_mag3 (f_n st) = 1 ->
  runs True (lensy_redirect_refract m) st
    (fun rc st' =>
       rc = 0%Z ->
       let d := ray_d (f_r st) in
       let u := (- 1 / lensy_mag3 d) *v d in
       let n1 := if Rlt_dec (lensy_inner3 u (f_n st)) 0
                 then vneg (f_n st) else f_n st in
       let kappa := lensy_inner3 u n1 in
       Rabs (m * sqrt (1 - kappa * kappa)) < 1
       /\ ray_d (f_r st')
          = m *v d +v (lensy_mag3 d
                       * (m * kappa - sqrt (1 - m * m * (1 - kappa * kappa))))
                      *v n1).
Proof.
  intros Hn.
  unfold lensy_redirect_refract.
  do 8 run_step. cbn [with_p ray_d].
  set (d := ray_d (f_r st)).
  run_step; [run_step; discriminate|].
  assert (Hd0 : lensy_mag3 d <> 0) by assumption.
  do 2 run_step.
  replace (V3 (e0 (vneg d) / lensy_mag3 d) (e1 (vneg d) / lensy_mag3 d)
              (e2 (vneg d) / lensy_mag3 d))
    with ((- 1 / lensy_mag3 d) *v d)
    by (unfold vscale, vneg; cbn [e0 e1 e2]; f_equal; field; exact Hd0).
  set (u := (- 1 / lensy_mag3 d) *v d).
  assert (Hu : lensy_inner3 u u = 1).
  { pose proof (mag3_sqr d) as E. unfold u, lensy_inner3, vscale in *.
    cbn [e0 e1 e2] in *. field_simplify_eq; [|exact Hd0]. lra. }
  assert (Hdu : d = (- lensy_mag3 d) *v u).
  { unfold u, vscale. destruct d as [x y z]. cbn [e0 e1 e2].
    f_equal; field; exact Hd0. }
  set (n1 := if Rlt_dec (lensy_inner3 u (f_n st)) 0
             then vneg (f_n st) else f_n st) in *.
  assert (Hn1 : lensy_inner3 n1 n1 = 1).
  { unfold n1. destruct (Rlt_dec _ 0).
    - rewrite inner3_vneg_vneg. now apply mag3_one_inner.
    - now apply mag3_one_inner. }
  assert (Hk : 0 <= lensy_inner3 u n1).
  { unfold n1. destruct (Rlt_dec _ 0) as [Hlt|Hge].
    - rewrite inner3_vneg_r. lra.
    - lra. }
  set (kappa := lensy_inner3 u n1) in *.
  assert (Hs : lensy_mag3 (lensy_cross3 u n1) = sqrt (1 - kappa * kappa)).
  { unfold lensy_mag3. f_equal. rewrite lagrange_identity, Hu, Hn1.
    unfold kappa. ring. }
  assert (Hw : lensy_cross3 (lensy_cross3 u n1) n1 = kappa *v n1 -v u).
  { rewrite cross3_twice, Hn1. unfold kappa, vsub, vscale. cbn [e0 e1 e2].
    f_equal; ring. }
  assert (Hk1 : 0 <= 1 - kappa * kappa).
  { pose proof (inner3_self_nonneg (lensy_cross3 u n1)) as E.
    rewrite lagrange_identity, Hu, Hn1 in E. fold kappa in E. lra. }
  rewrite Hs.
  set (sigma := sqrt (1 - kappa * kappa)) in *.
  assert (Hss : sigma * sigma = 1 - kappa * kappa)
    by (apply sqrt_sqrt; exact Hk1).
  run_step; [run_step; discriminate|].
  run_step. run_step.
  assert (Hlt : Rabs (m * sigma) < 1) by lra.
  assert (Hb : -1 <= m * sigma <= 1) by (apply Rabs_le_bounds; lra).
  assert (Hrad : 1 - m * m * (1 - kappa * kappa) = 1 - Rsqr (m * sigma)).
  { unfold Rsqr. rewrite <- Hss. ring. }
  rewrite Hrad.
  set (D0 := lensy_mag3 d) in *.
  run_step.
  - (* the ray is oblique *)
    do 5 run_step. intros _. split; [exact Hlt|].
    cbn [with_d ray_d].
    rewrite vdiv_is_scale by assumption.
    rewrite cos_asin, sin_asin by exact Hb.
    replace (lensy_cross3 ((1 / sigma) *v lensy_cross3 u n1) n1)
      with ((1 / sigma) *v (kappa *v n1 -v u)).
    2:{ rewrite <- Hw. unfold lensy_cross3, vscale. cbn [e0 e1 e2].
        f_equal; field; lra. }
    rewrite Hdu at 1.
    unfold vadd, vsub, vscale, vneg. cbn [e0 e1 e2].
    f_equal; field; lra.
  - (* normal incidence *)
    do 3 run_step. intros _. split; [exact Hlt|].
    cbn [with_d ray_d].
    assert (Hz : sigma = 0).
    { pose proof (sqrt_pos (1 - kappa * kappa)) as Hp. fold sigma in Hp. lra. }
    assert (Hk2 : kappa = 1) by nra.
    assert (Hun : u = n1).
    { assert (E : lensy_cross3 u n1 = vzero).
      { apply inner3_self_zero. rewrite <- mag3_sqr, Hs, Hz. ring. }
      rewrite E, Hk2 in Hw.
      destruct u as [ux uy uz], n1 as [nx ny nz].
      unfold lensy_cross3, vsub, vscale, vzero in Hw. cbn [e0 e1 e2] in Hw.
      injection Hw as E0 E1 E2. f_equal; lra. }
    rewrite Hz. replace (m * 0) with 0 by ring.
    rewrite Rsqr_0, Rminus_0_r, sqrt_1, Hk2.
    rewrite Hdu at 1. rewrite Hun.
    unfold vadd, vsub, vscale, vneg. cbn [e0 e1 e2].
    f_equal; ring.
Qed.

Lemma mag3_pos a : lensy_mag3 a <> 0 -> 0 < lensy_mag3 a.
Proof. intros H. pose proof (mag3_nonneg a). lra. Qed.

(** The refracted direction, in the vector form of Snell's law. *)
Lemma refract_closed_form (m : R) (st st' : frame) :
  lensy_mag3 (f_n st) = 1 ->
  lensy_redirect_refract m st = Ret (0%Z, st') ->
  let d := ray_d (f_r st) in
  let n := f_n st in
  exists n1 kappa c,
    ((lensy_inner3 d n <= 0 /\ n1 = n) \/ (0 < lensy_inner3 d n /\ n1 = vneg n))
    /\ 0 < lensy_mag3 d
    /\ lensy_inner3 d n1 = - lensy_mag3 d * kappa
    /\ 0 <= kappa /\ 0 < c
    /\ c * c = 1 - m * m * (1 - kappa * kappa)
    /\ ray_d (f_r st')
       = m *v d +v (lensy_mag3 d * (m * kappa - c)) *v n1.
Proof.
  intros Hn Hrun d n.
  pose proof (runs_elim True _ _ _ _ _ (refract_snell_run m st Hn) Hrun eq_refl)
    as H.
  cbv zeta in H. fold d n in H. destruct H as [Hlt Hd'].
  assert (Hd0 : lensy_mag3 d <> 0).
  { intros E. unfold lensy_redirect_refract, bind, get_q, get_n, set_ray_p,
      get_r, set_r in Hrun. cbn in Hrun. fold d in Hrun.
    destruct (Req_dec_T (lensy_mag3 d) 0); [discriminate | contradiction]. }
  pose proof (mag3_pos d Hd0) as Hpos.
  set (u := (- 1 / lensy_mag3 d) *v d) in *.
  assert (Hun : lensy_inner3 u n = - lensy_inner3 d n / lensy_mag3 d).
  { unfold u, lensy_inner3, vscale. cbn [e0 e1 e2]. field. exact Hd0. }
  set (n1 := if Rlt_dec (lensy_inner3 u n) 0 then vneg n else n) in *.
  set (kappa := lensy_inner3 u n1) in *.
  assert (Hk1 : 0 <= 1 - kappa * kappa).
  { assert (Hu : lensy_inner3 u u = 1).
    { pose proof (mag3_sqr d) as E. unfold u, lensy_inner3, vscale in *.
      cbn [e0 e1 e2] in *. field_simplify_eq; [|exact Hd0]. lra. }
    assert (Hn1 : lensy_inner3 n1 n1 = 1).
    { unfold n1. destruct (Rlt_dec _ 0).
      - rewrite inner3_vneg_vneg. now apply mag3_one_inner.
      - now apply mag3_one_inner. }
    pose proof (inner3_self_nonneg (lensy_cross3 u n1)) as E.
    rewrite lagrange_identity, Hu, Hn1 in E. fold kappa in E. lra. }
  assert (Hrad : 0 < 1 - m * m * (1 - kappa * kappa)).
  { pose proof (sqrt_sqrt _ Hk1) as E.
    set (sigma := sqrt (1 - kappa * kappa)) in *.
    apply Rabs_def2 in Hlt. rewrite <- E. nra. }
  exists n1, kappa, (sqrt (1 - m * m * (1 - kappa * kappa))).
  split; [|split; [exact Hpos|split; [|split; [|split; [|split]]]]].
  - unfold n1. destruct (Rlt_dec (lensy_inner3 u n) 0) as [Hl|Hg].
    + right. split; [|reflexivity]. rewrite Hun in Hl.
      assert (E : lensy_inner3 d n
                  = - (- lensy_inner3 d n / lensy_mag3 d) * lensy_mag3 d)
        by (field; exact Hd0).
      rewrite E. nra.
    + left. split; [|reflexivity]. rewrite Hun in Hg.
      assert (E : lensy_inner3 d n
                  = - (- lensy_inner3 d n / lensy_mag3 d) * lensy_mag3 d)
        by (field; exact Hd0).
      rewrite E. nra.
  - unfold kappa, u, lensy_inner3, vscale. cbn [e0 e1 e2]. field. exact Hd0.
  - unfold kappa, n1. destruct (Rlt_dec (lensy_inner3 u n) 0).
    + rewrite inner3_vneg_r. lra.
    + lra.
  - now apply sqrt_lt_R0.
  - apply sqrt_sqrt. lra.
  - exact Hd'.
Qed.

Lemma cross3_vneg_r a b : lensy_cross3 a (vneg b) = vneg (lensy_cross3 a b).
Proof. unfold lensy_cross3, vneg. cbn [e0 e1 e2]. f_equal; ring. Qed.

Lemma cross3_self a : lensy_cross3 a a = vzero.
Proof. unfold lensy_cross3, vzero. cbn [e0 e1 e2]. f_equal; ring. Qed.

(** The sine of incidence on a unit normal is at most 1. *)
Lemma incidence_sine_le_1 d n :
  lensy_mag3 d <> 0 -> lensy_mag3 n = 1 -> incidence_sine d n <= 1.
Proof.
  intros Hd Hn. unfold incidence_sine. cbv zeta.
  set (u := (- 1 / lensy_mag3 d) *v d).
  set (n1 := if Rlt_dec (lensy_inner3 u n) 0 then vneg n else n).
  assert (Hu : lensy_inner3 u u = 1).
  { pose proof (mag3_sqr d) as E. unfold u, lensy_inner3, vscale in *.
    cbn [e0 e1 e2] in *. field_simplify_eq; [|exact Hd]. lra. }
  assert (Hn1 : lensy_inner3 n1 n1 = 1).
  { unfold n1. destruct (Rlt_dec _ 0).
    - rewrite inner3_vneg_vneg. now apply mag3_one_inner.
    - now apply mag3_one_inner. }
  rewrite <- sqrt_1. unfold lensy_mag3. apply sqrt_le_1_alt.
  rewrite lagrange_identity, Hu, Hn1.
  pose proof (Rle_0_sqr (lensy_inner3 u n1)) as Hsq. unfold Rsqr in Hsq. lra.
Qed.

Lemma refract_returns m st :
  0 < lensy_mag3 (ray_d (f_r st)) -> 0 <= m ->
  m * incidence_sine (ray_d (f_r st)) (f_n st) < 1 ->
  exists st', lensy_redirect_refract m st = Ret (0%Z, st').
Proof.
  intros Hd Hm Hs. pose proof (refract_runs m st Hd Hm) as H.
  cbv zeta in H. unfold runs in H.
  destruct (lensy_redirect_refract m st) as [| |[rc st']]; try contradiction.
  destruct H as [_ H]. rewrite (H Hs). now exists st'.
Qed.

Lemma oblique_mag : lensy_mag3 (V3 (-4) 3 0) = 5.
Proof. vec_cbn. apply sqrt_is; lra. Qed.

Lemma oblique_sine : incidence_sine (V3 (-4) 3 0) (V3 1 0 0) = 3 / 5.
Proof.
  unfold incidence_sine. rewrite oblique_mag. vec_cbn.
  destruct (Rlt_dec _ 0) as [Hlt | _]; [exfalso; lra|].
  apply sqrt_is; lra.
Qed.

Lemma oblique_refracts m :
  0 <= m <= 1 ->
  exists st', lensy_redirect_refract m oblique_frame = Ret (0%Z, st').
Proof.
  intros Hm. apply refract_returns.
  - cbn [oblique_frame f_r ray_d ray_of]. rewrite oblique_mag. lra.
  - lra.
  - cbn [oblique_frame f_r f_n ray_d ray_of]. rewrite oblique_sine. lra.
Qed.

(** X1: Snell's law in vector form.  When [lensy_redirect_refract]
    returns 0 on a unit normal, the part of the direction that lies in the
    surface is scaled by the ratio of the indices: [d' x n = m (d x n)]. *)
Theorem refract_snell (m : R) (st st' : frame) :
  lensy_mag3 (f_n st) = 1 ->
  lensy_redirect_refract m st = Ret (0%Z, st') ->
  lensy_cross3 (ray_d (f_r st')) (f_n st)
  = m *v lensy_cross3 (ray_d (f_r st)) (f_n st).
Proof.
  intros Hn Hrun.
  destruct (refract_closed_form m st st' Hn Hrun)
    as (n1 & kappa & c & Hside & _ & _ & _ & _ & _ & ->).
  set (k := lensy_mag3 (ray_d (f_r st)) * (m * kappa - c)).
  transitivity (m *v lensy_cross3 (ray_d (f_r st)) (f_n st)
                +v k *v lensy_cross3 n1 (f_n st)).
  - unfold lensy_cross3, vadd, vscale. cbn [e0 e1 e2]. f_equal; ring.
  - replace (lensy_cross3 n1 (f_n st)) with vzero.
    + unfold vadd, vscale, vzero. cbn [e0 e1 e2]. f_equal; ring.
    + destruct Hside as [[_ ->] | [_ ->]].
      * symmetry. apply cross3_self.
      * unfold lensy_cross3, vneg, vzero. cbn [e0 e1 e2]. f_equal; ring.
Qed.

Lemma refract_snell_witness :
  exists st',
    lensy_redirect_refract (1 / 2) oblique_frame = Ret (0%Z, st')
    /\ lensy_cross3 (ray_d (f_r st')) (V3 1 0 0)
       = (1 / 2) *v lensy_cross3 (V3 (-4) 3 0) (V3 1 0 0).
Proof.
  destruct (oblique_refracts (1 / 2)) as [st' Hrun]; [lra|].
  exists st'. split; [exact Hrun|].
  exact (refract_snell (1 / 2) oblique_frame st' unit_x Hrun).
Defined.

(** X2: a refraction that returns 0 on a unit normal keeps the magnitude
    of the ray direction. *)
Theorem refract_preserves_magnitude (m : R) (st st' : frame) :
  lensy_mag3 (f_n st) = 1 ->
  lensy_redirect_refract m st = Ret (0%Z, st') ->
  lensy_mag3 (ray_d (f_r st')) = lensy_mag3 (ray_d (f_r st)).
Proof.
  intros Hn Hrun.
  destruct (refract_closed_form m st st' Hn Hrun)
    as (n1 & kappa & c & Hside & Hpos & Hdn & Hk & Hc & Hcc & ->).
  assert (Hn1 : lensy_inner3 n1 n1 = 1).
  { destruct Hside as [[_ ->] | [_ ->]].
    - now apply mag3_one_inner.
    - rewrite inner3_vneg_vneg. now apply mag3_one_inner. }
  set (d := ray_d (f_r st)) in *. set (D0 := lensy_mag3 d) in *.
  assert (Hdd : lensy_inner3 d d = D0 * D0) by (symmetry; apply mag3_sqr).
  apply sqrt_is; [lra|]. rewrite <- Hdd at 1.
  transitivity (m * m * lensy_inner3 d d
                + 2 * m * (D0 * (m * kappa - c)) * lensy_inner3 d n1
                + (D0 * (m * kappa - c)) * (D0 * (m * kappa - c))
                  * lensy_inner3 n1 n1).
  2:{ unfold lensy_inner3, vadd, vscale. cbn [e0 e1 e2]. ring. }
  rewrite Hn1, Hdn, Hdd. nra.
Qed.

Lemma refract_preserves_magnitude_witness :
  exists st',
    lensy_redirect_refract (1 / 2) oblique_frame = Ret (0%Z, st')
    /\ lensy_mag3 (ray_d (f_r st')) = lensy_mag3 (V3 (-4) 3 0).
Proof.
  destruct (oblique_refracts (1 / 2)) as [st' Hrun]; [lra|].
  exists st'. split; [exact Hrun|].
  exact (refract_preserves_magnitude (1 / 2) oblique_frame st' unit_x Hrun).
Defined.

(** X3: the refracted ray goes on through the surface: [<d', n>] is
    negative when [<d, n> <= 0] and positive when [<d, n> > 0] (unit normal,
    return code 0). *)
Theorem refract_goes_through (m : R) (st st' : frame) :
  lensy_mag3 (f_n st) = 1 ->
  lensy_redirect_refract m st = Ret (0%Z, st') ->
  let d := ray_d (f_r st) in
  let d' := ray_d (f_r st') in
  (lensy_inner3 d (f_n st) <= 0 -> lensy_inner3 d' (f_n st) < 0)
  /\ (0 < lensy_inner3 d (f_n st) -> 0 < lensy_inner3 d' (f_n st)).
Proof.
  intros Hn Hrun d d'. subst d'.
  destruct (refract_closed_form m st st' Hn Hrun)
    as (n1 & kappa & c & Hside & Hpos & Hdn & Hk & Hc & Hcc & ->).
  fold d in Hside, Hpos, Hdn |- *.
  set (D0 := lensy_mag3 d) in *.
  assert (Hn1 : lensy_inner3 n1 n1 = 1).
  { destruct Hside as [[_ ->] | [_ ->]].
    - now apply mag3_one_inner.
    - rewrite inner3_vneg_vneg. now apply mag3_one_inner. }
  assert (E : lensy_inner3 (m *v d +v (D0 * (m * kappa - c)) *v n1) n1
              = - D0 * c).
  { transitivity (m * lensy_inner3 d n1
                  + D0 * (m * kappa - c) * lensy_inner3 n1 n1).
    - unfold lensy_inner3, vadd, vscale. cbn [e0 e1 e2]. ring.
    - rewrite Hdn, Hn1. ring. }
  assert (Hneg : - D0 * c < 0) by nra.
  destruct Hside as [[Hle ->] | [Hgt ->]].
  - split; intros H; [lra | exfalso; lra].
  - rewrite inner3_vneg_r in E. split; intros H; [exfalso; lra | lra].
Qed.

Lemma refract_goes_through_witness :
  exists st',
    lensy_redirect_refract (1 / 2) oblique_frame = Ret (0%Z, st')
    /\ lensy_inner3 (ray_d (f_r st')) (V3 1 0 0) < 0.
Proof.
  destruct (oblique_refracts (1 / 2)) as [st' Hrun]; [lra|].
  exists st'. split; [exact Hrun|].
  refine (proj1 (refract_goes_through (1 / 2) oblique_frame st' unit_x Hrun) _).
  unfold oblique_frame. vec_cbn. lra.
Defined.

(** X4: with the index ratio 1 a refraction that returns 0 leaves the
    direction as it was (unit normal). *)
Theorem refract_equal_indices (st st' : frame) :
  lensy_mag3 (f_n st) = 1 ->
  lensy_redirect_refract 1 st = Ret (0%Z, st') ->
  ray_d (f_r st') = ray_d (f_r st).
Proof.
  intros Hn Hrun.
  destruct (refract_closed_form 1 st st' Hn Hrun)
    as (n1 & kappa & c & _ & _ & _ & Hk & Hc & Hcc & ->).
  assert (E : c = kappa) by nra.
  rewrite E. unfold vadd, vscale. destruct (ray_d (f_r st)) as [x y z].
  cbn [e0 e1 e2]. f_equal; ring.
Qed.

Lemma refract_equal_indices_witness :
  exists st',
    lensy_redirect_refract 1 oblique_frame = Ret (0%Z, st')
    /\ ray_d (f_r st') = V3 (-4) 3 0.
Proof.
  destruct (oblique_refracts 1) as [st' Hrun]; [lra|].
  exists st'. split; [exact Hrun|].
  exact (refract_equal_indices oblique_frame st' unit_x Hrun).
Defined.

(** X5: a ray along the normal is not bent, whatever the index ratio
    (unit normal, return code 0). *)
Theorem refract_normal_incidence (m : R) (st st' : frame) :
  lensy_mag3 (f_n st) = 1 ->
  lensy_cross3 (ray_d (f_r st)) (f_n st) = vzero ->
  lensy_redirect_refract m st = Ret (0%Z, st') ->
  ray_d (f_r st') = ray_d (f_r st).
Proof.
  intros Hn Hpar Hrun.
  destruct (refract_closed_form m st st' Hn Hrun)
    as (n1 & kappa & c & Hside & Hpos & Hdn & Hk & Hc & Hcc & ->).
  set (d := ray_d (f_r st)) in *. set (D0 := lensy_mag3 d) in *.
  assert (Hn1 : lensy_inner3 n1 n1 = 1).
  { destruct Hside as [[_ ->] | [_ ->]].
    - now apply mag3_one_inner.
    - rewrite inner3_vneg_vneg. now apply mag3_one_inner. }
  assert (Hpar1 : lensy_cross3 d n1 = vzero).
  { destruct Hside as [[_ ->] | [_ ->]]; [exact Hpar|].
    rewrite cross3_vneg_r, Hpar. unfold vneg, vzero. cbn [e0 e1 e2].
    f_equal; ring. }
  assert (Hdd : lensy_inner3 d d = D0 * D0) by (symmetry; apply mag3_sqr).
  assert (Hk1 : kappa = 1).
  { pose proof (lagrange_identity d n1) as L.
    rewrite Hpar1, Hdd, Hn1, Hdn in L.
    unfold lensy_inner3, vzero in L. cbn [e0 e1 e2] in L.
    assert (E : (D0 * D0) * (1 - kappa * kappa) = 0) by lra.
    destruct (Rmult_integral _ _ E) as [E1 | E1]; [nra|].
    assert (E2 : (kappa - 1) * (kappa + 1) = 0) by lra.
    destruct (Rmult_integral _ _ E2); lra. }
  assert (Hc1 : c = 1).
  { rewrite Hk1 in Hcc.
    assert (E2 : (c - 1) * (c + 1) = 0) by lra.
    destruct (Rmult_integral _ _ E2); lra. }
  assert (Hd : d = (- D0) *v n1).
  { pose proof (cross3_twice d n1) as T. rewrite Hpar1, Hn1, Hdn, Hk1 in T.
    destruct d as [x y z], n1 as [a b e].
    unfold lensy_cross3, vsub, vscale, vzero in *. cbn [e0 e1 e2] in *.
    injection T as T0 T1 T2. f_equal; lra. }
  rewrite Hk1, Hc1. clearbody D0. rewrite Hd.
  unfold vadd, vscale. cbn [e0 e1 e2]. f_equal; ring.
Qed.

Lemma head_on_frame_refracts :
  exists st', lensy_redirect_refract 3 head_on_frame = Ret (0%Z, st').
Proof.
  apply refract_returns; cbn [head_on_frame f_r f_n ray_d ray_of].
  - vec_cbn. rewrite (sqrt_is _ 2) by lra. lra.
  - lra.
  - unfold incidence_sine. vec_cbn. rewrite (sqrt_is (-2 * -2 + 0 * 0 + 0 * 0) 2) by lra.
    destruct (Rlt_dec _ 0) as [Hlt | _]; [exfalso; lra|].
    rewrite (sqrt_is _ 0) by lra. lra.
Qed.

Lemma refract_normal_incidence_witness :
  exists st',
    lensy_redirect_refract 3 head_on_frame = Ret (0%Z, st')
    /\ ray_d (f_r st') = V3 (-2) 0 0.
Proof.
  destruct head_on_frame_refracts as [st' Hrun].
  exists st'. split; [exact Hrun|].
  refine (refract_normal_incidence 3 head_on_frame st' unit_x _ Hrun).
  unfold head_on_frame. vec_cbn. f_equal; ring.
Defined.

Lemma refract_below_one m st :
  0 < lensy_mag3 (ray_d (f_r st)) ->
  lensy_mag3 (f_n st) = 1 ->
  0 <= m < 1 ->
  exists st', lensy_redirect_refract m st = Ret (0%Z, st').
Proof.
  intros Hd Hn Hm. apply refract_returns; [exact Hd | lra |].
  pose proof (incidence_sine_le_1 (ray_d (f_r st)) (f_n st)) as Hs.
  assert (H0 : 0 <= incidence_sine (ray_d (f_r st)) (f_n st))
    by apply mag3_nonneg.
  assert (H1 : incidence_sine (ray_d (f_r st)) (f_n st) <= 1)
    by (apply Hs; [lra | exact Hn]).
  nra.
Qed.

(** X6: into the denser medium there is no total internal reflection.
    For an index ratio [0 <= m < 1], a direction that is not null and a unit
    normal, [lensy_redirect_refract] returns 0. *)
Theorem refract_into_denser_medium (m : R) (st : frame) :
  0 < lensy_mag3 (ray_d (f_r st)) ->
  lensy_mag3 (f_n st) = 1 ->
  0 <= m < 1 ->
  exists st', lensy_redirect_refract m st = Ret (0%Z, st').
Proof. exact (refract_below_one m st). Qed.

Lemma refract_into_denser_medium_witness :
  exists st', lensy_redirect_refract (1 / 2) grazing_frame = Ret (0%Z, st').
Proof.
  refine (refract_into_denser_medium (1 / 2) grazing_frame _ unit_x _).
  - cbn [grazing_frame f_r ray_d ray_of]. vec_cbn.
    rewrite (sqrt_is (0 * 0 + 1 * 1 + 0 * 0) 1) by lra. lra.
  - lra.
Defined.

(** * Diffraction: the grating equation *)

Lemma diffract_closed_form_run a wli wlt m st :
  runs True (lensy_redirect_diffract a wli wlt m) st
    (fun rc st' =>
       rc = 0%Z ->
       let d := ray_d (f_r st) in
       let n := f_n st in
       let g := grating_gamma d n a in
       let s := grating_sine d n a wli wlt m (lensy_mag3 a) in
       lensy_mag3 n <> 0 /\ lensy_mag3 d <> 0
       /\ lensy_mag3 (grating_a_perp n a) <> 0
       /\ grating_alpha d n <> 0 /\ wli <> 0 /\ lensy_mag3 a <> 0
       /\ g * g < 1 /\ Rabs s < 1
       /\ ray_d (f_r st')
          = lensy_mag3 d
            *v (g *v grating_t_hat n a
                +v (sqrt (1 - s * s) * sqrt (1 - g * g)) *v grating_n n
                +v (s * sqrt (1 - g * g)) *v grating_a_hat n a)).
Proof.
  unfold lensy_redirect_diffract.
  do 8 run_step. cbn [with_p ray_d].
  set (d := ray_d (f_r st)). set (n := f_n st).
  (* n1 *)
  run_step; [run_step; discriminate|]. do 2 run_step.
  rewrite vdiv_is_scale by assumption.
  change ((1 / lensy_mag3 n) *v n) with (grating_n n).
  (* w0 *)
  run_step; [run_step; discriminate|]. do 2 run_step.
  rewrite vdiv_is_scale by assumption.
  change ((1 / lensy_mag3 d) *v d) with (grating_w0 d).
  (* a1 *)
  run_step; [run_step; discriminate|]. do 2 run_step.
  rewrite vdiv_is_scale by assumption.
  change (a -v lensy_inner3 a (grating_n n) *v grating_n n)
    with (grating_a_perp n a) in *.
  change ((1 / lensy_mag3 (grating_a_perp n a)) *v grating_a_perp n a)
    with (grating_a_hat n a).
  change (lensy_cross3 (grating_a_hat n a) (grating_n n))
    with (grating_t_hat n a).
  change (lensy_inner3 (grating_w0 d) (grating_n n))
    with (grating_alpha d n).
  change (lensy_inner3 (grating_w0 d) (grating_a_hat n a))
    with (grating_beta d n a).
  change (lensy_inner3 (grating_w0 d) (grating_t_hat n a))
    with (grating_gamma d n a).
  run_all; try discriminate. intros _. cbn [with_d ray_d].
  set (g := grating_gamma d n a) in *.
  change ((sin (atan2 (grating_beta d n a) (- grating_alpha d n))
           / (wli * (1 / sqrt (1 - g * g))) + IZR m / lensy_mag3 a)
          * (wlt * (1 / sqrt (1 - g * g))))
    with (grating_sine d n a wli wlt m (lensy_mag3 a)) in *.
  set (s := grating_sine d n a wli wlt m (lensy_mag3 a)) in *.
  assert (Hs : Rabs s < 1) by lra.
  assert (Hb : -1 <= s <= 1) by (apply Rabs_le_bounds; lra).
  assert (Hg : g * g < 1).
  { destruct H2 as [Hlt | Heq]; [lra|]. exfalso. apply H3.
    rewrite <- Heq. apply sqrt_0. }
  assert (Hwli : wli <> 0) by (intros E; apply H4; rewrite E; ring).
  repeat (split; [assumption|]).
  rewrite cos_asin, sin_asin by exact Hb. unfold Rsqr.
  unfold vadd, vscale. cbn [e0 e1 e2].
  f_equal; field; assumption.
Qed.

Lemma inner3_cross_right a n : lensy_inner3 (lensy_cross3 a n) n = 0.
Proof. unfold lensy_inner3, lensy_cross3. cbn [e0 e1 e2]. ring. Qed.

(** The grating's frame: the unit normal, the unit vector across the
    rulings and the unit vector along them are orthonormal. *)
Lemma grating_frame n a :
  lensy_mag3 n <> 0 -> lensy_mag3 (grating_a_perp n a) <> 0 ->
  let N := grating_n n in
  let A := grating_a_hat n a in
  let T := grating_t_hat n a in
  lensy_inner3 N N = 1 /\ lensy_inner3 A A = 1 /\ lensy_inner3 N A = 0
  /\ lensy_inner3 T T = 1 /\ lensy_inner3 T N = 0 /\ lensy_inner3 T A = 0.
Proof.
  intros Hn Ha N A T.
  assert (HN : lensy_inner3 N N = 1) by (apply inner3_unit_scaled; exact Hn).
  assert (HA : lensy_inner3 A A = 1) by (apply inner3_unit_scaled; exact Ha).
  assert (HNA : lensy_inner3 N A = 0).
  { unfold A, grating_a_hat. rewrite inner3_scale_r.
    unfold grating_a_perp. fold N. rewrite inner3_projected by exact HN. ring. }
  repeat split; try assumption.
  - unfold T, grating_t_hat. fold A N. rewrite lagrange_identity, HA, HN.
    rewrite (inner3_comm A N), HNA. ring.
  - apply inner3_cross_right.
  - apply inner3_cross_left.
Qed.

(** A vector in an orthonormal frame [T = A x N], [N], [A]. *)
Lemma frame_expansion w N A :
  lensy_inner3 N N = 1 -> lensy_inner3 A A = 1 -> lensy_inner3 N A = 0 ->
  w = lensy_inner3 w (lensy_cross3 A N) *v lensy_cross3 A N
      +v lensy_inner3 w N *v N +v lensy_inner3 w A *v A.
Proof.
  intros HN HA HNA.
  assert (E : (lensy_inner3 A A * lensy_inner3 N N
               - lensy_inner3 N A * lensy_inner3 N A) *v w
              = lensy_inner3 w (lensy_cross3 A N) *v lensy_cross3 A N
                +v (lensy_inner3 w N * lensy_inner3 A A
                    - lensy_inner3 w A * lensy_inner3 N A) *v N
                +v (lensy_inner3 w A * lensy_inner3 N N
                    - lensy_inner3 w N * lensy_inner3 N A) *v A).
  { unfold lensy_inner3, lensy_cross3, vadd, vscale. cbn [e0 e1 e2].
    f_equal; ring. }
  rewrite HN, HA, HNA in E.
  replace w with ((1 * 1 - 0 * 0) *v w) at 1
    by (destruct w as [x y z]; unfold vscale; cbn [e0 e1 e2]; f_equal; ring).
  rewrite E. unfold vadd, vscale. cbn [e0 e1 e2]. f_equal; ring.
Qed.

Lemma sqrt_sum_squares_pos x y : x <> 0 -> 0 < sqrt (x * x + y * y).
Proof. intros Hx. apply sqrt_lt_R0. nra. Qed.

(** The sine of [atan2 y x], for [x <> 0]. *)
Lemma sin_atan2 y x :
  x <> 0 -> sin (atan2 y x) = y / sqrt (x * x + y * y).
Proof.
  intros Hx. pose proof (sqrt_sum_squares_pos x y Hx) as Hr.
  assert (Hq : sqrt (1 + (y / x)²) = sqrt (x * x + y * y) / Rabs x).
  { apply sqrt_is.
    - apply Rlt_le, Rdiv_lt_0_compat; [exact Hr | now apply Rabs_pos_lt].
    - pose proof (sqrt_sqrt (x * x + y * y)) as E.
      assert (Ha : Rabs x * Rabs x = x * x).
      { unfold Rabs. destruct (Rcase_abs x); ring. }
      assert (Hax : Rabs x <> 0) by (apply Rabs_no_R0; exact Hx).
      unfold Rsqr. field_simplify_eq; [|split; assumption].
      assert (E' : sqrt (x * x + y * y) ^ 2 = x * x + y * y)
        by (simpl; rewrite Rmult_1_r; apply E; nra).
      assert (Ha' : Rabs x ^ 2 = x * x) by (rewrite <- Ha; ring).
      rewrite E', Ha'. ring. }
  unfold atan2.
  destruct (Rlt_dec 0 x) as [Hpos | Hnpos].
  - rewrite sin_atan, Hq, Rabs_right by lra. field. split; lra.
  - destruct (Rlt_dec x 0) as [Hneg | Hnneg]; [|exfalso; lra].
    assert (Hs : - sin (atan (y / x)) = y / sqrt (x * x + y * y)).
    { rewrite sin_atan, Hq, Rabs_left by lra. field. split; lra. }
    destruct (Rlt_dec y 0).
    + unfold Rminus. rewrite <- Hs.
      replace (atan (y / x) + - PI) with (- (- atan (y / x) + PI)) by ring.
      rewrite sin_neg, neg_sin, sin_neg. ring.
    + rewrite neg_sin. exact Hs.
Qed.

Lemma inner3_scale_l k a b : lensy_inner3 (k *v a) b = k * lensy_inner3 a b.
Proof. unfold lensy_inner3, vscale. cbn [e0 e1 e2]. ring. Qed.

(** The diffracted direction in the grating's frame. *)
Lemma diffract_closed_form a wli wlt m st st' :
  lensy_redirect_diffract a wli wlt m st = Ret (0%Z, st') ->
  let d := ray_d (f_r st) in
  let n := f_n st in
  let N := grating_n n in
  let A := grating_a_hat n a in
  let T := grating_t_hat n a in
  let al := grating_alpha d n in
  let be := grating_beta d n a in
  let g := grating_gamma d n a in
  exists kn ka,
    (lensy_inner3 N N = 1 /\ lensy_inner3 A A = 1 /\ lensy_inner3 N A = 0
     /\ lensy_inner3 T T = 1 /\ lensy_inner3 T N = 0 /\ lensy_inner3 T A = 0)
    /\ 0 < lensy_mag3 n /\ 0 < lensy_mag3 d
    /\ al * al + be * be + g * g = 1 /\ al <> 0 /\ wli <> 0
    /\ d = lensy_mag3 d *v (g *v T +v al *v N +v be *v A)
    /\ 0 < kn /\ kn * kn + ka * ka + g * g = 1
    /\ ka = (be / wli + IZR m / lensy_mag3 a) * wlt
    /\ ray_d (f_r st') = lensy_mag3 d *v (g *v T +v kn *v N +v ka *v A).
Proof.
  intros Hrun d n N A T al be g.
  pose proof (runs_elim True _ _ _ _ _
                (diffract_closed_form_run a wli wlt m st) Hrun eq_refl) as H.
  cbv zeta in H. fold d n in H. fold g in H.
  destruct H as (Hn & Hd & Ha & Hal & Hwli & Hma & Hg & Hs & Hd').
  destruct (grating_frame n a Hn Ha) as (HN & HA & HNA & HT & HTN & HTA).
  fold N A T in HN, HA, HNA, HT, HTN, HTA.
  set (s := grating_sine d n a wli wlt m (lensy_mag3 a)) in *.
  set (rho := sqrt (1 - g * g)) in *.
  assert (Hrho : 0 < rho) by (apply sqrt_lt_R0; lra).
  assert (Hrr : rho * rho = 1 - g * g) by (apply sqrt_sqrt; lra).
  assert (Hw : lensy_inner3 (grating_w0 d) (grating_w0 d) = 1)
    by (apply inner3_unit_scaled; exact Hd).
  pose proof (frame_expansion (grating_w0 d) N A HN HA HNA) as Hexp.
  change (lensy_cross3 A N) with T in Hexp.
  change (lensy_inner3 (grating_w0 d) T) with g in Hexp.
  change (lensy_inner3 (grating_w0 d) N) with al in Hexp.
  change (lensy_inner3 (grating_w0 d) A) with be in Hexp.
  assert (Hsum : al * al + be * be + g * g = 1).
  { rewrite <- Hw. rewrite Hexp at 1 2.
    transitivity (g * g * lensy_inner3 T T + al * al * lensy_inner3 N N
                  + be * be * lensy_inner3 A A
                  + 2 * g * al * lensy_inner3 T N
                  + 2 * g * be * lensy_inner3 T A
                  + 2 * al * be * lensy_inner3 N A).
    - rewrite HN, HA, HNA, HT, HTN, HTA. ring.
    - unfold lensy_inner3, vadd, vscale. cbn [e0 e1 e2]. ring. }
  assert (Hroot : sqrt (- al * - al + be * be) = rho).
  { unfold rho. f_equal. lra. }
  assert (Hs1 : 0 < 1 - s * s).
  { apply Rabs_def2 in Hs.
    assert (0 < (1 - s) * (1 + s)) by (apply Rmult_lt_0_compat; lra). lra. }
  exists (sqrt (1 - s * s) * rho), (s * rho).
  split; [repeat split; assumption|].
  split; [apply mag3_pos; exact Hn|].
  split; [apply mag3_pos; exact Hd|].
  split; [exact Hsum|]. split; [exact Hal|]. split; [exact Hwli|].
  split; [|split; [|split; [|split]]].
  - rewrite <- Hexp. unfold grating_w0, vscale. destruct d as [x y z].
    cbn [e0 e1 e2]. f_equal; field; exact Hd.
  - apply Rmult_lt_0_compat; [|exact Hrho]. apply sqrt_lt_R0. exact Hs1.
  - pose proof (sqrt_sqrt _ (Rlt_le _ _ Hs1)) as E.
    set (c := sqrt (1 - s * s)) in *. nra.
  - change (al <> 0) in Hal.
    assert (Hal' : - al <> 0) by (intros E; apply Hal; lra).
    unfold s, grating_sine, grating_phi_i, grating_k.
    change (grating_alpha d n) with al. change (grating_beta d n a) with be.
    change (grating_gamma d n a) with g. fold rho.
    rewrite (sin_atan2 be (- al) Hal'), Hroot.
    field. repeat split; try assumption; lra.
  - exact Hd'.
Qed.

(** When the routine succeeds. *)
Lemma diffract_runs a wli wlt m st :
  let d := ray_d (f_r st) in
  let n := f_n st in
  lensy_mag3 n <> 0 -> lensy_mag3 d <> 0 ->
  lensy_mag3 (grating_a_perp n a) <> 0 ->
  grating_alpha d n <> 0 -> wli <> 0 ->
  Rabs ((grating_beta d n a / wli + IZR m / lensy_mag3 a) * wlt)
  < sqrt (1 - grating_gamma d n a * grating_gamma d n a) ->
  runs False (lensy_redirect_diffract a wli wlt m) st (fun rc _ => rc = 0%Z).
Proof.
  intros d n Hn Hd Ha Hal Hwli Hs.
  destruct (grating_frame n a Hn Ha) as (HN & HA & HNA & HT & HTN & HTA).
  set (N := grating_n n) in *. set (A := grating_a_hat n a) in *.
  set (T := grating_t_hat n a) in *.
  set (al := grating_alpha d n) in *. set (be := grating_beta d n a) in *.
  set (g := grating_gamma d n a) in *.
  assert (Hw : lensy_inner3 (grating_w0 d) (grating_w0 d) = 1)
    by (apply inner3_unit_scaled; exact Hd).
  pose proof (frame_expansion (grating_w0 d) N A HN HA HNA) as Hexp.
  change (lensy_cross3 A N) with T in Hexp.
  change (lensy_inner3 (grating_w0 d) T) with g in Hexp.
  change (lensy_inner3 (grating_w0 d) N) with al in Hexp.
  change (lensy_inner3 (grating_w0 d) A) with be in Hexp.
  assert (Hsum : al * al + be * be + g * g = 1).
  { rewrite <- Hw. rewrite Hexp at 1 2.
    transitivity (g * g * lensy_inner3 T T + al * al * lensy_inner3 N N
                  + be * be * lensy_inner3 A A
                  + 2 * g * al * lensy_inner3 T N
                  + 2 * g * be * lensy_inner3 T A
                  + 2 * al * be * lensy_inner3 N A).
    - rewrite HN, HA, HNA, HT, HTN, HTA. ring.
    - unfold lensy_inner3, vadd, vscale. cbn [e0 e1 e2]. ring. }
  assert (Hg : g * g < 1).
  { assert (0 < al * al) by (destruct (Rtotal_order al 0) as [?|[?|?]]; nra).
    pose proof (Rle_0_sqr be) as Hb. unfold Rsqr in Hb. lra. }
  set (rho := sqrt (1 - g * g)) in *.
  assert (Hrho : 0 < rho) by (apply sqrt_lt_R0; lra).
  assert (Hrr : rho * rho = 1 - g * g) by (apply sqrt_sqrt; lra).
  assert (Hma : lensy_mag3 a <> 0).
  { intros E. apply Ha. unfold lensy_mag3 in E.
    assert (Ez : a = vzero).
    { apply inner3_self_zero.
      pose proof (sqrt_sqrt _ (inner3_self_nonneg a)) as Q. rewrite E in Q. lra. }
    rewrite Ez. unfold grating_a_perp, lensy_mag3, lensy_inner3, vsub, vscale,
      vzero. cbn [e0 e1 e2].
    match goal with |- sqrt ?X = 0 => replace X with 0 by ring end.
    apply sqrt_0. }
  unfold lensy_redirect_diffract.
  do 8 run_step. cbn [with_p ray_d]. fold d n.
  run_step; try solve [contradiction]. run_step. run_step; try solve [assumption].
  rewrite vdiv_is_scale by assumption.
  change ((1 / lensy_mag3 n) *v n) with N.
  run_step; try solve [contradiction]. run_step. run_step; try solve [assumption].
  rewrite vdiv_is_scale by assumption.
  change ((1 / lensy_mag3 d) *v d) with (grating_w0 d).
  change (a -v lensy_inner3 a N *v N) with (grating_a_perp n a).
  run_step; try solve [contradiction]. run_step. run_step; try solve [assumption].
  rewrite vdiv_is_scale by assumption.
  change ((1 / lensy_mag3 (grating_a_perp n a)) *v grating_a_perp n a) with A.
  change (lensy_cross3 A N) with T.
  change (lensy_inner3 (grating_w0 d) N) with al.
  change (lensy_inner3 (grating_w0 d) A) with be.
  change (lensy_inner3 (grating_w0 d) T) with g.
  run_step; try solve [contradiction].
  run_step; try solve [exfalso; nra].
  run_step. run_step; try solve [lra]. fold rho.
  run_step. run_step; try solve [lra].
  run_step. run_step.
  { intros E. destruct (Rmult_integral _ _ E) as [E1|E1]; [contradiction|].
    apply (Rinv_neq_0_compat rho); [lra|]. unfold Rdiv in E1. lra. }
  run_step. run_step; try solve [assumption].
  assert (Hal' : - al <> 0) by (intros E; apply Hal; lra).
  assert (Hroot : sqrt (- al * - al + be * be) = rho).
  { unfold rho. f_equal. lra. }
  rewrite (sin_atan2 be (- al) Hal'), Hroot.
  assert (Hsv : (be / rho / (wli * (1 / rho)) + IZR m / lensy_mag3 a)
                * (wlt * (1 / rho))
                = (be / wli + IZR m / lensy_mag3 a) * wlt / rho).
  { field. repeat split; try assumption; lra. }
  rewrite Hsv.
  set (x := (be / wli + IZR m / lensy_mag3 a) * wlt) in *.
  assert (Hx : Rabs (x / rho) < 1).
  { unfold Rdiv. rewrite Rabs_mult, (Rabs_right (/ rho)).
    - apply (Rmult_lt_reg_r rho); [exact Hrho|].
      rewrite Rmult_assoc, Rinv_l, Rmult_1_r, Rmult_1_l by lra. exact Hs.
    - apply Rle_ge, Rlt_le, Rinv_0_lt_compat, Hrho. }
  run_step; try solve [lra].
  run_step. run_step; try solve [lra].
  assert (Hk : 1 / rho <> 0).
  { unfold Rdiv. rewrite Rmult_1_l. apply Rinv_neq_0_compat. lra. }
  run_step. run_step; try solve [contradiction].
  run_step. run_step; try solve [contradiction].
  run_all. reflexivity.
Qed.

Lemma oblique_grating_values :
  let d := V3 3 0 (-4) in
  let n := V3 0 0 1 in
  lensy_mag3 n = 1 /\ lensy_mag3 d = 5 /\ lensy_mag3 grating_along_x = 2
  /\ lensy_mag3 (grating_a_perp n grating_along_x) = 2
  /\ grating_alpha d n = - (4 / 5)
  /\ grating_beta d n grating_along_x = 3 / 5
  /\ grating_gamma d n grating_along_x = 0.
Proof.
  cbv zeta.
  unfold grating_gamma, grating_beta, grating_alpha, grating_t_hat,
    grating_a_hat, grating_a_perp, grating_w0, grating_n, grating_along_x.
  vec_cbn.
  repeat first [sqrt_val 1 | sqrt_val 2 | sqrt_val 5].
  repeat split; lra.
Qed.

Lemma oblique_grating_run (m : Z) :
  (m = 0 \/ m = 1)%Z ->
  exists st',
    lensy_redirect_diffract grating_along_x (1 / 5) (1 / 5) m
      oblique_grating_frame = Ret (0%Z, st').
Proof.
  intros Hm. apply runs_code.
  destruct oblique_grating_values as (Hn & Hd & Ha & Hp & Hal & Hbe & Hg).
  apply diffract_runs; cbn [oblique_grating_frame f_r f_n ray_d ray_of].
  - rewrite Hn. lra.
  - rewrite Hd. lra.
  - rewrite Hp. lra.
  - rewrite Hal. lra.
  - lra.
  - rewrite Hbe, Ha, Hg. replace (1 - 0 * 0) with 1 by ring. rewrite sqrt_1.
    destruct Hm as [-> | ->]; rewrite Rabs_right; lra.
Qed.

Lemma inner3_frame_combination T N A x y z x' y' z' :
  lensy_inner3 N N = 1 -> lensy_inner3 A A = 1 -> lensy_inner3 N A = 0 ->
  lensy_inner3 T T = 1 -> lensy_inner3 T N = 0 -> lensy_inner3 T A = 0 ->
  lensy_inner3 (x *v T +v y *v N +v z *v A) (x' *v T +v y' *v N +v z' *v A)
  = x * x' + y * y' + z * z'.
Proof.
  intros HN HA HNA HT HTN HTA.
  transitivity (x * x' * lensy_inner3 T T + y * y' * lensy_inner3 N N
                + z * z' * lensy_inner3 A A
                + (x * y' + y * x') * lensy_inner3 T N
                + (x * z' + z * x') * lensy_inner3 T A
                + (y * z' + z * y') * lensy_inner3 N A).
  - unfold lensy_inner3, vadd, vscale. cbn [e0 e1 e2]. ring.
  - rewrite HN, HA, HNA, HT, HTN, HTA. ring.
Qed.

(** X7: a diffraction that returns 0 keeps the magnitude of the ray
    direction, for every grating vector, normal, order and wavelengths. *)
Theorem diffract_preserves_magnitude a wli wlt m st st' :
  lensy_redirect_diffract a wli wlt m st = Ret (0%Z, st') ->
  lensy_mag3 (ray_d (f_r st')) = lensy_mag3 (ray_d (f_r st)).
Proof.
  intros Hrun.
  destruct (diffract_closed_form a wli wlt m st st' Hrun)
    as (kn & ka & (HN & HA & HNA & HT & HTN & HTA) & _ & Hd & _ & _ & _ & _ & _
        & Hk & _ & ->).
  set (D0 := lensy_mag3 (ray_d (f_r st))) in *.
  apply sqrt_is; [lra|].
  rewrite inner3_scale_l, inner3_scale_r.
  rewrite inner3_frame_combination by assumption. nra.
Qed.

Lemma diffract_preserves_magnitude_witness :
  exists st',
    lensy_redirect_diffract grating_along_x (1 / 5) (1 / 5) 1
      oblique_grating_frame = Ret (0%Z, st')
    /\ lensy_mag3 (ray_d (f_r st')) = lensy_mag3 (V3 3 0 (-4)).
Proof.
  destruct (oblique_grating_run 1) as [st' Hrun]; [now right|].
  exists st'. split; [exact Hrun|].
  exact (diffract_preserves_magnitude _ _ _ _ _ st' Hrun).
Defined.

(** X8: a diffraction that returns 0 sends the ray to the side the normal
    [n] points to: [0 < <d', n>], whichever side the ray came from (a
    reflection grating for a ray that arrives against [n], a transmission
    grating for one that arrives along it). *)
Theorem diffract_leaves_on_normal_side a wli wlt m st st' :
  lensy_redirect_diffract a wli wlt m st = Ret (0%Z, st') ->
  0 < lensy_inner3 (ray_d (f_r st')) (f_n st).
Proof.
  intros Hrun.
  destruct (diffract_closed_form a wli wlt m st st' Hrun)
    as (kn & ka & (HN & HA & HNA & HT & HTN & HTA) & Hn & Hd & _ & _ & _ & _
        & Hkn & _ & _ & ->).
  set (D0 := lensy_mag3 (ray_d (f_r st))) in *.
  set (N := grating_n (f_n st)) in *.
  set (A := grating_a_hat (f_n st) a) in *.
  set (T := grating_t_hat (f_n st) a) in *.
  assert (En : f_n st = lensy_mag3 (f_n st) *v N).
  { unfold N, grating_n, vscale. destruct (f_n st) as [x y z].
    cbn [e0 e1 e2]. f_equal; field; lra. }
  rewrite En at 2. rewrite inner3_scale_l, inner3_scale_r.
  replace N with (0 *v T +v 1 *v N +v 0 *v A) at 2
    by (unfold vadd, vscale; destruct N; cbn; f_equal; ring).
  rewrite inner3_frame_combination by assumption.
  apply Rmult_lt_0_compat; [exact Hd|].
  apply Rmult_lt_0_compat; [exact Hn|]. lra.
Qed.

Lemma diffract_leaves_on_normal_side_witness :
  exists st',
    lensy_redirect_diffract grating_along_x (1 / 5) (1 / 5) 1
      oblique_grating_frame = Ret (0%Z, st')
    /\ 0 < lensy_inner3 (ray_d (f_r st')) (V3 0 0 1).
Proof.
  destruct (oblique_grating_run 1) as [st' Hrun]; [now right|].
  exists st'. split; [exact Hrun|].
  exact (diffract_leaves_on_normal_side _ _ _ _ _ st' Hrun).
Defined.

(** X9: the grating equation on direction cosines.  With the unit
    vectors [T] (along the rulings) and [A] (in the surface, across them),
    a diffraction that returns 0 keeps the cosine along [T] and changes the
    cosine along [A] to [(<w, A> / wli + m / |a|) wlt]. *)
Theorem diffract_grating_equation a wli wlt m st st' :
  lensy_redirect_diffract a wli wlt m st = Ret (0%Z, st') ->
  let d := ray_d (f_r st) in
  let w := (1 / lensy_mag3 d) *v d in
  let w' := (1 / lensy_mag3 d) *v ray_d (f_r st') in
  lensy_inner3 w' (grating_t_hat (f_n st) a)
  = lensy_inner3 w (grating_t_hat (f_n st) a)
  /\ lensy_inner3 w' (grating_a_hat (f_n st) a)
     = (lensy_inner3 w (grating_a_hat (f_n st) a) / wli
        + IZR m / lensy_mag3 a) * wlt.
Proof.
  intros Hrun d w w'. subst w w'.
  destruct (diffract_closed_form a wli wlt m st st' Hrun)
    as (kn & ka & (HN & HA & HNA & HT & HTN & HTA) & Hn & Hd & _ & _ & _ & _
        & Hkn & _ & Hka & ->).
  fold d in Hd, Hka |- *.
  change (lensy_inner3 ((1 / lensy_mag3 d) *v d) (grating_t_hat (f_n st) a))
    with (grating_gamma d (f_n st) a).
  change (lensy_inner3 ((1 / lensy_mag3 d) *v d) (grating_a_hat (f_n st) a))
    with (grating_beta d (f_n st) a).
  rewrite <- Hka.
  set (g := grating_gamma d (f_n st) a) in *.
  set (N := grating_n (f_n st)) in *.
  set (A := grating_a_hat (f_n st) a) in *.
  set (T := grating_t_hat (f_n st) a) in *.
  set (D0 := lensy_mag3 d) in *.
  rewrite !inner3_scale_l.
  replace T with (1 *v T +v 0 *v N +v 0 *v A) at 2
    by (unfold vadd, vscale; destruct T; cbn; f_equal; ring).
  replace A with (0 *v T +v 0 *v N +v 1 *v A) at 4
    by (unfold vadd, vscale; destruct A; cbn; f_equal; ring).
  rewrite !inner3_frame_combination by assumption.
  split; field; lra.
Qed.

Lemma diffract_grating_equation_witness :
  exists st',
    lensy_redirect_diffract grating_along_x (1 / 5) (1 / 5) 1
      oblique_grating_frame = Ret (0%Z, st')
    /\ lensy_inner3 ((1 / lensy_mag3 (V3 3 0 (-4))) *v ray_d (f_r st'))
         (grating_a_hat (V3 0 0 1) grating_along_x)
       = (lensy_inner3 ((1 / lensy_mag3 (V3 3 0 (-4))) *v V3 3 0 (-4))
            (grating_a_hat (V3 0 0 1) grating_along_x) / (1 / 5)
          + IZR 1 / lensy_mag3 grating_along_x) * (1 / 5).
Proof.
  destruct (oblique_grating_run 1) as [st' Hrun]; [now right|].
  exists st'. split; [exact Hrun|].
  exact (proj2 (diffract_grating_equation _ _ _ _ _ st' Hrun)).
Defined.

(** X10: order 0 with equal wavelengths: a ray that arrives against the
    normal is reflected as by a mirror, a ray that arrives along the normal
    keeps its direction. *)
Theorem diffract_zero_order a wl st st' :
  lensy_redirect_diffract a wl wl 0 st = Ret (0%Z, st') ->
  let d := ray_d (f_r st) in
  let N := grating_n (f_n st) in
  (lensy_inner3 d (f_n st) < 0 ->
   ray_d (f_r st') = d -v (2 * lensy_inner3 d N) *v N)
  /\ (0 < lensy_inner3 d (f_n st) -> ray_d (f_r st') = d).
Proof.
  intros Hrun d N.
  destruct (diffract_closed_form a wl wl 0 st st' Hrun)
    as (kn & ka & (HN & HA & HNA & HT & HTN & HTA) & Hn & Hd & Hsum & Hal
        & Hwl & Hexp & Hkn & Hk & Hka & ->).
  fold d N in HN, HA, HNA, HT, HTN, HTA, Hd, Hsum, Hal, Hexp, Hka, Hk |- *.
  set (A := grating_a_hat (f_n st) a) in *.
  set (T := grating_t_hat (f_n st) a) in *.
  set (al := grating_alpha d (f_n st)) in *.
  set (be := grating_beta d (f_n st) a) in *.
  set (g := grating_gamma d (f_n st) a) in *.
  set (D0 := lensy_mag3 d) in *.
  assert (Ea : ka = be).
  { rewrite Hka. replace (0 / lensy_mag3 a) with 0 by (unfold Rdiv; ring).
    field. exact Hwl. }
  assert (EdN : lensy_inner3 d N = D0 * al).
  { rewrite Hexp at 1. rewrite inner3_scale_l.
    replace N with (0 *v T +v 1 *v N +v 0 *v A) at 2
      by (unfold vadd, vscale; destruct N; cbn; f_equal; ring).
    rewrite inner3_frame_combination by assumption. ring. }
  assert (Edn : lensy_inner3 d (f_n st) = lensy_mag3 (f_n st) * (D0 * al)).
  { rewrite <- EdN. unfold N, grating_n. rewrite inner3_scale_r.
    field. lra. }
  assert (Hkk : kn * kn = al * al) by (rewrite Ea in Hk; lra).
  split; intros Hside; rewrite Edn in Hside.
  - assert (Hneg : al < 0).
    { destruct (Rlt_dec al 0) as [Hl | Hg]; [exact Hl | exfalso].
      assert (0 <= lensy_mag3 (f_n st) * (D0 * al))
        by (apply Rmult_le_pos; [lra | apply Rmult_le_pos; lra]).
      lra. }
    assert (Ek : kn = - al).
    { assert (E : (kn + al) * (kn - al) = 0) by lra.
      destruct (Rmult_integral _ _ E); lra. }
    rewrite EdN, Ek, Ea. rewrite Hexp at 1.
    unfold vadd, vsub, vscale. cbn [e0 e1 e2]. f_equal; ring.
  - assert (Hpos : 0 < al).
    { destruct (Rlt_dec 0 al) as [Hl | Hg]; [exact Hl | exfalso].
      assert (0 <= lensy_mag3 (f_n st) * (D0 * - al))
        by (apply Rmult_le_pos; [lra | apply Rmult_le_pos; lra]).
      lra. }
    assert (Ek : kn = al).
    { assert (E : (kn + al) * (kn - al) = 0) by lra.
      destruct (Rmult_integral _ _ E); lra. }
    rewrite Ek, Ea. symmetry. exact Hexp.
Qed.

Lemma diffract_zero_order_witness :
  exists st',
    lensy_redirect_diffract grating_along_x (1 / 5) (1 / 5) 0
      oblique_grating_frame = Ret (0%Z, st')
    /\ ray_d (f_r st')
       = V3 3 0 (-4)
         -v (2 * lensy_inner3 (V3 3 0 (-4)) (grating_n (V3 0 0 1)))
            *v grating_n (V3 0 0 1).
Proof.
  destruct (oblique_grating_run 0) as [st' Hrun]; [now left|].
  exists st'. split; [exact Hrun|].
  refine (proj1 (diffract_zero_order _ _ oblique_grating_frame st' Hrun) _).
  unfold oblique_grating_frame. vec_cbn. lra.
Defined.

(** X11: when the order exists the routine returns 0.  The normal, the
    direction and the in-plane part of the grating vector are not null, the
    ray is not in the surface, [wli] is not 0 and the outgoing in-plane sine
    is below [sqrt (1 - gamma^2)] in absolute value: then
    [lensy_redirect_diffract] returns 0, with no undefined arithmetic. *)
Theorem diffract_succeeds a wli wlt m st :
  let d := ray_d (f_r st) in
  let n := f_n st in
  lensy_mag3 n <> 0 -> lensy_mag3 d <> 0 ->
  lensy_mag3 (grating_a_perp n a) <> 0 ->
  grating_alpha d n <> 0 -> wli <> 0 ->
  Rabs ((grating_beta d n a / wli + IZR m / lensy_mag3 a) * wlt)
  < sqrt (1 - grating_gamma d n a * grating_gamma d n a) ->
  exists st', lensy_redirect_diffract a wli wlt m st = Ret (0%Z, st').
Proof.
  intros d n Hn Hd Ha Hal Hwli Hs. apply runs_code.
  now apply diffract_runs.
Qed.

Lemma diffract_succeeds_witness :
  exists st',
    lensy_redirect_diffract grating_along_x (1 / 5) (1 / 5) 1
      oblique_grating_frame = Ret (0%Z, st').
Proof.
  destruct oblique_grating_values as (Hn & Hd & Ha & Hp & Hal & Hbe & Hg).
  apply (diffract_succeeds grating_along_x (1 / 5) (1 / 5) 1
           oblique_grating_frame);
    cbn [oblique_grating_frame f_r f_n ray_d ray_of].
  - rewrite Hn. lra.
  - rewrite Hd. lra.
  - rewrite Hp. lra.
  - rewrite Hal. lra.
  - lra.
  - rewrite Hbe, Ha, Hg. replace (1 - 0 * 0) with 1 by ring. rewrite sqrt_1.
    rewrite Rabs_right; lra.
Defined.

Lemma diffract_frame_run a wli wlt m st :
  runs True (lensy_redirect_diffract a wli wlt m) st
    (fun rc st' =>
       (rc = 0%Z \/ rc = (-2)%Z)
       /\ f_q st' = f_q st /\ f_n st' = f_n st
       /\ ray_p (f_r st') = f_q st
       /\ ray_wavelength (f_r st') = ray_wavelength (f_r st)
       /\ (rc = (-2)%Z -> ray_d (f_r st') = ray_d (f_r st))).
Proof.
  unfold lensy_redirect_diffract. run_all.
  all: cbn [with_d with_p ray_p ray_d ray_wavelength].
  all: repeat split; auto; try discriminate.
Qed.

(** X12: whatever [lensy_redirect_diffract] returns, the code is 0 or -2,
    the caller's [q] and [n] are untouched, the ray has been moved to [q]
    and keeps its wavelength; on -2 the direction is unchanged as well. *)
Theorem diffract_answers a wli wlt m st rc st' :
  lensy_redirect_diffract a wli wlt m st = Ret (rc, st') ->
  (rc = 0%Z \/ rc = (-2)%Z)
  /\ f_q st' = f_q st /\ f_n st' = f_n st
  /\ ray_p (f_r st') = f_q st
  /\ ray_wavelength (f_r st') = ray_wavelength (f_r st)
  /\ (rc = (-2)%Z -> ray_d (f_r st') = ray_d (f_r st)).
Proof.
  intros Hrun.
  exact (runs_elim True _ _ _ _ _ (diffract_frame_run a wli wlt m st) Hrun).
Qed.

Lemma diffract_answers_witness :
  exists st',
    lensy_redirect_diffract grating_along_x (1 / 5) (1 / 5) 1
      oblique_grating_frame = Ret (0%Z, st')
    /\ (0 = 0 \/ 0 = -2)%Z
    /\ f_q st' = V3 0 0 0 /\ f_n st' = V3 0 0 1
    /\ ray_p (f_r st') = V3 0 0 0
    /\ ray_wavelength (f_r st') = 0
    /\ ((0 = -2)%Z -> ray_d (f_r st') = V3 3 0 (-4)).
Proof.
  destruct (oblique_grating_run 1) as [st' Hrun]; [now right|].
  exists st'. split; [exact Hrun|].
  exact (diffract_answers grating_along_x (1 / 5) (1 / 5) 1
           oblique_grating_frame 0%Z st' Hrun).
Defined.

(** * Reflection *)

Lemma reflect_run st :
  lensy_redirect_reflect st
  = Ret (tt, Frame (with_d (with_p (f_r st) (f_q st))
                      (ray_d (f_r st)
                       +v (-2 * lensy_inner3 (ray_d (f_r st)) (f_n st))
                          *v f_n st))
                   (f_q st) (f_n st)).
Proof. reflexivity. Qed.

(** X13: the law of reflection.  On a unit normal [lensy_redirect_reflect]
    reverses the normal component of the direction and keeps the part in
    the surface: [<d', n> = - <d, n>] and [d' x n = d x n]. *)
Theorem reflect_law (st : frame) :
  lensy_mag3 (f_n st) = 1 ->
  exists st',
    lensy_redirect_reflect st = Ret (tt, st')
    /\ lensy_inner3 (ray_d (f_r st')) (f_n st)
       = - lensy_inner3 (ray_d (f_r st)) (f_n st)
    /\ lensy_cross3 (ray_d (f_r st')) (f_n st)
       = lensy_cross3 (ray_d (f_r st)) (f_n st).
Proof.
  intros Hn. eexists. split; [apply reflect_run|].
  cbn [f_r with_d ray_d]. apply mag3_one_inner in Hn.
  set (d := ray_d (f_r st)) in *. set (n := f_n st) in *.
  split.
  - transitivity (lensy_inner3 d n
                  - 2 * lensy_inner3 d n * lensy_inner3 n n).
    + unfold lensy_inner3, vadd, vscale. cbn [e0 e1 e2]. ring.
    + rewrite Hn. ring.
  - unfold lensy_cross3, lensy_inner3, vadd, vscale. cbn [e0 e1 e2].
    f_equal; ring.
Qed.

Lemma reflect_law_witness :
  exists st',
    lensy_redirect_reflect mirror_frame = Ret (tt, st')
    /\ lensy_inner3 (ray_d (f_r st')) (V3 1 0 0)
       = - lensy_inner3 (V3 1 1 0) (V3 1 0 0)
    /\ lensy_cross3 (ray_d (f_r st')) (V3 1 0 0)
       = lensy_cross3 (V3 1 1 0) (V3 1 0 0).
Proof. exact (reflect_law mirror_frame unit_x). Defined.

(** X14: reflecting twice in the same unit normal gives the direction
    back: after two calls the ray is the original one moved to [q]. *)
Theorem reflect_twice (st : frame) :
  lensy_mag3 (f_n st) = 1 ->
  (lensy_redirect_reflect ;; lensy_redirect_reflect) st
  = Ret (tt, Frame (with_p (f_r st) (f_q st)) (f_q st) (f_n st)).
Proof.
  intros Hn. unfold bind. rewrite reflect_run, reflect_run.
  cbn [f_r f_q f_n with_d with_p ray_d ray_p ray_wavelength ray_red ray_green
       ray_blue ray_pathkey].
  apply mag3_one_inner in Hn.
  set (d := ray_d (f_r st)) in *. set (n := f_n st) in *.
  assert (E : d +v (-2 * lensy_inner3 d n) *v n
              +v (-2 * lensy_inner3 (d +v (-2 * lensy_inner3 d n) *v n) n) *v n
              = d).
  { assert (K : lensy_inner3 (d +v (-2 * lensy_inner3 d n) *v n) n
                = - lensy_inner3 d n).
    { transitivity (lensy_inner3 d n
                    - 2 * lensy_inner3 d n * lensy_inner3 n n).
      - unfold lensy_inner3, vadd, vscale. cbn [e0 e1 e2]. ring.
      - rewrite Hn. ring. }
    rewrite K. destruct d as [x y z]. unfold vadd, vscale. cbn [e0 e1 e2].
    f_equal; ring. }
  rewrite E. unfold with_p. subst d. destruct (f_r st). reflexivity.
Qed.

Lemma reflect_twice_witness :
  (lensy_redirect_reflect ;; lensy_redirect_reflect) mirror_frame
  = Ret (tt, Frame (with_p (f_r mirror_frame) (f_q mirror_frame))
                   (f_q mirror_frame) (f_n mirror_frame)).
Proof. exact (reflect_twice mirror_frame unit_x). Defined.

(** * The point of a hit *)











(** * The paraboloid mirror *)










Lemma runs_returns {S A} (c : M S A) s Q :
  runs False c s Q -> exists a s', c s = Ret (a, s') /\ Q a s'.
Proof.
  unfold runs. destruct (c s) as [| |[a s']]; try tauto.
  intros H. now exists a, s'.
Qed.



(** * The side of the normal, and the plane *)



















Lemma plane_answers_run p st :
  let r := f_r st in
  let dn := lensy_inner3 (ray_d r) (plane_n p) in
  let t := (lensy_inner3 (plane_v p) (plane_n p)
            - lensy_inner3 (ray_p r) (plane_n p)) / dn in
  runs False (lensy_intersect_plane p) st
    (fun rc st' =>
       (rc = 0 \/ rc = -1 \/ rc = -2)%Z
       /\ (rc = (-2)%Z <-> dn = 0 \/ t < 0)
       /\ (rc = (-2)%Z -> f_q st' = ray_p r /\ f_n st' = f_n st)
       /\ (rc <> (-2)%Z ->
           f_q st' = ray_p r +v t *v ray_d r
           /\ (rc = (-1)%Z <->
               plane_aperture p / 2 < lensy_mag3 (f_q st' -v plane_v p)))).
Proof.
  intros r dn t. unfold_routines. subst r.
  do 5 run_step. fold dn.
  run_step.
  { run_step. repeat split; auto; try tauto; try (intros; congruence). }
  run_step. run_step.
  change ((lensy_inner3 (plane_v p) (plane_n p)
           - lensy_inner3 (ray_p (f_r st)) (plane_n p)) / d1) with t.
  run_step.
  { run_step. repeat split; auto; try tauto; try (intros; congruence). }
  do 3 run_step.
  run_step.
  { exfalso. apply n. unfold d1, dn.
    assert (E : plane_n p = vzero).
    { assert (Hz : lensy_mag3 (plane_n p) = 0) by assumption.
      apply inner3_self_zero. rewrite <- mag3_sqr, Hz. ring. }
    rewrite E. unfold lensy_inner3, vzero. cbn [e0 e1 e2]. ring. }
  run_all.
  all: cbn [f_q f_n].
  all: repeat split; auto; try tauto; try discriminate; try (intros; lra).
  all: try (intros [E|E]; [contradiction | exfalso; lra]).
  all: try (intros E; discriminate E).
  all: try (intros E; exfalso; lra).
Qed.

(** X18: [lensy_intersect_plane] always returns, with one of the codes 0,
    -1, -2.  It returns -2 exactly when the ray is parallel to the plane
    ([<d, n> = 0], which includes a null normal) or the plane is behind the
    ray ([t < 0]); then [q] is the ray position and [n] is untouched.
    Otherwise [q = p + t d], and the code is -1 exactly when [q] is farther
    than half the aperture from [v]. *)
Theorem plane_answers p st :
  let r := f_r st in
  let dn := lensy_inner3 (ray_d r) (plane_n p) in
  let t := (lensy_inner3 (plane_v p) (plane_n p)
            - lensy_inner3 (ray_p r) (plane_n p)) / dn in
  exists rc st',
    lensy_intersect_plane p st = Ret (rc, st')
    /\ (rc = 0 \/ rc = -1 \/ rc = -2)%Z
    /\ (rc = (-2)%Z <-> dn = 0 \/ t < 0)
    /\ (rc = (-2)%Z -> f_q st' = ray_p r /\ f_n st' = f_n st)
    /\ (rc <> (-2)%Z ->
        f_q st' = ray_p r +v t *v ray_d r
        /\ (rc = (-1)%Z <->
            plane_aperture p / 2 < lensy_mag3 (f_q st' -v plane_v p))).
Proof.
  intros r dn t. apply runs_returns. apply plane_answers_run.
Qed.

(** * The ray generators: edge cases *)

Lemma off_axis_mag3 d : e0 d <> 0 \/ e1 d <> 0 -> lensy_mag3 d <> 0.
Proof.
  intros Hxy E. pose proof (mag3_sqr d) as Q. rewrite E in Q.
  unfold lensy_inner3 in Q. destruct Hxy as [H|H]; apply H; nra.
Qed.

Lemma bind_ret {S A B} (a : A) (k : A -> M S B) : bind (ret a) k = k a.
Proof. reflexivity. Qed.

Lemma fdiv_ret {S} x y : y <> 0 -> @fdiv S x y = ret (x / y).
Proof.
  intros Hy. unfold fdiv. destruct (Req_dec_T y 0); [contradiction|reflexivity].
Qed.

Lemma fsqrt_ret {S} x : 0 <= x -> @fsqrt S x = ret (sqrt x).
Proof.
  intros Hx. unfold fsqrt. destruct (Rlt_dec x 0); [exfalso; lra|reflexivity].
Qed.

Lemma vdiv_ret {S} a k :
  k <> 0 -> @vdiv S a k = ret (V3 (e0 a / k) (e1 a / k) (e2 a / k)).
Proof.
  intros Hk. unfold vdiv. rewrite !fdiv_ret by exact Hk. reflexivity.
Qed.

(** The unit vector along an axis that is not along z has a part in the
    xy plane. *)
Lemma off_axis_unit d :
  e0 d <> 0 \/ e1 d <> 0 ->
  let w0 := (1 / lensy_mag3 d) *v d in
  0 < e0 w0 * e0 w0 + e1 w0 * e1 w0.
Proof.
  intros Hxy w0. pose proof (off_axis_mag3 _ Hxy) as Hd.
  unfold w0, vscale. cbn [e0 e1].
  assert (0 < (1 / lensy_mag3 d) * (1 / lensy_mag3 d)).
  { apply Rsqr_pos_lt. unfold Rdiv. rewrite Rmult_1_l.
    now apply Rinv_neq_0_compat. }
  set (k := 1 / lensy_mag3 d) in *.
  assert (Hp : 0 < e0 d * e0 d + e1 d * e1 d).
  { destruct Hxy as [H0|H0]; apply Rsqr_pos_lt in H0; unfold Rsqr in H0; nra. }
  replace (k * e0 d * (k * e0 d) + k * e1 d * (k * e1 d))
    with (k * k * (e0 d * e0 d + e1 d * e1 d)) by ring.
  now apply Rmult_lt_0_compat.
Qed.

Lemma beam_u00_bound d :
  e0 d <> 0 \/ e1 d <> 0 ->
  let w0 := (1 / lensy_mag3 d) *v d in
  let u00 := e1 w0 / sqrt (e0 w0 * e0 w0 + e1 w0 * e1 w0) in
  0 <= 1 - u00 * u00.
Proof.
  intros Hxy w0 u00. pose proof (off_axis_unit d Hxy) as Hw. fold w0 in Hw.
  unfold u00.
  set (q := sqrt (e0 w0 * e0 w0 + e1 w0 * e1 w0)) in *.
  assert (Hsq : 0 < q) by now apply sqrt_lt_R0.
  assert (Hq : q * q = e0 w0 * e0 w0 + e1 w0 * e1 w0)
    by (apply sqrt_sqrt; lra).
  assert (Hu : e1 w0 / q * (e1 w0 / q) <= 1).
  { apply Rmult_le_reg_r with (q * q); [nra|].
    replace (e1 w0 / q * (e1 w0 / q) * (q * q)) with (e1 w0 * e1 w0)
      by (field; lra).
    nra. }
  lra.
Qed.

(** The part of the beam routine before its loops: the basis. *)
Lemma beam_prelude malloc_ray fuel pr D s :
  e0 (ray_d pr) <> 0 \/ e1 (ray_d pr) <> 0 ->
  lensy_beam malloc_ray fuel pr D s
  = for_real fuel (- D / 2) (D / 2) s (fun d0 rc =>
      for_real fuel (- D / 2) (D / 2) s (fun d1 rc =>
        d2 <- fsqrt (d0 * d0 + d1 * d1) ;;
        if Rlt_dec (D / 2) d2 then ret rc else
        pray <- malloc malloc_ray ;;
        match pray with
        | Some _ => list_add (beam_ray pr (d0, d1)) ;; ret (rc + 1)%Z
        | None => ret rc
        end) rc) 0%Z.
Proof.
  intros Hxy. pose proof (off_axis_mag3 _ Hxy) as Hd.
  pose proof (off_axis_unit _ Hxy) as Hw.
  pose proof (beam_u00_bound _ Hxy) as Hu. cbv zeta in Hw, Hu.
  unfold lensy_beam.
  destruct (Req_dec_T (lensy_mag3 (ray_d pr)) 0) as [E|_]; [contradiction|].
  rewrite vdiv_ret by exact Hd. rewrite bind_ret.
  rewrite vdiv_is_scale by exact Hd.
  rewrite fsqrt_ret by lra. rewrite bind_ret.
  rewrite fdiv_ret by (apply Rgt_not_eq, sqrt_lt_R0; exact Hw).
  rewrite bind_ret.
  rewrite fsqrt_ret by exact Hu. rewrite bind_ret.
  reflexivity.
Qed.

(** A [double] loop whose step is not positive does not end, unless its
    body leaves the reals. *)
Lemma for_real_never_ends {S A} (body : R -> A -> M S A) hi step :
  step <= 0 ->
  (forall x acc s, body x acc s <> Undef) ->
  forall fuel x acc s,
    x < hi -> for_real fuel x hi step body acc s = OutOfFuel.
Proof.
  intros Hs Hbody. induction fuel as [|fuel IH]; intros x acc s Hx.
  - cbn [for_real]. destruct (Rlt_dec x hi); [reflexivity | contradiction].
  - cbn [for_real]. destruct (Rlt_dec x hi) as [_|Hn]; [|contradiction].
    unfold bind. pose proof (Hbody x acc s) as Hb.
    destruct (body x acc s) as [| |[acc' s']]; [contradiction | reflexivity |].
    apply IH. lra.
Qed.

Lemma for_real_no_round {S A} (body : R -> A -> M S A) fuel x hi step acc s :
  ~ x < hi -> for_real fuel x hi step body acc s = Ret (acc, s).
Proof.
  intros Hx. destruct fuel; cbn [for_real];
    destruct (Rlt_dec x hi); try contradiction; reflexivity.
Qed.

(** X19: with a pitch that is zero or negative and a positive diameter
    [lensy_beam] does not end: its [for] loops on a [double] never reach
    their bound (the run is out of fuel, whatever the fuel). *)
Theorem beam_never_ends malloc_ray pr D s h :
  e0 (ray_d pr) <> 0 \/ e1 (ray_d pr) <> 0 ->
  0 < D -> s <= 0 ->
  forall fuel, lensy_beam malloc_ray fuel pr D s h = OutOfFuel.
Proof.
  intros Hxy HD Hs fuel. rewrite beam_prelude by exact Hxy.
  apply for_real_never_ends; [exact Hs | | lra].
  intros x acc st E.
  rewrite for_real_never_ends in E; [discriminate | exact Hs | | lra].
  intros y acc' st'. unfold bind. rewrite fsqrt_ret by nra. unfold ret at 1.
  destruct (Rlt_dec (D / 2) (sqrt (x * x + y * y))); [discriminate|].
  unfold malloc. destruct (malloc_ray (h_calls st')); discriminate.
Qed.

Lemma beam_never_ends_witness :
  lensy_beam always_allocates 1000 ray_along_x 2 0 empty_heap = OutOfFuel.
Proof.
  apply (beam_never_ends always_allocates ray_along_x 2 0 empty_heap).
  - left. cbn. lra.
  - lra.
  - lra.
Defined.

(** X20: for a ray with a null direction [lensy_cone] and [lensy_beam]
    return 0 and leave the ray list and the allocator untouched. *)
Theorem null_direction_emits_nothing malloc_ray fuel pr x y h :
  ray_d pr = vzero ->
  lensy_cone malloc_ray pr x y h = Ret (0%Z, h)
  /\ lensy_beam malloc_ray fuel pr x y h = Ret (0%Z, h).
Proof.
  intros Hd. unfold lensy_cone, lensy_beam. rewrite Hd, mag3_vzero.
  destruct (Req_dec_T 0 0) as [_|Hn]; [|exfalso; apply Hn; reflexivity].
  split; reflexivity.
Qed.

Lemma null_direction_emits_nothing_witness :
  lensy_cone always_allocates (ray_of (V3 1 2 3) vzero) 10 2 empty_heap
  = Ret (0%Z, empty_heap)
  /\ lensy_beam always_allocates 5 (ray_of (V3 1 2 3) vzero) 10 2 empty_heap
     = Ret (0%Z, empty_heap).
Proof.
  exact (null_direction_emits_nothing always_allocates 5
           (ray_of (V3 1 2 3) vzero) 10 2 empty_heap eq_refl).
Defined.

(** X21: a beam along the z axis divides by zero: for a direction with
    [d.x = d.y = 0] and [d.z <> 0] the run of [lensy_beam] leaves the reals
    (the C code computes with NaN from there). *)
Theorem beam_along_z malloc_ray fuel pr D s h :
  e0 (ray_d pr) = 0 -> e1 (ray_d pr) = 0 -> e2 (ray_d pr) <> 0 ->
  lensy_beam malloc_ray fuel pr D s h = Undef.
Proof.
  intros Hx Hy Hz.
  assert (Hd : lensy_mag3 (ray_d pr) <> 0).
  { intros E. pose proof (mag3_sqr (ray_d pr)) as Q. rewrite E in Q.
    unfold lensy_inner3 in Q. apply Hz. nra. }
  unfold lensy_beam.
  destruct (Req_dec_T (lensy_mag3 (ray_d pr)) 0) as [E|_]; [contradiction|].
  rewrite vdiv_ret by exact Hd. rewrite bind_ret. cbn [e0 e1].
  rewrite Hx, Hy.
  replace (0 / lensy_mag3 (ray_d pr) * (0 / lensy_mag3 (ray_d pr))
           + 0 / lensy_mag3 (ray_d pr) * (0 / lensy_mag3 (ray_d pr)))
    with 0 by (field; exact Hd).
  rewrite fsqrt_ret by lra. rewrite bind_ret, sqrt_0.
  unfold bind, fdiv. destruct (Req_dec_T 0 0) as [_|Hn]; [reflexivity|].
  exfalso. apply Hn. reflexivity.
Qed.

Lemma beam_along_z_witness :
  lensy_beam always_allocates 10 (ray_of (V3 0 0 0) (V3 0 0 1)) 2 1 empty_heap
  = Undef.
Proof.
  apply (beam_along_z always_allocates 10 (ray_of (V3 0 0 0) (V3 0 0 1)) 2 1
           empty_heap); cbn; lra.
Defined.

(** X22: the first transverse vector [u0] that [lensy_beam] builds is a
    unit vector, and it is perpendicular to the beam direction exactly when
    [d.x <= 0] or [d.y = 0]: for [d.x > 0] and [d.y <> 0] the beam's
    cross-section is tilted. *)
Theorem beam_basis d :
  e0 d <> 0 \/ e1 d <> 0 ->
  lensy_inner3 (beam_u0 d) (beam_u0 d) = 1
  /\ (lensy_inner3 (beam_u0 d) d = 0 <-> e0 d <= 0 \/ e1 d = 0).
Proof.
  intros Hxy. pose proof (off_axis_mag3 _ Hxy) as Hd.
  pose proof (mag3_pos _ Hd) as Hm.
  pose proof (off_axis_unit _ Hxy) as Hw.
  pose proof (beam_u00_bound _ Hxy) as Hu. cbv zeta in Hw, Hu.
  unfold beam_u0. cbv zeta.
  set (w0 := (1 / lensy_mag3 d) *v d) in *.
  set (q := sqrt (e0 w0 * e0 w0 + e1 w0 * e1 w0)) in *.
  assert (Hq : 0 < q) by (apply sqrt_lt_R0; exact Hw).
  assert (Hqq : q * q = e0 w0 * e0 w0 + e1 w0 * e1 w0)
    by (apply sqrt_sqrt; lra).
  set (u00 := e1 w0 / q) in *.
  assert (Hss : sqrt (1 - u00 * u00) * sqrt (1 - u00 * u00) = 1 - u00 * u00)
    by (apply sqrt_sqrt; exact Hu).
  assert (Hu1 : sqrt (1 - u00 * u00) = Rabs (e0 w0) / q).
  { apply sqrt_is.
    - apply Rmult_le_pos; [apply Rabs_pos | left; now apply Rinv_0_lt_compat].
    - assert (Ha : Rabs (e0 w0) * Rabs (e0 w0) = e0 w0 * e0 w0).
      { unfold Rabs. destruct (Rcase_abs (e0 w0)); ring. }
      unfold u00.
      transitivity (Rabs (e0 w0) * Rabs (e0 w0) / (q * q)); [field; lra|].
      rewrite Ha.
      transitivity ((q * q - e1 w0 * e1 w0) / (q * q)); [|field; lra].
      rewrite Hqq. f_equal. ring. }
  split.
  - unfold lensy_inner3. cbn [e0 e1 e2]. rewrite Hss. ring.
  - assert (E : lensy_inner3 (V3 u00 (sqrt (1 - u00 * u00)) 0) d
                = e1 d * (e0 d + Rabs (e0 d)) / (lensy_mag3 d * q)).
    { rewrite Hu1. unfold u00, w0, lensy_inner3, vscale. cbn [e0 e1 e2].
      assert (Hab : Rabs (1 / lensy_mag3 d * e0 d)
                    = Rabs (e0 d) / lensy_mag3 d).
      { rewrite Rabs_mult, Rabs_right.
        - field. exact Hd.
        - apply Rle_ge, Rlt_le, Rdiv_lt_0_compat; lra. }
      rewrite Hab. field. split; lra. }
    rewrite E.
    assert (Hden : 0 < lensy_mag3 d * q) by now apply Rmult_lt_0_compat.
    split.
    + intros Hz.
      assert (Hn : e1 d * (e0 d + Rabs (e0 d)) = 0).
      { apply (Rmult_eq_reg_r (/ (lensy_mag3 d * q)));
          [|apply Rinv_neq_0_compat; lra].
        rewrite Rmult_0_l. exact Hz. }
      destruct (Rmult_integral _ _ Hn) as [H1|H1]; [right; exact H1|].
      left. unfold Rabs in H1. destruct (Rcase_abs (e0 d)); lra.
    + intros [Hle | Hy].
      * replace (e0 d + Rabs (e0 d)) with 0.
        -- unfold Rdiv. ring.
        -- unfold Rabs. destruct (Rcase_abs (e0 d)); lra.
      * rewrite Hy. unfold Rdiv. ring.
Qed.

Lemma beam_basis_witness :
  lensy_inner3 (beam_u0 (V3 3 4 0)) (beam_u0 (V3 3 4 0)) = 1
  /\ (lensy_inner3 (beam_u0 (V3 3 4 0)) (V3 3 4 0) = 0
      <-> e0 (V3 3 4 0) <= 0 \/ e1 (V3 3 4 0) = 0).
Proof.
  apply (beam_basis (V3 3 4 0)). left. cbn. lra.
Defined.

(** * The ray generators: what they add to the list *)

Lemma emitted_refl P h rc : emitted P h rc rc h.
Proof. exists []. cbn. repeat split; [lia | constructor | lia]. Qed.

Lemma emitted_add P h0 rc0 rc h r :
  emitted P h0 rc0 rc h -> P r ->
  emitted P h0 rc0 (rc + 1)%Z
    (Heap (r :: h_pl (Heap (h_pl h) (Datatypes.S (h_calls h))))
          (h_calls (Heap (h_pl h) (Datatypes.S (h_calls h))))).
Proof.
  intros (new & Hl & Hrc & HP & Hc) Hr. exists (r :: new). cbn [h_pl h_calls].
  repeat split.
  - rewrite Hl. reflexivity.
  - cbn [length]. lia.
  - now constructor.
  - cbn [length]. lia.
Qed.

Lemma emitted_skip P h0 rc0 rc h :
  emitted P h0 rc0 rc h ->
  emitted P h0 rc0 rc (Heap (h_pl h) (Datatypes.S (h_calls h))).
Proof.
  intros (new & Hl & Hrc & HP & Hc). exists new. cbn [h_pl h_calls].
  repeat split; try assumption. lia.
Qed.

Lemma runs_for_each_inv {S A E} bad (Inv : A -> S -> Prop) (js : list E)
    (body : E -> A -> M S A) acc s :
  Inv acc s ->
  (forall j acc s, Inv acc s -> runs bad (body j acc) s Inv) ->
  runs bad (for_each js body acc) s Inv.
Proof.
  intros H0 Hstep. revert acc s H0.
  induction js as [|j js IH]; intros acc s H0.
  - exact H0.
  - cbn [for_each]. apply runs_bind.
    eapply runs_weaken; [|apply Hstep; exact H0].
    intros acc' s' H1. apply IH. exact H1.
Qed.

Lemma runs_for_real_inv {S A} (Inv : A -> S -> Prop)
    (body : R -> A -> M S A) hi step :
  (forall x acc s, Inv acc s -> runs True (body x acc) s Inv) ->
  forall fuel x acc s,
    Inv acc s -> runs True (for_real fuel x hi step body acc) s Inv.
Proof.
  intros Hstep. induction fuel as [|fuel IH]; intros x acc s H0.
  - cbn [for_real]. destruct (Rlt_dec x hi); [exact I | exact H0].
  - cbn [for_real]. destruct (Rlt_dec x hi); [|exact H0].
    apply runs_bind.
    eapply runs_weaken; [|apply Hstep; exact H0].
    intros acc' s' H1. apply IH. exact H1.
Qed.

Lemma runs_to_int32_any {S} (x : R) (s : S) Q :
  (forall z, Q z s) -> runs True (to_int32 x) s Q.
Proof.
  intros HQ. unfold runs, to_int32.
  destruct (Z_le_dec _ _); [|exact I].
  destruct (Z_le_dec _ _); [|exact I].
  apply HQ.
Qed.

Lemma cone_run malloc_ray pr D S h :
  runs True (lensy_cone malloc_ray pr D S) h
    (fun rc h' =>
       (lensy_mag3 (ray_d pr) = 0 /\ rc = 0%Z /\ h' = h)
       \/ (lensy_mag3 (ray_d pr) <> 0
           /\ match malloc_ray (h_calls h) with
              | Some junk =>
                  emitted (same_source pr)
                    (Heap (cone_centre_ray pr junk :: h_pl h)
                          (Datatypes.S (h_calls h))) 1 rc h'
              | None =>
                  emitted (same_source pr)
                    (Heap (h_pl h) (Datatypes.S (h_calls h))) 0 rc h'
              end)).
Proof.
  unfold lensy_cone.
  destruct (Req_dec_T (lensy_mag3 (ray_d pr)) 0) as [E|Hd].
  { apply runs_ret. left. auto. }
  apply runs_bind, runs_malloc.
  apply runs_bind.
  set (P := same_source pr).
  set (start := match malloc_ray (h_calls h) with
                | Some junk => (Heap (cone_centre_ray pr junk :: h_pl h)
                                     (Datatypes.S (h_calls h)), 1%Z)
                | None => (Heap (h_pl h) (Datatypes.S (h_calls h)), 0%Z)
                end).
  apply (runs_weaken True _ _
           (fun rc h1 => (h1, rc) = start)).
  2:{ unfold start. destruct (malloc_ray (h_calls h)) as [junk|].
      - apply runs_bind, runs_list_add, runs_ret. reflexivity.
      - apply runs_ret. reflexivity. }
  intros rc1 h1 Hstart.
  apply (runs_weaken True _ _ (emitted P h1 rc1)).
  { intros rc h' Hem. right. split; [exact Hd|].
    unfold start in Hstart.
    destruct (malloc_ray (h_calls h)); injection Hstart as -> ->; exact Hem. }
  clear Hstart start.
  apply runs_bind, runs_fdiv; [trivial | intros _].
  apply runs_bind, runs_to_int32_any. intros n.
  apply runs_for_each_inv; [apply emitted_refl|].
  intros j rc2 h2 H2.
  apply runs_bind, runs_fdiv; [trivial | intros _].
  apply runs_bind, runs_to_int32_any. intros m.
  apply runs_for_each_inv; [exact H2|].
  intros k rc3 h3 H3.
  apply runs_bind, runs_fdiv; [trivial | intros _].
  apply runs_bind, runs_fasin; [trivial | intros _].
  apply runs_bind, runs_malloc.
  destruct (malloc_ray (h_calls h3)).
  - apply runs_bind, runs_list_add, runs_ret.
    apply emitted_add; [exact H3|].
    repeat split; reflexivity.
  - apply runs_ret. apply emitted_skip. exact H3.
Qed.

Lemma scenario_cone_returns :
  exists rc h',
    lensy_cone always_allocates ray_along_x 10 2 empty_heap = Ret (rc, h').
Proof.
  destruct (runs_returns _ _ _
              (cone_runs always_allocates ray_along_x empty_heap eq_refl
                 ltac:(discriminate)))
    as (rc & h' & Hrun & _).
  now exists rc, h'.
Qed.

(** X23: [lensy_cone] returns the number of rays it has added.  The new
    rays are put in front of the list, the old list is kept, each new ray
    took one call of the allocator or more, and each starts at the position
    of [pr] with its wavelength. *)
Theorem cone_counts_added_rays malloc_ray pr D S h rc h' :
  lensy_cone malloc_ray pr D S h = Ret (rc, h') ->
  exists new,
    h_pl h' = new ++ h_pl h
    /\ rc = Z.of_nat (length new)
    /\ (h_calls h + length new <= h_calls h')%nat
    /\ Forall (fun r => ray_p r = ray_p pr
                        /\ ray_wavelength r = ray_wavelength pr) new.
Proof.
  intros Hrun.
  pose proof (runs_elim True _ _ _ _ _ (cone_run malloc_ray pr D S h) Hrun)
    as H.
  cbv beta in H. destruct H as [(_ & -> & ->) | [_ H]].
  - exists []. cbn. repeat split; [lia | constructor].
  - assert (Hweak : forall new,
               Forall (same_source pr) new ->
               Forall (fun r => ray_p r = ray_p pr
                                /\ ray_wavelength r = ray_wavelength pr) new).
    { intros new. apply Forall_impl. intros r (Hp & Hw & _). now split. }
    destruct (malloc_ray (h_calls h)) as [junk|];
      destruct H as (new & Hl & Hrc & HP & Hc); cbn [h_pl h_calls] in *.
    + exists (new ++ [cone_centre_ray pr junk]).
      rewrite <- app_assoc, length_app. cbn [app length].
      repeat split; [exact Hl | lia | lia |].
      apply Forall_app. split; [now apply Hweak|].
      constructor; [|constructor]. split; reflexivity.
    + exists new. repeat split; [exact Hl | lia | lia | now apply Hweak].
Qed.

Lemma cone_counts_added_rays_witness :
  exists rc h',
    lensy_cone always_allocates ray_along_x 10 2 empty_heap = Ret (rc, h')
    /\ exists new,
         h_pl h' = new ++ h_pl empty_heap
         /\ rc = Z.of_nat (length new)
         /\ (h_calls empty_heap + length new <= h_calls h')%nat
         /\ Forall (fun r => ray_p r = ray_p ray_along_x
                             /\ ray_wavelength r = ray_wavelength ray_along_x)
                   new.
Proof.
  destruct scenario_cone_returns as (rc & h' & Hrun).
  exists rc, h'. split; [exact Hrun|].
  exact (cone_counts_added_rays _ _ _ _ _ _ _ Hrun).
Defined.

(** X24: the centre ray of a cone has no colour of its own.  When the
    first allocation succeeds, the first ray [lensy_cone] adds has the
    position, direction and wavelength of [pr], and its [red], [green] and
    [blue] are what the allocated block held; the shell rays, added after
    it and so in front of it on the list, carry the colour of [pr]. *)
Theorem cone_centre_ray_colour malloc_ray pr D S h rc h' junk :
  lensy_cone malloc_ray pr D S h = Ret (rc, h') ->
  ray_d pr <> vzero ->
  malloc_ray (h_calls h) = Some junk ->
  exists shells,
    h_pl h' = shells ++ cone_centre_ray pr junk :: h_pl h
    /\ Forall (same_source pr) shells.
Proof.
  intros Hrun Hd Hm.
  pose proof (runs_elim True _ _ _ _ _ (cone_run malloc_ray pr D S h) Hrun)
    as H.
  cbv beta in H. destruct H as [(Hz & _) | [_ H]].
  - exfalso. apply Hd. apply inner3_self_zero. rewrite <- mag3_sqr, Hz. ring.
  - rewrite Hm in H. destruct H as (new & Hl & _ & HP & _).
    exists new. split; [exact Hl | exact HP].
Qed.

Lemma cone_centre_ray_colour_witness :
  exists rc h',
    lensy_cone always_allocates ray_along_x 10 2 empty_heap = Ret (rc, h')
    /\ exists shells,
         h_pl h'
         = shells
           ++ cone_centre_ray ray_along_x (ray_of vzero vzero)
              :: h_pl empty_heap
         /\ Forall (same_source ray_along_x) shells.
Proof.
  destruct scenario_cone_returns as (rc & h' & Hrun).
  exists rc, h'. split; [exact Hrun|].
  refine (cone_centre_ray_colour _ _ _ _ _ _ _ _ Hrun _ eq_refl).
  intros E. injection E as E. lra.
Defined.

Lemma beam_run malloc_ray fuel pr D s h :
  runs True (lensy_beam malloc_ray fuel pr D s) h
    (emitted (parallel_copy pr) h 0).
Proof.
  unfold lensy_beam.
  destruct (Req_dec_T (lensy_mag3 (ray_d pr)) 0) as [E|Hd].
  { apply runs_ret. apply emitted_refl. }
  apply runs_bind, runs_vdiv; [trivial | intros _].
  apply runs_bind, runs_fsqrt; [trivial | intros _].
  apply runs_bind, runs_fdiv; [trivial | intros _].
  apply runs_bind, runs_fsqrt; [trivial | intros _].
  apply runs_for_real_inv; [|apply emitted_refl].
  intros x rc1 h1 H1.
  apply runs_for_real_inv; [|exact H1].
  intros y rc2 h2 H2.
  apply runs_bind, runs_fsqrt; [trivial | intros _].
  destruct (Rlt_dec _ _); [apply runs_ret; exact H2|].
  apply runs_bind, runs_malloc.
  destruct (malloc_ray (h_calls h2)).
  - apply runs_bind, runs_list_add, runs_ret.
    apply emitted_add; [exact H2|].
    repeat split; reflexivity.
  - apply runs_ret. apply emitted_skip. exact H2.
Qed.

(** X25: [lensy_beam] returns the number of rays it has added.  The new
    rays are put in front of the list, the old list is kept, and each new
    ray has the direction, the wavelength and the colour of [pr]. *)
Theorem beam_counts_added_rays malloc_ray fuel pr D s h rc h' :
  lensy_beam malloc_ray fuel pr D s h = Ret (rc, h') ->
  exists new,
    h_pl h' = new ++ h_pl h
    /\ rc = Z.of_nat (length new)
    /\ (h_calls h + length new <= h_calls h')%nat
    /\ Forall (parallel_copy pr) new.
Proof.
  intros Hrun.
  destruct (runs_elim True _ _ _ _ _ (beam_run malloc_ray fuel pr D s h) Hrun)
    as (new & Hl & Hrc & HP & Hc).
  exists new. repeat split; [exact Hl | lia | exact Hc | exact HP].
Qed.

Lemma beam_counts_added_rays_witness :
  exists new,
    h_pl (Heap (rev (map (beam_ray ray_along_x) (beam_grid 2 1))
                ++ h_pl empty_heap)
               (h_calls empty_heap + length (beam_grid 2 1)))
    = new ++ h_pl empty_heap
    /\ Z.of_nat (length (beam_grid 2 1)) = Z.of_nat (length new)
    /\ (h_calls empty_heap + length new
        <= h_calls (Heap (rev (map (beam_ray ray_along_x) (beam_grid 2 1))
                          ++ h_pl empty_heap)
                         (h_calls empty_heap + length (beam_grid 2 1))))%nat
    /\ Forall (parallel_copy ray_along_x) new.
Proof.
  refine (beam_counts_added_rays always_allocates (beam_steps 2 1) ray_along_x
            2 1 empty_heap _ _ _).
  apply beam_runs.
  - discriminate.
  - lra.
  - left. cbn. lra.
  - apply Nat.le_refl.
Defined.

(** * The detector's plane *)

Lemma mag3_zero_iff a : lensy_mag3 a = 0 <-> a = vzero.
Proof.
  split.
  - intros E. apply inner3_self_zero. rewrite <- mag3_sqr, E. ring.
  - intros ->. apply mag3_vzero.
Qed.

Lemma init_ccd_run malloc_buf ccd :
  let w0 := lensy_cross3 (ccd_vx ccd) (ccd_vy ccd) in
  (lensy_init_ccd malloc_buf ccd = Exited
   /\ (w0 = vzero \/ malloc_buf = None))
  \/ (w0 <> vzero
      /\ exists cells ccd',
           malloc_buf = Some cells
           /\ lensy_init_ccd malloc_buf ccd = Initialized ccd'
           /\ ccd_p ccd'
              = {| plane_v := ccd_v ccd;
                   plane_n := (1 / lensy_mag3 w0) *v w0;
                   plane_aperture :=
                     2 * (IZR (ccd_x_nmax ccd) * lensy_mag3 (ccd_vx ccd)
                          + IZR (ccd_y_nmax ccd) * lensy_mag3 (ccd_vy ccd)) |}
           /\ ccd_v ccd' = ccd_v ccd /\ ccd_vx ccd' = ccd_vx ccd
           /\ ccd_vy ccd' = ccd_vy ccd
           /\ ccd_x_nmax ccd' = ccd_x_nmax ccd
           /\ ccd_y_nmax ccd' = ccd_y_nmax ccd).
Proof.
  unfold lensy_init_ccd. cbv zeta.
  remember (lensy_cross3 (ccd_vx ccd) (ccd_vy ccd)) as w0 eqn:Hw0.
  destruct (Req_dec_T (lensy_mag3 w0) 0) as [Hz | Hnz].
  - left. split; [reflexivity|]. left. now apply mag3_zero_iff.
  - destruct malloc_buf as [cells|].
    + right. split.
      * intros E. apply Hnz. now apply mag3_zero_iff.
      * exists cells. eexists. split; [reflexivity|]. split; [reflexivity|].
        cbn [ccd_p ccd_v ccd_vx ccd_vy ccd_x_nmax ccd_y_nmax].
        rewrite vdiv_is_scale by exact Hnz.
        repeat split; reflexivity.
    + left. split; [reflexivity|]. now right.
Qed.

(** X26: the outcome of [lensy_init_ccd].  The process exits when
    [vx x vy] is null or the allocation fails; otherwise the detector's
    plane passes through [v], its normal is the unit vector along
    [vx x vy] (perpendicular to [vx] and [vy]), its aperture is
    [2 (Nx |vx| + Ny |vy|)], and the fields the caller set are kept. *)
Theorem init_ccd_outcome malloc_buf ccd :
  let w0 := lensy_cross3 (ccd_vx ccd) (ccd_vy ccd) in
  (lensy_init_ccd malloc_buf ccd = Exited
   /\ (w0 = vzero \/ malloc_buf = None))
  \/ (w0 <> vzero /\ malloc_buf <> None
      /\ exists ccd',
           lensy_init_ccd malloc_buf ccd = Initialized ccd'
           /\ plane_v (ccd_p ccd') = ccd_v ccd
           /\ lensy_mag3 (plane_n (ccd_p ccd')) = 1
           /\ lensy_inner3 (plane_n (ccd_p ccd')) (ccd_vx ccd) = 0
           /\ lensy_inner3 (plane_n (ccd_p ccd')) (ccd_vy ccd) = 0
           /\ 0 < lensy_inner3 (plane_n (ccd_p ccd')) w0
           /\ plane_aperture (ccd_p ccd')
              = 2 * (IZR (ccd_x_nmax ccd) * lensy_mag3 (ccd_vx ccd)
                     + IZR (ccd_y_nmax ccd) * lensy_mag3 (ccd_vy ccd))
           /\ ccd_v ccd' = ccd_v ccd /\ ccd_vx ccd' = ccd_vx ccd
           /\ ccd_vy ccd' = ccd_vy ccd
           /\ ccd_x_nmax ccd' = ccd_x_nmax ccd
           /\ ccd_y_nmax ccd' = ccd_y_nmax ccd).
Proof.
  intros w0.
  destruct (init_ccd_run malloc_buf ccd)
    as [H | (Hw & cells & ccd' & Hm & Hi & Hp & Hrest)]; [left; exact H|].
  fold w0 in Hw, Hp. right. split; [exact Hw|].
  split; [rewrite Hm; discriminate|].
  exists ccd'. split; [exact Hi|]. rewrite Hp.
  cbn [plane_v plane_n plane_aperture].
  assert (Hnz : lensy_mag3 w0 <> 0)
    by (intros E; apply Hw; now apply mag3_zero_iff).
  split; [reflexivity|]. split.
  { unfold lensy_mag3 at 1. rewrite inner3_unit_scaled by exact Hnz.
    apply sqrt_1. }
  split; [rewrite inner3_scale_l; unfold w0; rewrite inner3_cross_left; ring|].
  split; [rewrite inner3_scale_l; unfold w0; rewrite inner3_cross_right; ring|].
  split.
  { rewrite inner3_scale_l.
    apply Rmult_lt_0_compat; [|now apply mag3_pos_inner].
    apply Rdiv_lt_0_compat; [lra | now apply mag3_pos]. }
  split; [reflexivity | exact Hrest].
Qed.

(** The triangle inequality for [lensy_mag3]. *)
Lemma inner3_le_mag a b : lensy_inner3 a b <= lensy_mag3 a * lensy_mag3 b.
Proof.
  pose proof (lagrange_identity a b) as L.
  pose proof (inner3_self_nonneg (lensy_cross3 a b)) as Hc.
  pose proof (mag3_sqr a) as Qa. pose proof (mag3_sqr b) as Qb.
  pose proof (mag3_nonneg a) as Ha. pose proof (mag3_nonneg b) as Hb.
  set (x := lensy_inner3 a b) in *.
  set (ma := lensy_mag3 a) in *. set (mb := lensy_mag3 b) in *.
  assert (Hsq : x * x <= (ma * mb) * (ma * mb)).
  { replace (ma * mb * (ma * mb)) with (ma * ma * (mb * mb)) by ring.
    rewrite Qa, Qb. lra. }
  assert (Hp : 0 <= ma * mb) by now apply Rmult_le_pos.
  destruct (Rle_dec x (ma * mb)) as [H|H]; [exact H|].
  exfalso. apply Rnot_le_lt in H. nra.
Qed.

Lemma mag3_triangle a b :
  lensy_mag3 (a +v b) <= lensy_mag3 a + lensy_mag3 b.
Proof.
  pose proof (inner3_le_mag a b) as Hab.
  pose proof (mag3_sqr a) as Qa. pose proof (mag3_sqr b) as Qb.
  pose proof (mag3_sqr (a +v b)) as Qs.
  pose proof (mag3_nonneg a) as Ha. pose proof (mag3_nonneg b) as Hb.
  pose proof (mag3_nonneg (a +v b)) as Hs.
  assert (E : lensy_inner3 (a +v b) (a +v b)
              = lensy_inner3 a a + 2 * lensy_inner3 a b + lensy_inner3 b b).
  { unfold lensy_inner3, vadd. cbn [e0 e1 e2]. ring. }
  rewrite E, <- Qa, <- Qb in Qs.
  set (s := lensy_mag3 (a +v b)) in *.
  set (ma := lensy_mag3 a) in *. set (mb := lensy_mag3 b) in *.
  destruct (Rle_dec s (ma + mb)) as [H|H]; [exact H|].
  exfalso. apply Rnot_le_lt in H. nra.
Qed.

Lemma mag3_scale k a : lensy_mag3 (k *v a) = Rabs k * lensy_mag3 a.
Proof.
  apply sqrt_is.
  - apply Rmult_le_pos; [apply Rabs_pos | apply mag3_nonneg].
  - rewrite inner3_scale_l, inner3_scale_r.
    pose proof (mag3_sqr a) as Q.
    assert (Ha : Rabs k * Rabs k = k * k).
    { unfold Rabs. destruct (Rcase_abs k); ring. }
    replace (Rabs k * lensy_mag3 a * (Rabs k * lensy_mag3 a))
      with (Rabs k * Rabs k * (lensy_mag3 a * lensy_mag3 a)) by ring.
    rewrite Ha, Q. ring.
Qed.

Lemma ccd_point_in_aperture malloc_buf ccd ccd' (a b : R) :
  lensy_init_ccd malloc_buf ccd = Initialized ccd' ->
  Rabs a <= IZR (ccd_x_nmax ccd) -> Rabs b <= IZR (ccd_y_nmax ccd) ->
  lensy_mag3 (ccd_v ccd +v a *v ccd_vx ccd +v b *v ccd_vy ccd
              -v plane_v (ccd_p ccd'))
  <= plane_aperture (ccd_p ccd') / 2.
Proof.
  intros Hi Ha Hb.
  destruct (init_ccd_run malloc_buf ccd)
    as [[E _] | (_ & cells & ccd2 & _ & Hi2 & Hp & _)].
  { rewrite E in Hi. discriminate Hi. }
  rewrite Hi in Hi2. injection Hi2 as <-. rewrite Hp.
  cbn [plane_v plane_aperture].
  replace (ccd_v ccd +v a *v ccd_vx ccd +v b *v ccd_vy ccd -v ccd_v ccd)
    with (a *v ccd_vx ccd +v b *v ccd_vy ccd)
    by (unfold vadd, vsub, vscale; cbn [e0 e1 e2]; f_equal; ring).
  eapply Rle_trans; [apply mag3_triangle|].
  rewrite !mag3_scale.
  pose proof (mag3_nonneg (ccd_vx ccd)). pose proof (mag3_nonneg (ccd_vy ccd)).
  assert (Rabs a * lensy_mag3 (ccd_vx ccd)
          <= IZR (ccd_x_nmax ccd) * lensy_mag3 (ccd_vx ccd))
    by (apply Rmult_le_compat_r; assumption).
  assert (Rabs b * lensy_mag3 (ccd_vy ccd)
          <= IZR (ccd_y_nmax ccd) * lensy_mag3 (ccd_vy ccd))
    by (apply Rmult_le_compat_r; assumption).
  lra.
Qed.

(** X27: the aperture of the detector's plane covers the detector.  On
    the plane [lensy_init_ccd] has filled in, [lensy_intersect_plane] never
    answers -1 (outside the aperture) for a ray that meets the plane at
    [v + a vx + b vy] with [|a| <= Nx] and [|b| <= Ny]. *)
Theorem ccd_pixels_inside_aperture malloc_buf ccd ccd' st rc st' (a b : R) :
  lensy_init_ccd malloc_buf ccd = Initialized ccd' ->
  lensy_intersect_plane (ccd_p ccd') st = Ret (rc, st') ->
  rc <> (-2)%Z ->
  f_q st' = ccd_v ccd +v a *v ccd_vx ccd +v b *v ccd_vy ccd ->
  Rabs a <= IZR (ccd_x_nmax ccd) -> Rabs b <= IZR (ccd_y_nmax ccd) ->
  rc = 0%Z.
Proof.
  intros Hi Hrun Hrc Hq Ha Hb.
  pose proof (ccd_point_in_aperture malloc_buf ccd ccd' a b Hi Ha Hb) as Hin.
  rewrite <- Hq in Hin.
  pose proof (runs_elim False _ _ _ _ _ (plane_answers_run (ccd_p ccd') st)
                Hrun) as H.
  cbv beta zeta in H. destruct H as (Hcodes & _ & _ & H).
  destruct (H Hrc) as [_ Hout].
  destruct Hcodes as [E | [E | E]]; [exact E | | contradiction].
  apply Hout in E. lra.
Qed.

Lemma ccd_pixels_inside_aperture_witness :
  exists ccd' rc st',
    lensy_init_ccd stale_block one_pixel_ccd = Initialized ccd'
    /\ lensy_intersect_plane (ccd_p ccd') falling_ray_frame = Ret (rc, st')
    /\ rc = 0%Z.
Proof.
  destruct (init_ccd_run stale_block one_pixel_ccd)
    as [[_ [E | E]] | (_ & cells & ccd' & _ & Hi & Hp & _)].
  - exfalso. revert E. unfold one_pixel_ccd. vec_cbn. intros E.
    injection E as _ _ E. lra.
  - discriminate E.
  - assert (Hn : ccd_p ccd'
                 = {| plane_v := V3 0 0 0; plane_n := V3 0 0 1;
                      plane_aperture := 4 |}).
    { rewrite Hp. unfold one_pixel_ccd. vec_cbn.
      cbn [ccd_v ccd_vx ccd_vy ccd_x_nmax ccd_y_nmax e0 e1 e2].
      repeat first [sqrt_val 1 | sqrt_val 0]. f_equal; [f_equal; field | lra]. }
    destruct (runs_returns _ _ _ (plane_answers_run (ccd_p ccd')
                                    falling_ray_frame))
      as (rc & st' & Hrun & _ & Hmiss & _ & Hhit).
    cbv beta zeta in Hmiss, Hhit.
    assert (Hrc : rc <> (-2)%Z).
    { intros E. apply Hmiss in E. rewrite Hn in E. revert E.
      unfold falling_ray_frame. vec_cbn. intros [E | E]; lra. }
    exists ccd', rc, st'. split; [exact Hi|]. split; [exact Hrun|].
    apply (ccd_pixels_inside_aperture stale_block one_pixel_ccd ccd'
             falling_ray_frame rc st' 0 0 Hi Hrun Hrc).
    + destruct (Hhit Hrc) as [-> _]. rewrite Hn.
      unfold falling_ray_frame, one_pixel_ccd. vec_cbn.
      cbn [ccd_v ccd_vx ccd_vy e0 e1 e2]. f_equal; field.
    + cbn. rewrite Rabs_R0. lra.
    + cbn. rewrite Rabs_R0. lra.
Defined.

(** * The index of refraction *)

Lemma sqrt_between lo hi x :
  0 <= lo -> lo * lo < x -> x < hi * hi -> 0 <= hi -> lo < sqrt x < hi.
Proof.
  intros Hlo Hx1 Hx2 Hhi. split.
  - rewrite <- (sqrt_square lo) by exact Hlo. apply sqrt_lt_1_alt. nra.
  - rewrite <- (sqrt_square hi) by exact Hhi. apply sqrt_lt_1_alt. nra.
Qed.

Lemma div_between n d lo hi :
  0 < d -> lo * d <= n <= hi * d -> lo <= n / d <= hi.
Proof.
  intros Hd [H1 H2]. split.
  - apply Rmult_le_reg_r with d; [exact Hd|].
    replace (n / d * d) with n by (field; lra). exact H1.
  - apply Rmult_le_reg_r with d; [exact Hd|].
    replace (n / d * d) with n by (field; lra). exact H2.
Qed.

Lemma div_between_neg n d lo hi :
  d < 0 -> hi * d <= n <= lo * d -> lo <= n / d <= hi.
Proof.
  intros Hd [H1 H2].
  replace (n / d) with ((- n) / (- d)) by (field; lra).
  apply div_between; lra.
Qed.

(** The atoms of the dispersion formula on [0.3, 2] micrometres. *)
Lemma dispersion_atoms x :
  0.3 <= x <= 2 ->
  x ^ 2 <> 0 /\ x ^ 4 <> 0 /\ x ^ 6 <> 0 /\ x ^ 8 <> 0
  /\ 0.09 <= x ^ 2 <= 4
  /\ 0.25 <= / x ^ 2 <= 11.2
  /\ 0.0625 <= / x ^ 4 <= 125.44
  /\ 0.015625 <= / x ^ 6 <= 1404.928
  /\ 0.00390625 <= / x ^ 8 <= 15735.1936.
Proof.
  intros Hx.
  assert (Hy : 0.09 <= x ^ 2 <= 4) by nra.
  set (y := x ^ 2) in *.
  assert (E4 : x ^ 4 = y * y) by (unfold y; ring).
  assert (E6 : x ^ 6 = y * y * y) by (unfold y; ring).
  assert (E8 : x ^ 8 = y * y * y * y) by (unfold y; ring).
  clearbody y.
  assert (Hy0 : y <> 0) by lra.
  assert (Hz : 0.25 <= / y <= 11.2).
  { assert (E : / y = 1 / y) by (field; lra). rewrite E.
    apply div_between; lra. }
  rewrite E4, E6, E8.
  assert (I4 : / (y * y) = / y * / y) by (field; lra).
  assert (I6 : / (y * y * y) = / y * / y * / y) by (field; lra).
  assert (I8 : / (y * y * y * y) = / y * / y * / y * / y) by (field; lra).
  rewrite I4, I6, I8.
  set (z := / y) in *. clearbody z.
  assert (H2 : 0.0625 <= z * z <= 125.44) by nra.
  assert (H3 : 0.015625 <= z * z * z <= 1404.928) by nra.
  assert (H4 : 0.00390625 <= z * z * z * z <= 15735.1936) by nra.
  repeat split; try lra; try nra.
  all: repeat apply Rmult_integral_contrapositive_currified; lra.
Qed.

Lemma index_of_refraction_run a wl :
  In a [CaF2; tsu2; tsu4; tsu5; tsu6; tsu7; fsilica] ->
  0.3e-6 <= wl <= 2.0e-6 ->
  exists ni,
    lensy_index_of_refraction wl a = Index_returned (Ret (ni, tt))
    /\ 1.42 < ni < 1.66.
Proof.
  intros Ha Hwl. unfold lensy_index_of_refraction.
  destruct (Rlt_dec wl 0.3e-6) as [H|_]; [lra|].
  destruct (Rlt_dec 2.0e-6 wl) as [H|_]; [lra|].
  cbv zeta.
  set (x := wl * 1.0e6).
  assert (Hx : 0.3 <= x <= 2) by (unfold x; lra).
  destruct (dispersion_atoms x Hx)
    as (N2 & N4 & N6 & N8 & B2 & I2 & I4 & I6 & I8).
  clearbody x.
  match goal with
  | |- exists ni, Index_returned (?c tt) = _ /\ _ =>
      assert (R : runs False c tt (fun ni _ => 1.42 < ni < 1.66))
  end.
  { do 8 run_step. apply runs_fsqrt; intros Hr.
    all: unfold Rdiv in *.
    all: set (z2 := / x ^ 2) in *;
         set (z4 := / x ^ 4) in *; set (z6 := / x ^ 6) in *;
         set (z8 := / x ^ 8) in *; set (y := x ^ 2) in *.
    all: clearbody y z2 z4 z6 z8.
    all: cbn [In] in Ha.
    all: repeat (destruct Ha as [<- | Ha]); try contradiction.
    all: cbn [a_0 a_1 a_2 a_3 a_4 a_5 CaF2 tsu2 tsu4 tsu5 tsu6 tsu7 fsilica]
           in *.
    all: try (exfalso; lra).
    all: apply sqrt_between; lra. }
  apply runs_returns in R. destruct R as (ni & [] & E & B).
  exists ni. rewrite E. split; [reflexivity | exact B].
Qed.

(** X28: [lensy_index_of_refraction] on the seven coefficient tables of
    the library.  It exits when the wavelength is outside [0.3e-6, 2.0e-6]
    metres; inside, the formula is defined (no division by zero, no square
    root of a negative number) and the index lies between 1.42 and 1.66. *)
Theorem index_of_refraction_range a wl :
  In a [CaF2; tsu2; tsu4; tsu5; tsu6; tsu7; fsilica] ->
  ((wl < 0.3e-6 \/ 2.0e-6 < wl)
   /\ lensy_index_of_refraction wl a = Index_exited)
  \/ (0.3e-6 <= wl <= 2.0e-6
      /\ exists ni,
           lensy_index_of_refraction wl a = Index_returned (Ret (ni, tt))
           /\ 1.42 < ni < 1.66).
Proof.
  intros Ha.
  destruct (Rlt_dec wl 0.3e-6) as [H1|H1].
  { left. split; [now left|]. unfold lensy_index_of_refraction.
    destruct (Rlt_dec wl 0.3e-6); [reflexivity | contradiction]. }
  destruct (Rlt_dec 2.0e-6 wl) as [H2|H2].
  { left. split; [now right|]. unfold lensy_index_of_refraction.
    destruct (Rlt_dec wl 0.3e-6); [reflexivity|].
    destruct (Rlt_dec 2.0e-6 wl); [reflexivity | contradiction]. }
  right. assert (Hwl : 0.3e-6 <= wl <= 2.0e-6) by lra.
  split; [exact Hwl|]. now apply index_of_refraction_run.
Qed.

Lemma index_of_refraction_range_witness :
  ((0.5e-6 < 0.3e-6 \/ 2.0e-6 < 0.5e-6)
   /\ lensy_index_of_refraction 0.5e-6 CaF2 = Index_exited)
  \/ (0.3e-6 <= 0.5e-6 <= 2.0e-6
      /\ exists ni,
           lensy_index_of_refraction 0.5e-6 CaF2
           = Index_returned (Ret (ni, tt))
           /\ 1.42 < ni < 1.66).
Proof.
  apply (index_of_refraction_range CaF2 0.5e-6). cbn [In]. now left.
Defined.

(** One term of the Sellmeier sum decreases with the wavelength, on either
    side of its pole. *)
Lemma sellmeier_term_uv b c d0 :
  0 <= b -> 0 <= c < 0.09 -> 0.09 <= d0 <= 4 ->
  b * 4 / (4 - c) <= b * d0 / (d0 - c) <= b * 0.09 / (0.09 - c).
Proof.
  intros Hb Hc Hd. apply div_between; [lra|]. split.
  - assert (E : b * d0 - b * 4 / (4 - c) * (d0 - c)
                = b * c * (4 - d0) / (4 - c)) by (field; lra).
    assert (0 <= b * c * (4 - d0) / (4 - c)).
    { apply Rmult_le_pos; [|left; apply Rinv_0_lt_compat; lra].
      apply Rmult_le_pos; [apply Rmult_le_pos|]; lra. }
    lra.
  - assert (E : b * 0.09 / (0.09 - c) * (d0 - c) - b * d0
                = b * c * (d0 - 0.09) / (0.09 - c)) by (field; lra).
    assert (0 <= b * c * (d0 - 0.09) / (0.09 - c)).
    { apply Rmult_le_pos; [|left; apply Rinv_0_lt_compat; lra].
      apply Rmult_le_pos; [apply Rmult_le_pos|]; lra. }
    lra.
Qed.

Lemma sellmeier_term_ir b c d0 :
  0 <= b -> 4 < c -> 0.09 <= d0 <= 4 ->
  - (b * 4 / (c - 4)) <= b * d0 / (d0 - c) <= 0.
Proof.
  intros Hb Hc Hd. apply div_between_neg; [lra|]. split.
  - assert (0 <= b * d0) by (apply Rmult_le_pos; lra). lra.
  - assert (E : - (b * 4 / (c - 4)) * (d0 - c) - b * d0
                = b * c * (4 - d0) / (c - 4)) by (field; lra).
    assert (0 <= b * c * (4 - d0) / (c - 4)).
    { apply Rmult_le_pos; [|left; apply Rinv_0_lt_compat; lra].
      apply Rmult_le_pos; [apply Rmult_le_pos|]; lra. }
    lra.
Qed.

Lemma sellmeier_run {S} (a : lensy_sellmeier_struct) wl (s : S) lo hi :
  0 <= sellmeier_b1 a -> 0 <= sellmeier_b2 a -> 0 <= sellmeier_b3 a ->
  0 <= sellmeier_c1 a < 0.09 -> 0 <= sellmeier_c2 a < 0.09 ->
  4 < sellmeier_c3 a ->
  0.3e-6 <= wl <= 2.0e-6 ->
  0 <= lo -> 0 <= hi ->
  lo * lo < 1 + sellmeier_b1 a * 4 / (4 - sellmeier_c1 a)
              + sellmeier_b2 a * 4 / (4 - sellmeier_c2 a)
              - sellmeier_b3 a * 4 / (sellmeier_c3 a - 4) ->
  1 + sellmeier_b1 a * 0.09 / (0.09 - sellmeier_c1 a)
    + sellmeier_b2 a * 0.09 / (0.09 - sellmeier_c2 a) < hi * hi ->
  runs False (lensy_index_sellmeier wl a) s
    (fun ni s' => s' = s /\ lo < ni < hi).
Proof.
  intros B1 B2 B3 C1 C2 C3 Hwl Hlo Hhi Hl Hh.
  unfold lensy_index_sellmeier. cbv zeta.
  set (d0 := wl * 1.0e6 * (wl * 1.0e6)).
  assert (Hd : 0.09 <= d0 <= 4) by (unfold d0; nra).
  clearbody d0.
  pose proof (sellmeier_term_uv _ _ d0 B1 C1 Hd) as T1.
  pose proof (sellmeier_term_uv _ _ d0 B2 C2 Hd) as T2.
  pose proof (sellmeier_term_ir _ _ d0 B3 C3 Hd) as T3.
  assert (N1 : d0 - sellmeier_c1 a <> 0) by lra.
  assert (N2 : d0 - sellmeier_c2 a <> 0) by lra.
  assert (N3 : d0 - sellmeier_c3 a <> 0) by lra.
  assert (L0 : 0 <= lo * lo) by (apply Rmult_le_pos; exact Hlo).
  do 6 run_step.
  apply runs_fsqrt; intros Hr; [lra|].
  split; [reflexivity|]. apply sqrt_between; lra.
Qed.

Lemma sellmeier_table_run {S} a wl (s : S) :
  In a [N_BAF10; N_SF6; N_BK7; SF2] ->
  0.3e-6 <= wl <= 2.0e-6 ->
  runs False (lensy_index_sellmeier wl a) s
    (fun ni s' => s' = s /\ 1.49 < ni < 2.05).
Proof.
  intros Ha Hwl. cbn [In] in Ha.
  repeat (destruct Ha as [<- | Ha]); try contradiction.
  all: apply sellmeier_run; try exact Hwl.
  all: cbn [sellmeier_b1 sellmeier_b2 sellmeier_b3 sellmeier_c1 sellmeier_c2
            sellmeier_c3 N_BAF10 N_SF6 N_BK7 SF2]; lra.
Qed.

Lemma bk7_run {S} wl (s : S) :
  0.3e-6 <= wl <= 2.0e-6 ->
  runs False (lensy_index_sellmeier wl N_BK7) s
    (fun ni s' => s' = s /\ 1.49 < ni < 1.56).
Proof.
  intros Hwl. apply sellmeier_run; try exact Hwl.
  all: cbn [sellmeier_b1 sellmeier_b2 sellmeier_b3 sellmeier_c1 sellmeier_c2
            sellmeier_c3 N_BK7]; lra.
Qed.

(** X29: [lensy_index_sellmeier] on the four glasses of the library.  For
    a wavelength in [0.3e-6, 2.0e-6] metres the formula is defined (the
    wavelength is away from the poles of the three terms) and the index lies
    between 1.49 and 2.05; the state is not touched. *)
Theorem sellmeier_index_range {S} a wl (s : S) :
  In a [N_BAF10; N_SF6; N_BK7; SF2] ->
  0.3e-6 <= wl <= 2.0e-6 ->
  exists ni,
    lensy_index_sellmeier wl a s = Ret (ni, s) /\ 1.49 < ni < 2.05.
Proof.
  intros Ha Hwl.
  destruct (runs_returns _ _ _ (sellmeier_table_run a wl s Ha Hwl))
    as (ni & s' & E & -> & B).
  now exists ni.
Qed.

Lemma sellmeier_index_range_witness :
  exists ni,
    lensy_index_sellmeier 0.5e-6 N_BK7 tt = Ret (ni, tt) /\ 1.49 < ni < 2.05.
Proof.
  apply (sellmeier_index_range N_BK7 0.5e-6 tt).
  - cbn [In]. right. right. now left.
  - lra.
Defined.

Lemma refract_into_lens_run st :
  0.3e-6 <= ray_wavelength (f_r st) <= 2.0e-6 ->
  0 < lensy_mag3 (ray_d (f_r st)) ->
  lensy_mag3 (f_n st) = 1 ->
  exists ni st',
    lensy_index_sellmeier (ray_wavelength (f_r st)) N_BK7 st = Ret (ni, st)
    /\ 1.49 < ni < 1.56
    /\ refract_into_lens st = Ret (0%Z, st')
    /\ lensy_redirect_refract (in_air / ni) st = Ret (0%Z, st').
Proof.
  intros Hwl Hd Hn.
  destruct (runs_returns _ _ _ (bk7_run (ray_wavelength (f_r st)) st Hwl))
    as (ni & s' & E & -> & B).
  assert (Hm : 0 <= in_air / ni < 1).
  { unfold in_air. split.
    - apply Rmult_le_pos; [lra | left; apply Rinv_0_lt_compat; lra].
    - apply Rmult_lt_reg_r with ni; [lra|].
      replace (1.000293 / ni * ni) with 1.000293 by (field; lra). lra. }
  destruct (refract_below_one (in_air / ni) st Hd Hn Hm) as [st' E'].
  exists ni, st'. repeat split; try tauto; try exact E'.
  unfold refract_into_lens, bind, get_r. rewrite E.
  unfold fdiv. destruct (Req_dec_T ni 0) as [Z|_]; [lra|].
  unfold ret. exact E'.
Qed.

Lemma intersect_normal_run c st :
  runs True (lensy_intersect c) st
    (fun rc st' => rc = 0%Z -> lensy_mag3 (f_n st') = 1).
Proof.
  destruct c; cbn [lensy_intersect].
  - apply plane_normal_unit.
  - apply sphere_normal_unit.
  - apply paraboloid_normal_unit.
  - apply cylinder_normal_unit.
  - apply hyperboloid_normal_unit.
Qed.

(** X30: a ray that hits a surface enters the lens.  After an intersection
    routine has returned 0, for a direction that is not null and a
    wavelength in [0.3e-6, 2.0e-6] metres, the step of the telescope driver
    [d0 = in_air / lensy_index_sellmeier(wavelength, &N_BK7);
     lensy_redirect_refract(pray, q, n, d0)] returns 0: the index of BK7 is
    between 1.49 and 1.56, the ratio is below 1 and there is no total
    internal reflection. *)
Theorem hit_enters_glass c st st1 :
  lensy_intersect c st = Ret (0%Z, st1) ->
  ray_d (f_r st) <> vzero ->
  0.3e-6 <= ray_wavelength (f_r st) <= 2.0e-6 ->
  exists ni st2,
    lensy_index_sellmeier (ray_wavelength (f_r st)) N_BK7 st1 = Ret (ni, st1)
    /\ 1.49 < ni < 1.56
    /\ refract_into_lens st1 = Ret (0%Z, st2)
    /\ lensy_redirect_refract (in_air / ni) st1 = Ret (0%Z, st2).
Proof.
  intros Hrun Hd Hwl.
  pose proof (runs_elim True _ _ _ _ _ (intersect_keeps_ray c st) Hrun) as E.
  pose proof (runs_elim True _ _ _ _ _ (intersect_normal_run c st) Hrun
                eq_refl) as Hn.
  cbv beta in E, Hn. rewrite <- E in Hd, Hwl |- *.
  apply refract_into_lens_run; [exact Hwl | | exact Hn].
  apply mag3_pos. intros Z. apply Hd. now apply mag3_zero_iff.
Qed.

Lemma orange_ray_impact :
  exists st1,
    lensy_intersect (On_plane scenario_plane) orange_ray_frame
    = Ret (0%Z, st1).
Proof.
  apply runs_code.
  unfold lensy_intersect, lensy_intersect_plane, scenario_plane,
    orange_ray_frame.
  vec_cbn. run_conc_sqrt. reflexivity.
Qed.

Lemma hit_enters_glass_witness :
  exists st1 ni st2,
    lensy_intersect (On_plane scenario_plane) orange_ray_frame
    = Ret (0%Z, st1)
    /\ lensy_index_sellmeier 600e-9 N_BK7 st1 = Ret (ni, st1)
    /\ 1.49 < ni < 1.56
    /\ refract_into_lens st1 = Ret (0%Z, st2)
    /\ lensy_redirect_refract (in_air / ni) st1 = Ret (0%Z, st2).
Proof.
  destruct orange_ray_impact as [st1 Hrun].
  destruct (hit_enters_glass (On_plane scenario_plane) orange_ray_frame st1
              Hrun) as (ni & st2 & H).
  - cbn. intros E. injection E as E. lra.
  - cbn. lra.
  - exists st1, ni, st2. split; [exact Hrun | exact H].
Defined.
